(** * MusicForge API: rate limiting, authentication gate and request pipeline

    A shallow embedding of the TypeScript back end of musicforge-api:

    - [Redis]       the key-value client wrapper ([utils/redis.ts], found as
                    [src/unnamed/part_005]);
    - [RateLimit]   [middleware/rateLimit.ts];
    - [Auth]        [middleware/auth.ts];
    - [Database]    the [tracks] table of [database/schema.sql] and the upsert
                    of the controller;
    - [Pipeline]    [controllers/musicController.ts] ([src/unnamed/part_003])
                    together with the parts of [services/llm.ts]
                    ([src/unnamed/part_008]) and [services/youtube.ts]
                    ([src/unnamed/part_007]) that decide its control flow.
    - [JsonStore]   the JSON half of the Redis wrapper ([setJson], [getJson]);
    - [Usage], [RateLimitAdmin]
                    [logApiUsage] and [resetRateLimit] of
                    [middleware/rateLimit.ts];
    - [ApiKeys], [Accounts]
                    [generateApiKey] of [middleware/auth.ts] and the routes of
                    [routes/auth.ts] over the tables [users] and [api_keys];
    - [AudioAnalysis], [YouTube]
                    [services/audioAnalysis.ts] ([src/unnamed/part_008]) and
                    the id and download functions of [services/youtube.ts];
    - [Analyze]     the endpoint [analyzeAudio] of the controller;
    - [ErrorHandler] [middleware/errorHandler.ts].

    Conventions.  JavaScript integers that stay below 2^53 (request counts,
    millisecond timestamps) are [Z]; [Math.floor (a / b)] on such integers with
    [b > 0] is [Z.div].  A promise that rejects, or a statement that throws, is
    the [Throw] result of the effect monad [Eff]; [try { } catch { }] is
    [try_catch].  External collaborators (OpenAI, YouTube, the audio analyser,
    the SHA-256 digest) are section variables: functions from the arguments of
    a call to its outcome.

    The file has two parts: the model, then the theorems about it. *)

From Stdlib Require Import ZArith QArith Qminmax Qround Lia Lqa Ascii String.
From stdpp Require Import base option list strings pretty gmap fin_maps.

#[local] Set Warnings "-clear-no-such-hyp".

Local Open Scope string_scope.
Local Open Scope list_scope.
Local Open Scope Z_scope.

(** * Part I: the model *)

(** ** Effects: state passing with exceptions *)

Module Eff.

Inductive result (A : Type) : Type :=
| Ok (a : A)
| Throw (msg : string).
Arguments Ok {A} a.
Arguments Throw {A} msg.

(** A computation over a store [S].  The store survives an exception, as the
    writes an [async] function has made survive a later [throw]. *)
Definition M (S A : Type) : Type := S -> result A * S.

Definition ret {S A} (a : A) : M S A := fun s => (Ok a, s).

Definition throw {S A} (msg : string) : M S A := fun s => (Throw msg, s).

Definition bind {S A B} (m : M S A) (k : A -> M S B) : M S B :=
  fun s => match m s with
           | (Ok a, s') => k a s'
           | (Throw e, s') => (Throw e, s')
           end.

(** [try { body } catch (error) { handler }], where both branches produce the
    final answer of the function. *)
Definition try_catch {S A} (body : M S A) (handler : string -> S -> A * S)
  : S -> A * S :=
  fun s => match body s with
           | (Ok a, s') => (a, s')
           | (Throw e, s') => handler e s'
           end.

End Eff.

Import Eff.

Declare Scope eff_scope.
Delimit Scope eff_scope with eff.
Notation "x <- m ;; k" := (Eff.bind m (fun x => k))
  (at level 20, m at level 99, k at level 200, only parsing) : eff_scope.

(** [Math.ceil (a / b)] for integers [a] and [b > 0]. *)
Definition Math_ceil_div (a b : Z) : Z := - ((- a) / b).

(** ** The Redis client wrapper *)

Module Redis.

(** A stored counter together with the instant (ms since the epoch) at which
    its TTL removes it.  Values under the [rate_limit:] keys are only ever
    written by [INCR], so they are decimal integers, and [parseInt (v, 10)] of
    such a value is the integer itself.  The server's clock is the clock of
    [Date.now ()]. *)
Record entry : Type := Entry { value : Z; expire_at : option Z }.

(** [client] is [this.client !== null]. *)
Record t : Type := State { client : bool; data : gmap string entry }.

Definition live (now : Z) (e : entry) : bool :=
  match expire_at e with
  | Some deadline => now <? deadline
  | None => true
  end.

Definition read (now : Z) (key : string) (r : t) : option Z :=
  match data r !! key with
  | Some e => if live now e then Some (value e) else None
  | None => None
  end.

(** [async get(key)]: the stored value or [null]. *)
Definition get (now : Z) (key : string) : M t (option Z) :=
  fun r =>
    if client r then (Ok (read now key r), r)
    else (Throw "Redis not connected", r).

(** [async incr(key)]: an absent (or expired) key counts from 0 and the new
    key has no TTL; an existing key keeps its TTL. *)
Definition incr (now : Z) (key : string) : M t Z :=
  fun r =>
    if client r then
      let e' := match data r !! key with
                | Some e => if live now e
                            then Entry (value e + 1) (expire_at e)
                            else Entry 1 None
                | None => Entry 1 None
                end in
      (Ok (value e'), State (client r) (<[key := e']> (data r)))
    else (Throw "Redis not connected", r).

(** [async expire(key, seconds)]. *)
Definition expire (now : Z) (key : string) (seconds : Z) : M t unit :=
  fun r =>
    if client r then
      match data r !! key with
      | Some e =>
          if live now e
          then (Ok tt,
                State (client r)
                      (<[key := Entry (value e) (Some (now + seconds * 1000))]> (data r)))
          else (Ok tt, r)
      | None => (Ok tt, r)
      end
    else (Throw "Redis not connected", r).

End Redis.

(** ** [middleware/rateLimit.ts] *)

Module RateLimit.

Record Limits : Type := { requests : Z; windowMs : Z }.

Definition free : Limits := {| requests := 100; windowMs := 3600000 |}.
Definition starter : Limits := {| requests := 1000; windowMs := 3600000 |}.
Definition pro : Limits := {| requests := 10000; windowMs := 3600000 |}.
Definition scale : Limits := {| requests := 50000; windowMs := 3600000 |}.
Definition enterprise : Limits := {| requests := 200000; windowMs := 3600000 |}.

(** The own properties of the object literal [RATE_LIMITS]. *)
Definition RATE_LIMITS : gmap string Limits :=
  list_to_map
    [ ("free", free); ("starter", starter); ("pro", pro);
      ("scale", scale); ("enterprise", enterprise) ].

(** [RATE_LIMITS] is an ordinary object literal, so a property read
    [RATE_LIMITS[plan]] that misses the own properties continues along the
    prototype chain into [Object.prototype].  These are its members; each is
    a function (or, for [__proto__], the prototype object itself): a truthy
    value that has neither a [requests] nor a [windowMs] property. *)
Definition Object_prototype : list string :=
  [ "constructor"; "hasOwnProperty"; "isPrototypeOf"; "propertyIsEnumerable";
    "toLocaleString"; "toString"; "valueOf"; "__proto__";
    "__defineGetter__"; "__defineSetter__"; "__lookupGetter__";
    "__lookupSetter__" ].

(** What [limits] can be bound to. *)
Inductive limits_value : Type :=
| Config (l : Limits)
| ProtoMember.

(** [RATE_LIMITS[plan]]; [None] is [undefined]. *)
Definition RATE_LIMITS_get (plan : string) : option limits_value :=
  match RATE_LIMITS !! plan with
  | Some l => Some (Config l)
  | None => if bool_decide (plan ∈ Object_prototype)
            then Some ProtoMember else None
  end.

(** [const limits = RATE_LIMITS[plan] || RATE_LIMITS.free]. *)
Definition select_limits (plan : string) : limits_value :=
  match RATE_LIMITS_get plan with
  | Some v => v
  | None => Config free
  end.

Record User : Type := { id : string; plan : string }.
Record ApiKey : Type := { key_id : string }.
Record Request : Type := { user : option User; apiKey : option ApiKey }.

Record RateLimitInfo : Type :=
  { limit : Z; remaining : Z; resetTime : Z }.

(** How the middleware ends: [res.status(..).json(..)], with the error code,
    the message, [error.details.limit] and [meta.rateLimit]; or [next()], with
    [res.locals.rateLimitInfo] when it was set. *)
Inductive Outcome : Type :=
| Json (status : Z) (code message : string)
       (details_limit : option Z) (meta_rateLimit : option RateLimitInfo)
| Next (locals_rateLimitInfo : option RateLimitInfo).

Definition window_start (now : Z) (l : Limits) : Z :=
  now / windowMs l * windowMs l.

Definition rate_key (userId : string) (windowStart : Z) : string :=
  "rate_limit:" +:+ userId +:+ ":" +:+ pretty windowStart.

(** The key when [windowStart] is [NaN]. *)
Definition rate_key_NaN (userId : string) : string :=
  "rate_limit:" +:+ userId +:+ ":NaN".

Definition exceeded_message (l : Limits) (plan : string) : string :=
  "Rate limit exceeded. You are limited to " +:+ pretty (requests l)
    +:+ " requests per hour on the " +:+ plan +:+ " plan.".

(** The [try] block once [req.user] and [req.apiKey] are known to be there. *)
Definition check (now : Z) (u : User) : M Redis.t Outcome :=
  match select_limits (plan u) with
  | Config limits =>
      let windowStart := window_start now limits in
      let key := rate_key (id u) windowStart in
      (currentCount <- Redis.get now key ;;
       let requestCount := default 0 currentCount in
       let resetTime := windowStart + windowMs limits in
       let rateLimitInfo :=
         {| limit := requests limits;
            remaining := Z.max 0 (requests limits - requestCount - 1);
            resetTime := resetTime |} in
       if requests limits <=? requestCount then
         ret (Json 429 "RATE_LIMIT_EXCEEDED"
                   (exceeded_message limits (plan u))
                   (Some (requests limits)) (Some rateLimitInfo))
       else
         _ <- Redis.incr now key ;;
         _ <- (if requestCount =? 0
               then Redis.expire now key (Math_ceil_div (windowMs limits) 1000)
               else ret tt) ;;
         ret (Next (Some rateLimitInfo)))%eff
  | ProtoMember =>
      (* [limits.windowMs] and [limits.requests] are [undefined]: [windowStart]
         is [NaN]; [requestCount >= undefined] is false; [redis.expire (key,
         NaN)] is refused by the server; [limits.requests.toString ()] is a
         [TypeError]. *)
      let key := rate_key_NaN (id u) in
      (currentCount <- Redis.get now key ;;
       let requestCount := default 0 currentCount in
       _ <- Redis.incr now key ;;
       _ <- (if requestCount =? 0
             then throw "ERR value is not an integer or out of range"
             else ret tt) ;;
       throw "TypeError: Cannot read properties of undefined (reading 'toString')")%eff
  end.

Definition rateLimitMiddleware (now : Z) (req : Request)
  : Redis.t -> Outcome * Redis.t :=
  try_catch
    (match user req, apiKey req with
     | Some u, Some _ => check now u
     | _, _ =>
         ret (Json 401 "AUTHENTICATION_REQUIRED"
                   "Authentication required for rate limiting" None None)
     end)
    (fun _ r => (Next None, r)).

(** What [getRateLimitStatus] resolves to: a [RateLimitInfo], or the object
    [{ limit: undefined, remaining: NaN, resetTime: Invalid Date }]. *)
Inductive Status : Type :=
| Info (i : RateLimitInfo)
| NotANumber.

Definition getRateLimitStatus (now : Z) (userId plan : string)
  : M Redis.t Status :=
  match select_limits plan with
  | Config limits =>
      let windowStart := window_start now limits in
      let key := rate_key userId windowStart in
      (currentCount <- Redis.get now key ;;
       let requestCount := default 0 currentCount in
       ret (Info {| limit := requests limits;
                    remaining := Z.max 0 (requests limits - requestCount);
                    resetTime := windowStart + windowMs limits |}))%eff
  | ProtoMember =>
      (_ <- Redis.get now (rate_key_NaN userId) ;; ret NotANumber)%eff
  end.

(** A subject issuing one request after another, at the given instants: each
    check runs to its end before the next one starts. *)
Fixpoint run (req : Request) (times : list Z) (r : Redis.t)
  : list Outcome * Redis.t :=
  match times with
  | [] => ([], r)
  | now :: rest =>
      let '(o, r1) := rateLimitMiddleware now req r in
      let '(os, r2) := run req rest r1 in
      (o :: os, r2)
  end.

Definition allowed (o : Outcome) : bool :=
  match o with
  | Next _ => true
  | Json _ _ _ _ _ => false
  end.

(** The counter under [key] holds [c] requests and stays readable until the
    window ends at [wend]. *)
Definition counter_at (r : Redis.t) (key : string) (c wend : Z) : Prop :=
  (c = 0 ∧ Redis.data r !! key = None) ∨
  (∃ e, Redis.data r !! key = Some e ∧ Redis.value e = c ∧ 0 < c ∧
        match Redis.expire_at e with
        | Some deadline => wend ≤ deadline
        | None => True
        end).

End RateLimit.

(** ** The dual-window limiter of the specification

    A reference model that follows the wording of the specification (sections
    3 and 4.2): a sustained and a burst quota, both counters incremented
    first, the sustained violation reported when both are violated.  It is
    stated only to compare [RateLimit.rateLimitMiddleware] with it. *)

Module DualWindowSpec.

Record RateLimitConfig : Type :=
  { sustainedLimit : Z; sustainedWindow : Z; burstLimit : Z; burstWindow : Z }.

Inductive Verdict : Type :=
| Allow
| DenySustained
| DenyBurst.

(** The verdict from the two counters as they stand after the increment. *)
Definition verdict (cfg : RateLimitConfig) (currentSustained currentBurst : Z)
  : Verdict :=
  if sustainedLimit cfg <? currentSustained then DenySustained
  else if burstLimit cfg <? currentBurst then DenyBurst
  else Allow.

End DualWindowSpec.

(** ** [middleware/auth.ts] *)

Module Auth.

(** The row the gate works with: the API key joined with its user, as the
    [SELECT] returns it and as the cache stores it. *)
Record ApiKeyData : Type :=
  { id : string; user_id : string; name : string; user_email : string;
    user_plan : string }.

(** The lookups and writes the gate performs, in the order performed. *)
Inductive Event : Type :=
| CacheGet (cacheKey : string)
| DbSelect (keyHash : string)
| CacheSet (cacheKey : string) (ttlSeconds : Z)
| DbTouchLastUsed (apiKeyId : string).

(** The store behind the gate: the Redis cache of [apikey:<hash>] entries
    (each with the instant its TTL removes it), the rows of [api_keys] joined
    with [users] that are active, by key hash, and the log of accesses. *)
Record World : Type :=
  { redis_client : bool;
    cache : gmap string (ApiKeyData * Z);
    pool : bool;
    active_keys : string -> list ApiKeyData;
    log : list Event }.

Definition record (e : Event) : M World unit :=
  fun w => (Ok tt,
            {| redis_client := redis_client w; cache := cache w; pool := pool w;
               active_keys := active_keys w; log := log w ++ [e] |}).

(** [redis.getJson (cacheKey)]. *)
Definition getJson (now : Z) (cacheKey : string) : M World (option ApiKeyData) :=
  (_ <- record (CacheGet cacheKey) ;;
   fun w =>
     if redis_client w then
       (Ok (match cache w !! cacheKey with
            | Some (d, deadline) => if now <? deadline then Some d else None
            | None => None
            end), w)
     else (Throw "Redis not connected", w))%eff.

(** [redis.setJson (cacheKey, value, ttl)]. *)
Definition setJson (now : Z) (cacheKey : string) (d : ApiKeyData) (ttl : Z)
  : M World unit :=
  (_ <- record (CacheSet cacheKey ttl) ;;
   fun w =>
     if redis_client w then
       (Ok tt,
        {| redis_client := redis_client w;
           cache := <[cacheKey := (d, now + ttl * 1000)]> (cache w);
           pool := pool w; active_keys := active_keys w; log := log w |})
     else (Throw "Redis not connected", w))%eff.

(** The [SELECT ... WHERE ak.key_hash = $1 AND ak.is_active AND u.is_active]. *)
Definition select_key (keyHash : string) : M World (list ApiKeyData) :=
  (_ <- record (DbSelect keyHash) ;;
   fun w =>
     if pool w then (Ok (active_keys w keyHash), w)
     else (Throw "Database not connected", w))%eff.

(** The [UPDATE api_keys SET last_used_at] that is not awaited: its failure is
    logged and nothing else. *)
Definition touch_last_used (apiKeyId : string) : M World unit :=
  record (DbTouchLastUsed apiKeyId).

Inductive Outcome : Type :=
| Reject (status : Z) (code : string)
| Accept (apiKey : ApiKeyData).

Section gate.

(** [crypto.createHash ('sha256').update (k).digest ('hex')]. *)
Variable sha256_hex : string -> string.

(** [header] is [req.headers['x-api-key']]; [None] is [undefined]. *)
Definition authMiddleware (now : Z) (header : option string)
  : World -> Outcome * World :=
  try_catch
    (match header with
     | None => ret (Reject 401 "MISSING_API_KEY")
     | Some apiKeyHeader =>
         if bool_decide (apiKeyHeader = "") then
           ret (Reject 401 "MISSING_API_KEY")
         else if negb (String.prefix "mf_" apiKeyHeader) then
           ret (Reject 401 "INVALID_API_KEY_FORMAT")
         else
           let keyHash := sha256_hex apiKeyHeader in
           let cacheKey := "apikey:" +:+ keyHash in
           (cached <- getJson now cacheKey ;;
            match cached with
            | Some apiKeyData =>
                _ <- touch_last_used (id apiKeyData) ;;
                ret (Accept apiKeyData)
            | None =>
                result <- select_key keyHash ;;
                match result with
                | [] => ret (Reject 401 "INVALID_API_KEY")
                | apiKeyData :: _ =>
                    _ <- setJson now cacheKey apiKeyData 300 ;;
                    _ <- touch_last_used (id apiKeyData) ;;
                    ret (Accept apiKeyData)
                end
            end)%eff
     end)
    (fun _ w => (Reject 500 "AUTH_ERROR", w)).

End gate.

(** The key format of the specification: the prefix [mf_] followed by exactly
    64 lowercase hexadecimal characters.  The gate does not consult it; it is
    stated to compare the gate with it. *)
Definition lowercase_hex (c : ascii) : bool :=
  let n := nat_of_ascii c in
  ((48 <=? n) && (n <=? 57) || (97 <=? n) && (n <=? 102))%nat.

Definition spec_key_format (k : string) : bool :=
  String.prefix "mf_" k
  && (String.length k =? 67)%nat
  && forallb lowercase_hex (drop 3 (list_ascii_of_string k)).

End Auth.

(** ** The data of the request pipeline ([types/index.ts])

    JavaScript numbers that are not integers by construction (tempo, energy,
    confidence) are exact rationals [Q]: the model abstracts from binary64
    rounding.  An optional property is an [option]; [undefined] is [None]. *)

Module ProcessedQuery.

Inductive Intent : Type :=
| search
| analyze
| discover.

Record Range : Type := { min : option Q; max : option Q }.

Record Filters : Type :=
  { bpm : option Range;
    key : option (list string);
    genre : option (list string);
    mood : option (list string);
    energy : option Range;
    duration : option Range }.

Definition no_filters : Filters :=
  {| bpm := None; key := None; genre := None; mood := None;
     energy := None; duration := None |}.

(** [filters] is optional here although the interface requires it: the
    service validates only [intent] and [searchTerms] of what the language
    model returns, and the scorer reads [filters?.bpm]. *)
Record t : Type :=
  { intent : Intent;
    searchTerms : list string;
    filters : option Filters;
    maxResults : option Z;
    sortBy : option string }.

End ProcessedQuery.

Module YouTubeSearchResult.

Record t : Type :=
  { id : string;
    title : string;
    description : string;
    thumbnailUrl : string;
    channelTitle : string;
    duration : string;
    publishedAt : string;
    viewCount : option Z }.

End YouTubeSearchResult.

Module Track.

Inductive AnalysisStatus : Type :=
| pending
| processing
| completed
| failed.

Global Instance AnalysisStatus_eq_dec : EqDecision AnalysisStatus.
Proof. solve_decision. Defined.

(** [id] is the UUID drawn for the track; the dates are milliseconds since the
    epoch.  [waveformDuration] and [tags] are never set by the pipeline. *)
Record t : Type :=
  { id : string;
    youtubeId : string;
    title : string;
    artist : option string;
    durationSeconds : option Z;
    thumbnailUrl : option string;
    youtubeUrl : option string;
    audioUrl : option string;
    bpm : option Q;
    musicalKey : option string;
    camelotKey : option string;
    energyLevel : option Q;
    loudness : option Q;
    tempoConfidence : option Q;
    keyConfidence : option Q;
    waveformPeaks : option (list Q);
    genre : option string;
    mood : option string;
    analysisStatus : AnalysisStatus;
    analysisCompletedAt : option Z;
    createdAt : Z;
    updatedAt : Z }.

End Track.

Module AudioAnalysisResult.

Record t : Type :=
  { bpm : option Q;
    musicalKey : option string;
    camelotKey : option string;
    energyLevel : option Q;
    loudness : option Q;
    tempoConfidence : option Q;
    keyConfidence : option Q;
    waveformPeaks : option (list Q);
    genre : option string;
    mood : option string }.

End AudioAnalysisResult.

(** What [youtubeService.getVideoMetadata] resolves to when it finds the video. *)
Module VideoMetadata.

Record t : Type :=
  { title : string;
    artist : string;
    duration : Z;
    thumbnailUrl : string;
    description : string }.

End VideoMetadata.

(** What [llmService.extractMetadata] resolves to. *)
Module LLMMetadata.

Record t : Type :=
  { genre : option string;
    mood : option string;
    bpm : option Q;
    key : option string }.

End LLMMetadata.

Module ProcessingStep.

Inductive Status : Type :=
| completed
| failed.

(** [duration] (a difference of two clock readings) and [details] are left
    out: no decision depends on them. *)
Record t : Type := { step : string; status : Status }.

End ProcessingStep.

(** JavaScript truthiness of an optional string and of an optional number. *)
Definition truthy_string (s : option string) : bool :=
  match s with
  | Some v => negb (bool_decide (v = ""))
  | None => false
  end.

Definition truthy_number (x : option Q) : bool :=
  match x with
  | Some v => negb (Qeq_bool v 0)
  | None => false
  end.

(** ** [Promise.all] and the array methods the controller uses *)

Module JS.

(** The order in which [n] pending promises settle: the indices named by
    [order] first, in that order, then whatever is left, by index. *)
Definition schedule (order : list nat) (n : nat) : list nat :=
  remove_dups (filter (λ i, (i < n)%nat) (order ++ seq 0 n)).

(** Settling the promises one by one: a fulfilled promise stores its value in
    the slot of its own index, the first rejection rejects the whole. *)
Fixpoint settle {A} (sched : list nat) (outcomes : list (result A))
    (slots : list (option A)) : result (list (option A)) :=
  match sched with
  | [] => Ok slots
  | i :: rest =>
      match outcomes !! i with
      | Some (Ok v) => settle rest outcomes (<[i := Some v]> slots)
      | Some (Throw e) => Throw e
      | None => settle rest outcomes slots
      end
  end.

(** [await Promise.all (promises)], the promises settling in the given order. *)
Definition Promise_all {A} (order : list nat) (outcomes : list (result A))
  : result (list A) :=
  match settle (schedule order (length outcomes)) outcomes
               (replicate (length outcomes) None) with
  | Ok slots => Ok (omap (λ slot, slot) slots)
  | Throw e => Throw e
  end.

(** [arr.findIndex (p)]; [None] is [-1]. *)
Fixpoint findIndex {A} (p : A -> bool) (arr : list A) : option nat :=
  match arr with
  | [] => None
  | x :: rest => if p x then Some 0%nat else S <$> findIndex p rest
  end.

(** [arr.filter ((x, index) => p x index)], [arr] starting at index [start]. *)
Fixpoint filter_indexed {A} (p : A -> nat -> bool) (start : nat) (arr : list A)
  : list A :=
  match arr with
  | [] => []
  | x :: rest =>
      if p x start then x :: filter_indexed p (S start) rest
      else filter_indexed p (S start) rest
  end.

(** [arr.slice (0, end)] for an integer [end]: a negative [end] counts from
    the end of the array. *)
Definition slice0 {A} (stop : Z) (arr : list A) : list A :=
  if stop <? 0
  then take (Z.to_nat (Z.of_nat (length arr) + stop)) arr
  else take (Z.to_nat stop) arr.

End JS.

(** ** The [tracks] table and [saveTrackToDatabase] *)

Module Database.

(** [youtube_id] is [UNIQUE NOT NULL]: the table is a map from it to the rest
    of the row, which is kept in the shape of a [Track.t].  Values are assumed
    to fit their columns (the model has no [VARCHAR] limits and no [DECIMAL]
    rounding). *)
Record t : Type := { pool : bool; tracks : gmap string Track.t }.

(** SQL [COALESCE (a, b)]. *)
Definition COALESCE {A} (a b : option A) : option A :=
  match a with
  | Some _ => a
  | None => b
  end.

(** [ON CONFLICT (youtube_id) DO UPDATE SET ...]: [old] is the stored row
    ([tracks.*]), [new] the row proposed for insertion ([EXCLUDED.*]). *)
Definition on_conflict (now : Z) (old new : Track.t) : Track.t :=
  {| Track.id := Track.id old;
     Track.youtubeId := Track.youtubeId old;
     Track.title := Track.title new;
     Track.artist := Track.artist new;
     Track.durationSeconds := Track.durationSeconds old;
     Track.thumbnailUrl := Track.thumbnailUrl old;
     Track.youtubeUrl := Track.youtubeUrl old;
     Track.audioUrl := Track.audioUrl old;
     Track.bpm := COALESCE (Track.bpm new) (Track.bpm old);
     Track.musicalKey := COALESCE (Track.musicalKey new) (Track.musicalKey old);
     Track.camelotKey := Track.camelotKey old;
     Track.energyLevel := Track.energyLevel old;
     Track.loudness := Track.loudness old;
     Track.tempoConfidence := Track.tempoConfidence old;
     Track.keyConfidence := Track.keyConfidence old;
     Track.waveformPeaks := Track.waveformPeaks old;
     Track.genre := Track.genre old;
     Track.mood := Track.mood old;
     Track.analysisStatus := Track.analysisStatus new;
     Track.analysisCompletedAt := Track.analysisCompletedAt old;
     Track.createdAt := Track.createdAt old;
     Track.updatedAt := now |}.

(** The [INSERT ... ON CONFLICT] statement, through [database.query]. *)
Definition upsert_track (now : Z) (track : Track.t) : M t unit :=
  fun db =>
    if pool db then
      let row := match tracks db !! Track.youtubeId track with
                 | Some old => on_conflict now old track
                 | None => track
                 end in
      (Ok tt, {| pool := pool db;
                 tracks := <[Track.youtubeId track := row]> (tracks db) |})
    else (Throw "Database not connected", db).

(** [saveTrackToDatabase]: a failure is logged and not thrown. *)
Definition saveTrackToDatabase (now : Z) (track : Track.t) : M t unit :=
  fun db =>
    let '(u, db') := try_catch (upsert_track now track) (fun _ db' => (tt, db')) db in
    (Ok u, db').

End Database.

(** ** [services/llm.ts], [services/youtube.ts] and
       [controllers/musicController.ts] *)

Module Pipeline.

Inductive Quality : Type :=
| standard
| high.

(** The external collaborators of one request.  Each field gives the outcome
    of a call from its arguments; [Throw] is a rejected promise. *)
Record Collaborators : Type :=
  { (** [redis.getJson] of the [llm:query:] cache entry of an input *)
    llm_query_cache : string -> result (option ProcessedQuery.t);
    (** the [try] block of [processRequest]: the chat completion, parsing and
        validating its JSON, the defaults and the cache write *)
    llm_understand : string -> result ProcessedQuery.t;
    (** [redis.getJson] of the [youtube:search:] cache entry of a query *)
    youtube_search_cache :
      string -> Z -> result (option (list YouTubeSearchResult.t));
    (** the [try] block of [searchMusic]: the search, the video details and
        the cache write *)
    youtube_search_api : string -> Z -> result (list YouTubeSearchResult.t);
    (** [getVideoMetadata], which catches its own errors; [None] is [null] *)
    getVideoMetadata : string -> option VideoMetadata.t;
    (** [extractMetadata (title, description)] *)
    extractMetadata : string -> string -> result LLMMetadata.t;
    (** [getDownloadUrl (videoId, quality)], the [url] of its answer *)
    getDownloadUrl : string -> Quality -> result string;
    (** [analyzeFromUrl (url)] *)
    analyzeFromUrl : string -> result AudioAnalysisResult.t;
    (** the UUID drawn for the track at each position of the result list *)
    uuidv4 : nat -> string;
    (** the order in which the concurrent searches settle *)
    completion_order : list nat;
    (** the reading of the clock *)
    now : Z }.

Record ProcessMusicRequest : Type :=
  { request : option string;
    maxTracks : option Z;
    analyzeAudio : option bool;
    downloadQuality : option Quality }.

Record MusicRequestResult : Type :=
  { tracks : list Track.t;
    totalFound : nat;
    processingSteps : list ProcessingStep.t;
    confidence : Q }.

(** [res.json ({ success: true, data })] with status 200, or
    [res.status (..).json ({ success: false, error: { code } })]. *)
Inductive Response : Type :=
| Success (data : MusicRequestResult)
| Failure (status : Z) (code : string).

Definition lift {S A} (r : result A) : M S A := fun s => (r, s).

(** *** [calculateConfidenceScore] *)

Definition bpm_matches (range : ProcessedQuery.Range) (t : Track.t) : bool :=
  if truthy_number (Track.bpm t) then
    let b := default 0%Q (Track.bpm t) in
    let min := if truthy_number (ProcessedQuery.min range)
               then default 0%Q (ProcessedQuery.min range) else 0%Q in
    let max := if truthy_number (ProcessedQuery.max range)
               then default 0%Q (ProcessedQuery.max range) else 200%Q in
    Qle_bool min b && Qle_bool b max
  else false.

Definition is_analyzed (t : Track.t) : bool :=
  bool_decide (Track.analysisStatus t = Track.completed).

Definition count (n : nat) : Q := inject_Z (Z.of_nat n).

Definition calculateConfidenceScore (processedQuery : ProcessedQuery.t)
    (tracks : list Track.t) : Q :=
  if (length tracks =? 0)%nat then 0%Q
  else
    let score := 0.5%Q in
    let score := (score + Qmin (count (length tracks) / 10) 0.3)%Q in
    let analyzedTracks := List.filter is_analyzed tracks in
    let score :=
      if (0 <? length analyzedTracks)%nat
      then (score + count (length analyzedTracks) / count (length tracks) * 0.2)%Q
      else score in
    let score :=
      match ProcessedQuery.filters processedQuery ≫= ProcessedQuery.bpm with
      | Some range =>
          if (0 <? length analyzedTracks)%nat then
            let matchingBPM := List.filter (bpm_matches range) analyzedTracks in
            if (0 <? length matchingBPM)%nat
            then (score + count (length matchingBPM)
                          / count (length analyzedTracks) * 0.2)%Q
            else score
          else score
      | None => score
      end in
    Qmin score 1.0%Q.

Section services.

Variable env : Collaborators.

(** *** [LLMService.processRequest] *)

Definition fallbackQuery (userInput : string) : ProcessedQuery.t :=
  {| ProcessedQuery.intent := ProcessedQuery.search;
     ProcessedQuery.searchTerms := [userInput];
     ProcessedQuery.filters := Some ProcessedQuery.no_filters;
     ProcessedQuery.maxResults := Some 10;
     ProcessedQuery.sortBy := Some "relevance" |}.

Definition processRequest (userInput : string) : result ProcessedQuery.t :=
  match llm_query_cache env userInput with
  | Throw e => Throw e
  | Ok (Some cached) => Ok cached
  | Ok None =>
      match llm_understand env userInput with
      | Ok processedQuery => Ok processedQuery
      | Throw _ => Ok (fallbackQuery userInput)
      end
  end.

(** *** [YouTubeService.searchMusic] *)

Definition searchMusic (query : string) (maxResults : Z)
  : result (list YouTubeSearchResult.t) :=
  match youtube_search_cache env query maxResults with
  | Throw e => Throw e
  | Ok (Some cached) => Ok cached
  | Ok None =>
      match youtube_search_api env query maxResults with
      | Ok results => Ok results
      | Throw _ => Throw "Failed to search YouTube"
      end
  end.

(** *** The search stage of [processMusic] *)

(** [allResults.filter ((result, index, arr) =>
       arr.findIndex (r => r.id === result.id) === index)]. *)
Definition unique_by_id (allResults : list YouTubeSearchResult.t)
  : list YouTubeSearchResult.t :=
  JS.filter_indexed
    (λ result index,
       bool_decide
         (JS.findIndex
            (λ r, bool_decide (YouTubeSearchResult.id r = YouTubeSearchResult.id result))
            allResults
          = Some index))
    0 allResults.

Definition searchPromises (processedQuery : ProcessedQuery.t) (maxTracks : Z)
  : list (result (list YouTubeSearchResult.t)) :=
  (λ term,
     searchMusic term
       (Math_ceil_div maxTracks
          (Z.of_nat (length (ProcessedQuery.searchTerms processedQuery)))))
    <$> take 3 (ProcessedQuery.searchTerms processedQuery).

Definition search_stage (processedQuery : ProcessedQuery.t) (maxTracks : Z)
  : result (list YouTubeSearchResult.t * list YouTubeSearchResult.t) :=
  match JS.Promise_all (completion_order env)
          (searchPromises processedQuery maxTracks) with
  | Ok searchResults =>
      let allResults := concat searchResults in
      let uniqueResults := JS.slice0 maxTracks (unique_by_id allResults) in
      Ok (allResults, uniqueResults)
  | Throw e => Throw e
  end.

(** *** The track stage *)

(** The track as first created from a search result. *)
Definition basic_track (index : nat) (ytResult : YouTubeSearchResult.t) : Track.t :=
  let metadata := getVideoMetadata env (YouTubeSearchResult.id ytResult) in
  {| Track.id := uuidv4 env index;
     Track.youtubeId := YouTubeSearchResult.id ytResult;
     Track.title :=
       match metadata with
       | Some m => if bool_decide (VideoMetadata.title m = "")
                   then YouTubeSearchResult.title ytResult
                   else VideoMetadata.title m
       | None => YouTubeSearchResult.title ytResult
       end;
     Track.artist := VideoMetadata.artist <$> metadata;
     Track.durationSeconds := VideoMetadata.duration <$> metadata;
     Track.thumbnailUrl := Some (YouTubeSearchResult.thumbnailUrl ytResult);
     Track.youtubeUrl :=
       Some ("https://www.youtube.com/watch?v=" +:+ YouTubeSearchResult.id ytResult);
     Track.audioUrl := None;
     Track.bpm := None;
     Track.musicalKey := None;
     Track.camelotKey := None;
     Track.energyLevel := None;
     Track.loudness := None;
     Track.tempoConfidence := None;
     Track.keyConfidence := None;
     Track.waveformPeaks := None;
     Track.genre := None;
     Track.mood := None;
     Track.analysisStatus := Track.pending;
     Track.analysisCompletedAt := None;
     Track.createdAt := now env;
     Track.updatedAt := now env |}.

(** [if (llmMetadata.genre) track.genre = llmMetadata.genre; ...]. *)
Definition apply_llm_metadata (m : LLMMetadata.t) (t : Track.t) : Track.t :=
  {| Track.id := Track.id t;
     Track.youtubeId := Track.youtubeId t;
     Track.title := Track.title t;
     Track.artist := Track.artist t;
     Track.durationSeconds := Track.durationSeconds t;
     Track.thumbnailUrl := Track.thumbnailUrl t;
     Track.youtubeUrl := Track.youtubeUrl t;
     Track.audioUrl := Track.audioUrl t;
     Track.bpm := if truthy_number (LLMMetadata.bpm m)
                  then LLMMetadata.bpm m else Track.bpm t;
     Track.musicalKey := if truthy_string (LLMMetadata.key m)
                         then LLMMetadata.key m else Track.musicalKey t;
     Track.camelotKey := Track.camelotKey t;
     Track.energyLevel := Track.energyLevel t;
     Track.loudness := Track.loudness t;
     Track.tempoConfidence := Track.tempoConfidence t;
     Track.keyConfidence := Track.keyConfidence t;
     Track.waveformPeaks := Track.waveformPeaks t;
     Track.genre := if truthy_string (LLMMetadata.genre m)
                    then LLMMetadata.genre m else Track.genre t;
     Track.mood := if truthy_string (LLMMetadata.mood m)
                   then LLMMetadata.mood m else Track.mood t;
     Track.analysisStatus := Track.analysisStatus t;
     Track.analysisCompletedAt := Track.analysisCompletedAt t;
     Track.createdAt := Track.createdAt t;
     Track.updatedAt := Track.updatedAt t |}.

(** The assignments after a successful [analyzeFromUrl]. *)
Definition apply_analysis (url : string) (a : AudioAnalysisResult.t) (t : Track.t)
  : Track.t :=
  {| Track.id := Track.id t;
     Track.youtubeId := Track.youtubeId t;
     Track.title := Track.title t;
     Track.artist := Track.artist t;
     Track.durationSeconds := Track.durationSeconds t;
     Track.thumbnailUrl := Track.thumbnailUrl t;
     Track.youtubeUrl := Track.youtubeUrl t;
     Track.audioUrl := Some url;
     Track.bpm := if truthy_number (AudioAnalysisResult.bpm a)
                  then AudioAnalysisResult.bpm a else Track.bpm t;
     Track.musicalKey := if truthy_string (AudioAnalysisResult.musicalKey a)
                         then AudioAnalysisResult.musicalKey a else Track.musicalKey t;
     Track.camelotKey := if truthy_string (AudioAnalysisResult.camelotKey a)
                         then AudioAnalysisResult.camelotKey a else Track.camelotKey t;
     Track.energyLevel := match AudioAnalysisResult.energyLevel a with
                          | Some e => Some e
                          | None => Track.energyLevel t
                          end;
     Track.loudness := match AudioAnalysisResult.loudness a with
                       | Some e => Some e
                       | None => Track.loudness t
                       end;
     Track.tempoConfidence := AudioAnalysisResult.tempoConfidence a;
     Track.keyConfidence := AudioAnalysisResult.keyConfidence a;
     Track.waveformPeaks := match AudioAnalysisResult.waveformPeaks a with
                            | Some w => Some w
                            | None => Track.waveformPeaks t
                            end;
     Track.genre := if truthy_string (AudioAnalysisResult.genre a)
                       && negb (truthy_string (Track.genre t))
                    then AudioAnalysisResult.genre a else Track.genre t;
     Track.mood := if truthy_string (AudioAnalysisResult.mood a)
                      && negb (truthy_string (Track.mood t))
                   then AudioAnalysisResult.mood a else Track.mood t;
     Track.analysisStatus := Track.completed;
     Track.analysisCompletedAt := Some (now env);
     Track.createdAt := Track.createdAt t;
     Track.updatedAt := Track.updatedAt t |}.

(** The [catch (analysisError)] branch; [url] is the download URL when it had
    been obtained before the failure. *)
Definition analysis_failed (url : option string) (t : Track.t) : Track.t :=
  {| Track.id := Track.id t;
     Track.youtubeId := Track.youtubeId t;
     Track.title := Track.title t;
     Track.artist := Track.artist t;
     Track.durationSeconds := Track.durationSeconds t;
     Track.thumbnailUrl := Track.thumbnailUrl t;
     Track.youtubeUrl := Track.youtubeUrl t;
     Track.audioUrl := match url with Some u => Some u | None => Track.audioUrl t end;
     Track.bpm := Track.bpm t;
     Track.musicalKey := Track.musicalKey t;
     Track.camelotKey := Track.camelotKey t;
     Track.energyLevel := Track.energyLevel t;
     Track.loudness := Track.loudness t;
     Track.tempoConfidence := Track.tempoConfidence t;
     Track.keyConfidence := Track.keyConfidence t;
     Track.waveformPeaks := Track.waveformPeaks t;
     Track.genre := Track.genre t;
     Track.mood := Track.mood t;
     Track.analysisStatus := Track.failed;
     Track.analysisCompletedAt := Track.analysisCompletedAt t;
     Track.createdAt := Track.createdAt t;
     Track.updatedAt := Track.updatedAt t |}.

(** The body of the per-result [try] block up to [tracks.push (track)]. *)
Definition make_track (analyzeAudio : bool) (downloadQuality : Quality)
    (index : nat) (ytResult : YouTubeSearchResult.t) : result Track.t :=
  let track := basic_track index ytResult in
  match extractMetadata env (Track.title track)
                        (YouTubeSearchResult.description ytResult) with
  | Throw e => Throw e
  | Ok llmMetadata =>
      let track := apply_llm_metadata llmMetadata track in
      if analyzeAudio then
        match getDownloadUrl env (YouTubeSearchResult.id ytResult) downloadQuality with
        | Throw _ => Ok (analysis_failed None track)
        | Ok url =>
            match analyzeFromUrl env url with
            | Throw _ => Ok (analysis_failed (Some url) track)
            | Ok analysis => Ok (apply_analysis url analysis track)
            end
        end
      else Ok track
  end.

(** [for (const ytResult of uniqueResults) { try { ... } catch { } }]: a
    result whose processing throws is skipped. *)
Fixpoint track_stage (analyzeAudio : bool) (downloadQuality : Quality)
    (index : nat) (uniqueResults : list YouTubeSearchResult.t)
    (tracks : list Track.t) : M Database.t (list Track.t) :=
  match uniqueResults with
  | [] => ret tracks
  | ytResult :: rest =>
      match make_track analyzeAudio downloadQuality index ytResult with
      | Ok track =>
          (_ <- Database.saveTrackToDatabase (now env) track ;;
           track_stage analyzeAudio downloadQuality (S index) rest
                       (tracks ++ [track]))%eff
      | Throw _ =>
          track_stage analyzeAudio downloadQuality (S index) rest tracks
      end
  end.

(** *** [processMusic]

    [logMusicRequest] writes to a table no answer is computed from and
    catches its own errors; it is left out. *)
Definition step (name : string) : ProcessingStep.t :=
  {| ProcessingStep.step := name;
     ProcessingStep.status := ProcessingStep.completed |}.

Definition processMusic (body : ProcessMusicRequest)
  : Database.t -> Response * Database.t :=
  try_catch
    (let maxTracks := default 10 (maxTracks body) in
     let analyzeAudio := default true (analyzeAudio body) in
     let downloadQuality := default standard (downloadQuality body) in
     match request body with
     | None => ret (Failure 400 "INVALID_REQUEST")
     | Some userQuery =>
         if bool_decide (userQuery = "") then
           ret (Failure 400 "INVALID_REQUEST")
         else
           (processedQuery <- lift (processRequest userQuery) ;;
            let processingSteps := [step "llm_processing"] in
            found <- lift (search_stage processedQuery maxTracks) ;;
            let uniqueResults := snd found in
            let processingSteps := processingSteps ++ [step "youtube_search"] in
            tracks <- track_stage analyzeAudio downloadQuality 0 uniqueResults [] ;;
            let processingSteps := processingSteps ++ [step "track_processing"] in
            let confidence := calculateConfidenceScore processedQuery tracks in
            ret (Success {| tracks := tracks;
                            totalFound := length tracks;
                            processingSteps := processingSteps;
                            confidence := confidence |}))%eff
     end)
    (fun _ db => (Failure 500 "PROCESSING_ERROR", db)).

End services.

End Pipeline.

(** ** Auxiliary definitions used in the statements of Part II *)

Module Aux.

Import Pipeline.

(** The slots of [Promise.all] once the promises with an index in [settled]
    have been fulfilled with their values among [vs]. *)
Definition slots_of {A} (vs : list A) (settled : list nat) : list (option A) :=
  imap (λ i v, if bool_decide (i ∈ settled) then Some v else None) vs.

(** Keeping, of the records whose id is not in [seen], the first of each id. *)
Fixpoint first_of_each_id (seen : gset string) (l : list YouTubeSearchResult.t)
  : list YouTubeSearchResult.t :=
  match l with
  | [] => []
  | x :: rest =>
      if bool_decide (YouTubeSearchResult.id x ∈ seen)
      then first_of_each_id seen rest
      else x :: first_of_each_id ({[ YouTubeSearchResult.id x ]} ∪ seen) rest
  end.



(** The tracks of the results whose own processing succeeds, in order. *)
Fixpoint successes (env : Collaborators) (analyzeAudio : bool)
    (downloadQuality : Quality) (index : nat)
    (uniqueResults : list YouTubeSearchResult.t) : list Track.t :=
  match uniqueResults with
  | [] => []
  | ytResult :: rest =>
      match make_track env analyzeAudio downloadQuality index ytResult with
      | Ok track => track :: successes env analyzeAudio downloadQuality (S index) rest
      | Throw _ => successes env analyzeAudio downloadQuality (S index) rest
      end
  end.


(** A search result with the given id and title. *)
Definition found (id title : string) : YouTubeSearchResult.t :=
  {| YouTubeSearchResult.id := id;
     YouTubeSearchResult.title := title;
     YouTubeSearchResult.description := "";
     YouTubeSearchResult.thumbnailUrl := "";
     YouTubeSearchResult.channelTitle := "";
     YouTubeSearchResult.duration := "";
     YouTubeSearchResult.publishedAt := "";
     YouTubeSearchResult.viewCount := None |}.

(** Collaborators for the examples: nothing is cached, the language model
    answers [understand], the search answers [search], no video has metadata,
    no metadata is extracted, downloads fail. *)
Definition example_env
    (understand : string -> result ProcessedQuery.t)
    (search : string -> Z -> result (list YouTubeSearchResult.t))
    (order : list nat) : Collaborators :=
  {| llm_query_cache := λ _, Ok None;
     llm_understand := understand;
     youtube_search_cache := λ _ _, Ok None;
     youtube_search_api := search;
     getVideoMetadata := λ _, None;
     extractMetadata := λ _ _,
       Ok {| LLMMetadata.genre := None; LLMMetadata.mood := None;
             LLMMetadata.bpm := None; LLMMetadata.key := None |};
     getDownloadUrl := λ _ _, Throw "Failed to get download URL";
     analyzeFromUrl := λ _, Throw "Failed to analyze audio";
     uuidv4 := λ i, "track-" +:+ pretty i;
     completion_order := order;
     now := 0 |}.

(** A query for the given terms, as the language model would return it. *)
Definition query_for (terms : list string) : ProcessedQuery.t :=
  {| ProcessedQuery.intent := ProcessedQuery.search;
     ProcessedQuery.searchTerms := terms;
     ProcessedQuery.filters := Some ProcessedQuery.no_filters;
     ProcessedQuery.maxResults := Some 10;
     ProcessedQuery.sortBy := Some "relevance" |}.


End Aux.

(** ** The JSON side of the Redis wrapper: [set], [get], [setJson], [getJson]

    The wrapper's string values under the keys of one family ([usage:recent:],
    [audio:analysis:], [youtube:download:]) are the [JSON.stringify] of values
    of one type [V]; the store keeps the value itself, [JSON.parse] of
    [JSON.stringify] being taken as the identity on the plain data stored.
    An entry carries the instant (ms) at which its TTL removes it, when it has
    one. *)

Module JsonStore.

Record t (V : Type) : Type := State { client : bool; data : gmap string (V * option Z) }.
Arguments State {V} client data.
Arguments client {V} t.
Arguments data {V} t.

Definition live (now : Z) (deadline : option Z) : bool :=
  match deadline with
  | Some d => now <? d
  | None => true
  end.

(** [async set(key, value, expireInSeconds?)]: [if (expireInSeconds)] sends
    [SETEX] for a number other than 0, which the server refuses unless it is
    positive, and a plain [SET], which leaves the key without TTL, for 0 and
    [undefined]. *)
Definition setJson {V} (now : Z) (key : string) (value : V)
    (expireInSeconds : option Z) : M (t V) unit :=
  fun r =>
    if client r then
      match expireInSeconds with
      | Some seconds =>
          if seconds =? 0 then
            (Ok tt, State (client r) (<[key := (value, None)]> (data r)))
          else if seconds <? 0 then
            (Throw "ERR invalid expire time in 'setex' command", r)
          else
            (Ok tt, State (client r)
                          (<[key := (value, Some (now + seconds * 1000))]> (data r)))
      | None => (Ok tt, State (client r) (<[key := (value, None)]> (data r)))
      end
    else (Throw "Redis not connected", r).

(** [async getJson(key)]: [value ? JSON.parse (value) : null]. *)
Definition getJson {V} (now : Z) (key : string) : M (t V) (option V) :=
  fun r =>
    if client r then
      (Ok (match data r !! key with
           | Some (v, deadline) => if live now deadline then Some v else None
           | None => None
           end), r)
    else (Throw "Redis not connected", r).

End JsonStore.

(** ** [logApiUsage] and [resetRateLimit] of [middleware/rateLimit.ts] *)

Module Usage.

Record t : Type :=
  { user_id : string;
    api_key_id : string;
    endpoint : string;
    method : string;
    status_code : Z;
    response_time_ms : Z;
    created_at : Z }.

(** What [logApiUsage] reads of [req] and [res]. *)
Record Exchange : Type :=
  { req : RateLimit.Request;
    path : string;
    req_method : string;
    statusCode : Z;
    locals_responseTime : option Z }.

(** The stores it writes: the [usage:recent:] lists in Redis and the
    [api_usage] table, whose rows are only ever appended. *)
Record World : Type :=
  { recent : JsonStore.t (list t);
    pool : bool;
    api_usage : list t }.

Definition usageKey (userId : string) : string := "usage:recent:" +:+ userId.

(** [database.query (INSERT INTO api_usage ...).catch (...)]: not awaited, a
    failure is logged. *)
Definition insert_api_usage (usage : t) (w : World) : World :=
  if pool w
  then {| recent := recent w; pool := pool w; api_usage := api_usage w ++ [usage] |}
  else w.

Definition with_recent (w : World) (r : JsonStore.t (list t)) : World :=
  {| recent := r; pool := pool w; api_usage := api_usage w |}.

(** The Redis half of the [try] block. *)
Definition cache_recent (now : Z) (usage : t) : M (JsonStore.t (list t)) unit :=
  (cached <- JsonStore.getJson now (usageKey (user_id usage)) ;;
   let recentUsage := default [] cached in
   let recentUsage := usage :: recentUsage in
   let recentUsage := if (100 <? length recentUsage)%nat
                      then take 100 recentUsage else recentUsage in
   JsonStore.setJson now (usageKey (user_id usage)) recentUsage (Some 3600))%eff.

(** The row built from [req] and [res]; [created_at] is [new Date ()]. *)
Definition usage_of (now : Z) (u : RateLimit.User) (k : RateLimit.ApiKey)
    (x : Exchange) : t :=
  {| user_id := RateLimit.id u;
     api_key_id := RateLimit.key_id k;
     endpoint := path x;
     method := req_method x;
     status_code := statusCode x;
     response_time_ms := default 0 (locals_responseTime x);
     created_at := now |}.

Definition logApiUsage (now : Z) (x : Exchange) (w : World) : World :=
  match RateLimit.user (req x), RateLimit.apiKey (req x) with
  | Some u, Some k =>
      let usage := usage_of now u k x in
      let w := insert_api_usage usage w in
      with_recent w
        (snd (try_catch (cache_recent now usage) (fun _ r => (tt, r)) (recent w)))
  | _, _ => w
  end.

(** One exchange logged after another, each at its own instant. *)
Fixpoint log_all (xs : list (Z * Exchange)) (w : World) : World :=
  match xs with
  | [] => w
  | (now, x) :: rest => log_all rest (logApiUsage now x w)
  end.

(** Each exchange is logged before the entry written by the one before it
    has expired. *)
Fixpoint within_ttl (last : Z) (times : list Z) : Prop :=
  match times with
  | [] => True
  | now :: rest => now < last + 3600 * 1000 ∧ within_ttl now rest
  end.

End Usage.

Module RateLimitAdmin.

Section keys.

(** The server's glob matcher behind [KEYS pattern]: whether a key matches a
    pattern. *)
Variable glob_match : string -> string -> bool.

(** [redisClient.keys (pattern)]: the keys that have not expired and match. *)
Definition keys (now : Z) (pattern : string) (r : Redis.t) : list string :=
  (filter (λ kv, glob_match pattern kv.1 = true ∧ Redis.live now kv.2 = true)
          (map_to_list (Redis.data r))).*1.

Definition resetRateLimit (now : Z) (userId : string) : M Redis.t unit :=
  fun r =>
    let pattern := "rate_limit:" +:+ userId +:+ ":*" in
    if Redis.client r then
      let found := keys now pattern r in
      if (0 <? length found)%nat
      then (Ok tt, Redis.State (Redis.client r) (foldr delete (Redis.data r) found))
      else (Ok tt, r)
    else (Throw "Redis not connected", r).

End keys.

(** The matcher on the patterns that are a literal text followed by one [*]:
    the keys that start with the text. *)
Definition literal_then_star (pattern key : string) : bool :=
  String.prefix (String.substring 0 (String.length pattern - 1) pattern) key.

End RateLimitAdmin.

(** ** [generateApiKey] of [middleware/auth.ts] *)

Module ApiKeys.

(** [buffer.toString ('hex')]: two lowercase hexadecimal digits per byte. *)
Definition hex_digit (n : N) : ascii :=
  default "0"%char (list_ascii_of_string "0123456789abcdef" !! N.to_nat n).

Definition hex_of_byte (b : Byte.byte) : list ascii :=
  [hex_digit (Byte.to_N b / 16); hex_digit (Byte.to_N b mod 16)].

Definition toString_hex (buffer : list Byte.byte) : string :=
  string_of_list_ascii (buffer ≫= hex_of_byte).

(** [generateApiKey ()], from the bytes that [crypto.randomBytes (32)] drew. *)
Definition generateApiKey (randomBytes : list Byte.byte) : string :=
  "mf_" +:+ toString_hex randomBytes.

End ApiKeys.

(** ** [routes/auth.ts]: registration and login

    The tables [users] and [api_keys] of [database/schema.sql], with the
    columns the routes and the gate read or write.  Values are assumed to fit
    their columns. *)

Module UserRow.

Record t : Type :=
  { id : string;
    email : string;
    password_hash : option string;
    name : option string;
    company : option string;
    plan : string;
    is_active : bool }.

End UserRow.

Module ApiKeyRow.

Record t : Type :=
  { id : string;
    user_id : string;
    key_hash : string;
    name : string;
    is_active : bool;
    rate_limit_tier : string }.

End ApiKeyRow.

Module Accounts.

Record Tables : Type :=
  { pool : bool;
    users : list UserRow.t;
    api_keys : list ApiKeyRow.t }.

(** The gate's [SELECT ... FROM api_keys ak JOIN users u ON ak.user_id = u.id
    WHERE ak.key_hash = $1 AND ak.is_active = true AND u.is_active = true]. *)
Definition select_active_keys (tb : Tables) (keyHash : string) : list Auth.ApiKeyData :=
  ak ← filter (λ ak, ApiKeyRow.key_hash ak = keyHash ∧ ApiKeyRow.is_active ak = true)
              (api_keys tb);
  u ← filter (λ u, UserRow.id u = ApiKeyRow.user_id ak ∧ UserRow.is_active u = true)
             (users tb);
  [ {| Auth.id := ApiKeyRow.id ak;
       Auth.user_id := UserRow.id u;
       Auth.name := ApiKeyRow.name ak;
       Auth.user_email := UserRow.email u;
       Auth.user_plan := UserRow.plan u |} ].

(** The store behind the gate when its database holds these tables. *)
Definition gate_world (tb : Tables) (redis_client : bool)
    (cache : gmap string (Auth.ApiKeyData * Z)) (log : list Auth.Event) : Auth.World :=
  {| Auth.redis_client := redis_client;
     Auth.cache := cache;
     Auth.pool := pool tb;
     Auth.active_keys := select_active_keys tb;
     Auth.log := log |}.

(** The [user] object of the 201 and 200 answers. *)
Record PublicUser : Type :=
  { id : string;
    email : string;
    name : option string;
    company : option string;
    plan : string;
    isActive : bool }.

Definition public (u : UserRow.t) : PublicUser :=
  {| id := UserRow.id u;
     email := UserRow.email u;
     name := UserRow.name u;
     company := UserRow.company u;
     plan := UserRow.plan u;
     isActive := UserRow.is_active u |}.

Record RegisterBody : Type :=
  { body_email : option string;
    body_password : option string;
    body_name : option string;
    body_company : option string }.

Record LoginBody : Type :=
  { login_email : option string;
    login_password : option string }.

(** What one registration draws: the two [uuidv4 ()] and the 32 random bytes
    of the key. *)
Record Draws : Type :=
  { user_uuid : string;
    key_uuid : string;
    randomBytes : list Byte.byte }.

Inductive RegisterResponse : Type :=
| Created (user : PublicUser) (apiKey : string)
| RegisterError (status : Z) (code : string).

Inductive LoginResponse : Type :=
| LoggedIn (token : string) (user : PublicUser)
| LoginError (status : Z) (code : string).

(** [database.queryOne (text, [email])] on [users]. *)
Definition queryOne_user (p : UserRow.t -> bool) : M Tables (option UserRow.t) :=
  fun tb =>
    if pool tb then (Ok (head (List.filter p (users tb))), tb)
    else (Throw "Database not connected", tb).

(** [INSERT INTO users ... RETURNING *] under the primary key on [id] and the
    [UNIQUE] constraint on [email]. *)
Definition insert_user (row : UserRow.t) : M Tables UserRow.t :=
  fun tb =>
    if bool_decide (UserRow.id row ∈ UserRow.id <$> users tb) then
      (Throw "duplicate key value violates unique constraint users_pkey", tb)
    else if bool_decide (UserRow.email row ∈ UserRow.email <$> users tb) then
      (Throw "duplicate key value violates unique constraint users_email_key", tb)
    else
      (Ok row, {| pool := pool tb; users := users tb ++ [row];
                  api_keys := api_keys tb |}).

(** [INSERT INTO api_keys ... RETURNING *] under the primary key on [id] and
    the foreign key on [user_id]. *)
Definition insert_api_key (row : ApiKeyRow.t) : M Tables ApiKeyRow.t :=
  fun tb =>
    if bool_decide (ApiKeyRow.id row ∈ ApiKeyRow.id <$> api_keys tb) then
      (Throw "duplicate key value violates unique constraint api_keys_pkey", tb)
    else if negb (bool_decide (ApiKeyRow.user_id row ∈ UserRow.id <$> users tb)) then
      (Throw "insert or update on table api_keys violates foreign key constraint", tb)
    else
      (Ok row, {| pool := pool tb; users := users tb;
                  api_keys := api_keys tb ++ [row] |}).

(** [database.transaction (callback)]: [BEGIN], the callback, [COMMIT]; when
    the callback throws, [ROLLBACK] and the error again. *)
Definition transaction {A} (callback : M Tables A) : M Tables A :=
  fun tb =>
    if pool tb then
      match callback tb with
      | (Ok a, tb') => (Ok a, tb')
      | (Throw e, _) => (Throw e, tb)
      end
    else (Throw "Database not connected", tb).

Section routes.

(** [crypto.createHash ('sha256').update (k).digest ('hex')],
    [bcrypt.hash (password, 12)] with the salt of this call,
    [bcrypt.compare (password, hash)] and [jwt.sign ({ userId, email },
    secret, options)]. *)
Variable sha256_hex : string -> string.
Variable bcrypt_hash : string -> string.
Variable bcrypt_compare : string -> string -> bool.
Variable jwt_sign : string -> string -> string -> string.

Definition hashApiKey (apiKey : string) : string := sha256_hex apiKey.

(** [router.post ('/register', ...)]. *)
Definition register (draws : Draws) (body : RegisterBody)
  : Tables -> RegisterResponse * Tables :=
  try_catch
    (if negb (truthy_string (body_email body))
        || negb (truthy_string (body_password body))
        || negb (truthy_string (body_name body)) then
       ret (RegisterError 400 "MISSING_FIELDS")
     else
       let email := default "" (body_email body) in
       let password := default "" (body_password body) in
       if (String.length password <? 8)%nat then
         ret (RegisterError 400 "WEAK_PASSWORD")
       else
         (existingUser <-
            queryOne_user (λ u, bool_decide (UserRow.email u = email)) ;;
          match existingUser with
          | Some _ => ret (RegisterError 400 "EMAIL_EXISTS")
          | None =>
              let passwordHash := bcrypt_hash password in
              result <-
                transaction
                  (user <- insert_user
                             {| UserRow.id := user_uuid draws;
                                UserRow.email := email;
                                UserRow.password_hash := Some passwordHash;
                                UserRow.name := body_name body;
                                UserRow.company :=
                                  if truthy_string (body_company body)
                                  then body_company body else None;
                                UserRow.plan := "free";
                                UserRow.is_active := true |} ;;
                   let apiKey := ApiKeys.generateApiKey (randomBytes draws) in
                   let keyHash := hashApiKey apiKey in
                   _ <- insert_api_key
                          {| ApiKeyRow.id := key_uuid draws;
                             ApiKeyRow.user_id := UserRow.id user;
                             ApiKeyRow.key_hash := keyHash;
                             ApiKeyRow.name := "Default API Key";
                             ApiKeyRow.is_active := true;
                             ApiKeyRow.rate_limit_tier := "free" |} ;;
                   ret (user, apiKey)) ;;
              ret (Created (public (fst result)) (snd result))
          end)%eff)
    (fun _ tb => (RegisterError 500 "REGISTRATION_ERROR", tb)).

(** [router.post ('/login', ...)]; [JWT_SECRET] is [process.env.JWT_SECRET]. *)
Definition login (JWT_SECRET : option string) (body : LoginBody)
  : Tables -> LoginResponse * Tables :=
  try_catch
    (if negb (truthy_string (login_email body))
        || negb (truthy_string (login_password body)) then
       ret (LoginError 400 "MISSING_CREDENTIALS")
     else
       let email := default "" (login_email body) in
       let password := default "" (login_password body) in
       (found <-
          queryOne_user (λ u, bool_decide (UserRow.email u = email)
                              && UserRow.is_active u) ;;
        match found with
        | None => ret (LoginError 401 "INVALID_CREDENTIALS")
        | Some user =>
            match UserRow.password_hash user with
            | None => throw "Illegal arguments: string, object"
            | Some stored =>
                if negb (bcrypt_compare password stored) then
                  ret (LoginError 401 "INVALID_CREDENTIALS")
                else if negb (truthy_string JWT_SECRET) then
                  throw "JWT_SECRET not configured"
                else
                  let token := jwt_sign (UserRow.id user) (UserRow.email user)
                                        (default "" JWT_SECRET) in
                  ret (LoggedIn token (public user))
            end
        end)%eff)
    (fun _ tb => (LoginError 500 "LOGIN_ERROR", tb)).

End routes.

(** The row and the key a successful registration adds. *)
Definition new_user (bcrypt_hash : string -> string) (draws : Draws)
    (body : RegisterBody) : UserRow.t :=
  {| UserRow.id := user_uuid draws;
     UserRow.email := default "" (body_email body);
     UserRow.password_hash := Some (bcrypt_hash (default "" (body_password body)));
     UserRow.name := body_name body;
     UserRow.company := if truthy_string (body_company body)
                        then body_company body else None;
     UserRow.plan := "free";
     UserRow.is_active := true |}.

Definition new_key (sha256_hex : string -> string) (draws : Draws) : ApiKeyRow.t :=
  {| ApiKeyRow.id := key_uuid draws;
     ApiKeyRow.user_id := user_uuid draws;
     ApiKeyRow.key_hash := sha256_hex (ApiKeys.generateApiKey (randomBytes draws));
     ApiKeyRow.name := "Default API Key";
     ApiKeyRow.is_active := true;
     ApiKeyRow.rate_limit_tier := "free" |}.

End Accounts.

(** ** [services/audioAnalysis.ts] ([src/unnamed/part_008]) *)

Module AudioAnalysis.

(** [Math.round (x)]: the integer nearest to [x], a tie going up. *)
Definition Math_round (x : Q) : Z := Qfloor (x + (1 # 2)).

(** [a > b] on numbers. *)
Definition gt (a b : Q) : bool := negb (Qle_bool a b).

(** *** [convertToCamelot] *)

(** The own properties of the object literal [camelotMap]. *)
Definition camelotMap : gmap string string :=
  list_to_map
    [ ("C major", "8B"); ("A minor", "8A");
      ("G major", "9B"); ("E minor", "9A");
      ("D major", "10B"); ("B minor", "10A");
      ("A major", "11B"); ("F# minor", "11A");
      ("E major", "12B"); ("C# minor", "12A");
      ("B major", "1B"); ("G# minor", "1A");
      ("F# major", "2B"); ("D# minor", "2A");
      ("C# major", "3B"); ("A# minor", "3A");
      ("G# major", "4B"); ("F minor", "4A");
      ("D# major", "5B"); ("C minor", "5A");
      ("A# major", "6B"); ("G minor", "6A");
      ("F major", "7B"); ("D minor", "7A") ].

(** What [camelotMap[key] || undefined] can be: a code of the table, or, as
    [camelotMap] is an object literal, the member of [Object.prototype] that
    an inherited name reaches (a function or object, not a string). *)
Inductive camelot_value : Type :=
| Code (code : string)
| Inherited (name : string).

(** [convertToCamelot (key)]; [None] is [undefined]. *)
Definition convertToCamelot (key : option string) : option camelot_value :=
  if negb (truthy_string key) then None
  else
    let k := default "" key in
    match camelotMap !! k with
    | Some code => if bool_decide (code = "") then None else Some (Code code)
    | None => if bool_decide (k ∈ RateLimit.Object_prototype)
              then Some (Inherited k) else None
    end.

(** *** [estimateBPMFromDuration] *)

Definition estimateBPMFromDuration (duration energy : Q) : option Z :=
  if Qle_bool 60 duration then
    if gt energy 0.7 then Some (Math_round (120 + (energy - 0.7) * 40))
    else if gt energy 0.4 then Some (Math_round (100 + energy * 40))
    else Some (Math_round (80 + energy * 40))
  else None.

(** *** [calculateEnergyLevel] *)

Record EnergyOptions : Type :=
  { bpm : option Q; loudness : option Q; tempo : option Q }.

Definition calculateEnergyLevel (options : EnergyOptions) : Q :=
  let energy := 0.5%Q in
  let energy :=
    if truthy_number (bpm options) then
      let b := default 0%Q (bpm options) in
      if gt b 140 then (energy + 0.3)%Q
      else if gt b 120 then (energy + 0.2)%Q
      else if gt b 100 then (energy + 0.1)%Q
      else (energy - 0.1)%Q
    else energy in
  let energy :=
    match loudness options with
    | Some l =>
        let loudnessNormalized := Qmax 0 (Qmin 1 ((l + 30) / 20)) in
        (energy + (loudnessNormalized - 0.5) * 0.4)%Q
    | None => energy
    end in
  Qmax 0 (Qmin 1 energy).

(** *** [analyzeFromUrl] *)

(** The three analyses that run on a URL, each with the outcome of its
    promise: [analyzeWithAudD] and [basicAudioAnalysis] resolve to a partial
    [AudioAnalysisResult], [generateWaveform] to the peaks. *)
Record Analyzers : Type :=
  { analyzeWithAudD : string -> result AudioAnalysisResult.t;
    basicAudioAnalysis : string -> result AudioAnalysisResult.t;
    generateWaveform : string -> result (list Q) }.

(** The object [{}]. *)
Definition empty_result : AudioAnalysisResult.t :=
  {| AudioAnalysisResult.bpm := None;
     AudioAnalysisResult.musicalKey := None;
     AudioAnalysisResult.camelotKey := None;
     AudioAnalysisResult.energyLevel := None;
     AudioAnalysisResult.loudness := None;
     AudioAnalysisResult.tempoConfidence := None;
     AudioAnalysisResult.keyConfidence := None;
     AudioAnalysisResult.waveformPeaks := None;
     AudioAnalysisResult.genre := None;
     AudioAnalysisResult.mood := None |}.

(** The statements between [Promise.allSettled] and the cache write, from the
    three settled promises. *)
Definition combine (auddResult basicAnalysis : result AudioAnalysisResult.t)
    (waveformData : result (list Q)) : AudioAnalysisResult.t :=
  (* Object.assign (result, auddResult.value) on the empty object *)
  let result := match auddResult with
                | Ok value => value
                | Throw _ => empty_result
                end in
  let bpm :=
    match basicAnalysis with
    | Ok value =>
        if negb (truthy_number (AudioAnalysisResult.bpm result))
           && truthy_number (AudioAnalysisResult.bpm value)
        then AudioAnalysisResult.bpm value
        else AudioAnalysisResult.bpm result
    | Throw _ => AudioAnalysisResult.bpm result
    end in
  let energyLevel :=
    match basicAnalysis with
    | Ok value =>
        if negb (truthy_number (AudioAnalysisResult.energyLevel result))
           && truthy_number (AudioAnalysisResult.energyLevel value)
        then AudioAnalysisResult.energyLevel value
        else AudioAnalysisResult.energyLevel result
    | Throw _ => AudioAnalysisResult.energyLevel result
    end in
  let waveformPeaks :=
    match waveformData with
    | Ok value => Some value
    | Throw _ => AudioAnalysisResult.waveformPeaks result
    end in
  {| AudioAnalysisResult.bpm := bpm;
     AudioAnalysisResult.musicalKey := AudioAnalysisResult.musicalKey result;
     AudioAnalysisResult.camelotKey := AudioAnalysisResult.camelotKey result;
     AudioAnalysisResult.energyLevel := energyLevel;
     AudioAnalysisResult.loudness := AudioAnalysisResult.loudness result;
     AudioAnalysisResult.tempoConfidence :=
       Some (if truthy_number bpm then 0.8%Q else 0%Q);
     AudioAnalysisResult.keyConfidence :=
       Some (if truthy_string (AudioAnalysisResult.musicalKey result)
             then 0.7%Q else 0%Q);
     AudioAnalysisResult.waveformPeaks := waveformPeaks;
     AudioAnalysisResult.genre := AudioAnalysisResult.genre result;
     AudioAnalysisResult.mood := AudioAnalysisResult.mood result |}.

(** [try { body } catch (error) { throw new Error (msg) }]. *)
Definition rethrow_as {S A} (msg : string) (body : M S A) : M S A :=
  fun s => match body s with
           | (Ok a, s') => (Ok a, s')
           | (Throw _, s') => (Throw msg, s')
           end.

Section service.

(** [Buffer.from (audioUrl).toString ('base64')]. *)
Variable base64 : string -> string.
Variable analyzers : Analyzers.

Definition cacheKey (audioUrl : string) : string :=
  "audio:analysis:" +:+ base64 audioUrl.

Definition analyzeFromUrl (now : Z) (audioUrl : string)
  : M (JsonStore.t AudioAnalysisResult.t) AudioAnalysisResult.t :=
  (cached <- JsonStore.getJson now (cacheKey audioUrl) ;;
   match cached with
   | Some hit => ret hit
   | None =>
       rethrow_as "Failed to analyze audio"
         (let result := combine (analyzeWithAudD analyzers audioUrl)
                                (basicAudioAnalysis analyzers audioUrl)
                                (generateWaveform analyzers audioUrl) in
          _ <- JsonStore.setJson now (cacheKey audioUrl) result (Some 86400) ;;
          ret result)
   end)%eff.

End service.

(** Names of the twelve pitch classes as the table spells them, from C
    upwards by semitones, and the position on the Camelot wheel that the
    circle of fifths gives the major key on pitch class [p]: 8 for C, one
    more for each fifth upwards. *)
Definition pitch_names : list string :=
  [ "C"; "C#"; "D"; "D#"; "E"; "F"; "F#"; "G"; "G#"; "A"; "A#"; "B" ].

Definition wheel_position (p : nat) : Z := (7 * Z.of_nat p + 7) mod 12 + 1.

End AudioAnalysis.

(** ** [services/youtube.ts] ([src/unnamed/part_007]): [validateAndExtractId]
       and [getDownloadUrl] *)

Module YouTube.

(** The character class [[a-zA-Z0-9_-]]. *)
Definition id_char (c : ascii) : bool :=
  let n := nat_of_ascii c in
  ((97 <=? n) && (n <=? 122) || (65 <=? n) && (n <=? 90)
   || (48 <=? n) && (n <=? 57) || (n =? 95) || (n =? 45))%nat.

(** The text after the first [n] characters. *)
Definition skip (n : nat) (s : string) : string :=
  String.substring n (String.length s - n) s.

(** One alternative of the first pattern at the start of [s]: the literal
    text, then exactly 11 characters of the class, which are the group. *)
Definition alternative (literal s : string) : option string :=
  if String.prefix literal s then
    let group := String.substring 0 11 (skip (String.length literal) s) in
    if (String.length group =? 11)%nat
       && forallb id_char (list_ascii_of_string group)
    then Some group else None
  else None.

(** [(?:youtube\.com\/watch\?v=|youtu\.be\/|youtube\.com\/embed\/)
    ([a-zA-Z0-9_-]{11})] at the start of [s], the alternatives in order. *)
Definition match_here (s : string) : option string :=
  match alternative "youtube.com/watch?v=" s with
  | Some group => Some group
  | None =>
      match alternative "youtu.be/" s with
      | Some group => Some group
      | None => alternative "youtube.com/embed/" s
      end
  end.

(** [url.match (pattern)] for the first pattern, which is not anchored: the
    leftmost position at which it matches. *)
Fixpoint search (s : string) : option string :=
  match match_here s with
  | Some group => Some group
  | None =>
      match s with
      | EmptyString => None
      | String _ rest => search rest
      end
  end.

(** [validateAndExtractId (url)]; [None] is [null].  The second pattern,
    [^[a-zA-Z0-9_-]{11}$], has no group: [match[1] || match[0]] is the whole
    match. *)
Definition validateAndExtractId (url : string) : option string :=
  match search url with
  | Some group => Some group
  | None =>
      if (String.length url =? 11)%nat
         && forallb id_char (list_ascii_of_string url)
      then Some url else None
  end.

(** An audio-only format of [ytdl.getInfo]. *)
Record AudioFormat : Type :=
  { url : string; container : option string; audioBitrate : option Z }.

(** [parseInt (f.audioBitrate?.toString () || '0', 10)]. *)
Definition bitrate (f : AudioFormat) : Z := default 0 (audioBitrate f).

(** [audioFormats.reduce ((best, format) => ...)] without an initial value:
    a [TypeError] on the empty array. *)
Definition highest (audioFormats : list AudioFormat) : result AudioFormat :=
  match audioFormats with
  | [] => Throw "TypeError: Reduce of empty array with no initial value"
  | first :: rest =>
      Ok (foldl (λ best format,
                   if bitrate best <? bitrate format then format else best)
                first rest)
  end.

(** [audioFormats.find (format => format.audioBitrate &&
    format.audioBitrate >= 128) || audioFormats[0]]; [None] is [undefined]. *)
Definition standard_or_first (audioFormats : list AudioFormat) : option AudioFormat :=
  match List.find (λ format,
                     match audioBitrate format with
                     | Some b => negb (b =? 0) && (128 <=? b)
                     | None => false
                     end) audioFormats with
  | Some format => Some format
  | None => head audioFormats
  end.

Record DownloadInfo : Type :=
  { download_url : string; format : string; quality : string }.

Definition info_of (selectedFormat : AudioFormat) : DownloadInfo :=
  {| download_url := url selectedFormat;
     format := if truthy_string (container selectedFormat)
               then default "" (container selectedFormat) else "webm";
     quality := match audioBitrate selectedFormat with
                | Some b => pretty b
                | None => "unknown"
                end |}.

Definition quality_name (quality : Pipeline.Quality) : string :=
  match quality with
  | Pipeline.standard => "standard"
  | Pipeline.high => "high"
  end.

Section service.

(** [ytdl.filterFormats ((await ytdl.getInfo (videoUrl)).formats,
    'audioonly')], from the video id. *)
Variable audio_formats : string -> result (list AudioFormat).

Definition getDownloadUrl (now : Z) (videoId : string) (quality : Pipeline.Quality)
  : M (JsonStore.t DownloadInfo) DownloadInfo :=
  let cacheKey := "youtube:download:" +:+ videoId +:+ ":" +:+ quality_name quality in
  (cached <- JsonStore.getJson now cacheKey ;;
   match cached with
   | Some hit => ret hit
   | None =>
       AudioAnalysis.rethrow_as "Failed to get download URL"
         (audioFormats <- Pipeline.lift (audio_formats videoId) ;;
          selectedFormat <-
            match quality with
            | Pipeline.high => Pipeline.lift (highest audioFormats)
            | Pipeline.standard =>
                match standard_or_first audioFormats with
                | Some format => ret format
                | None => throw "No suitable audio format found"
                end
            end ;;
          let result := info_of selectedFormat in
          _ <- JsonStore.setJson now cacheKey result (Some 1800) ;;
          ret result)
   end)%eff.

End service.

End YouTube.

(** ** The endpoint [analyzeAudio] of [controllers/musicController.ts] *)

Module Analyze.

Record AnalyzeRequest : Type :=
  { youtubeUrl : option string;
    audioUrl : option string;
    analysisType : option (list string) }.

(** The object [filteredAnalysis]; an absent property is [None]. *)
Record Filtered : Type :=
  { bpm : option Q;
    musicalKey : option string;
    camelotKey : option string;
    energyLevel : option Q;
    waveformPeaks : option (list Q) }.

Inductive Response : Type :=
| Analyzed (data : Filtered)
| Failure (status : Z) (code : string).

Definition includes (x : string) (l : list string) : bool := bool_decide (x ∈ l).

Definition filter_analysis (analysisType : list string)
    (analysis : AudioAnalysisResult.t) : Filtered :=
  {| bpm := if includes "bpm" analysisType
               && truthy_number (AudioAnalysisResult.bpm analysis)
            then AudioAnalysisResult.bpm analysis else None;
     musicalKey := if includes "key" analysisType
                      && truthy_string (AudioAnalysisResult.musicalKey analysis)
                   then AudioAnalysisResult.musicalKey analysis else None;
     camelotKey := if includes "key" analysisType
                      && truthy_string (AudioAnalysisResult.musicalKey analysis)
                   then AudioAnalysisResult.camelotKey analysis else None;
     energyLevel := if includes "energy" analysisType
                    then AudioAnalysisResult.energyLevel analysis else None;
     waveformPeaks := if includes "waveform" analysisType
                      then AudioAnalysisResult.waveformPeaks analysis else None |}.

Section endpoint.

Variable env : Pipeline.Collaborators.

(** The [try] block; the services are those of the pipeline, the quality of
    [getDownloadUrl] its default. *)
Definition analyze (body : AnalyzeRequest) : result Response :=
  let analysisType := default ["bpm"; "key"; "energy"; "waveform"] (analysisType body) in
  let resolved :=
    if truthy_string (youtubeUrl body) && negb (truthy_string (audioUrl body)) then
      match YouTube.validateAndExtractId (default "" (youtubeUrl body)) with
      | None => Ok (inl (Failure 400 "INVALID_YOUTUBE_URL"))
      | Some videoId =>
          match Pipeline.getDownloadUrl env videoId Pipeline.standard with
          | Ok url => Ok (inr (Some url))
          | Throw e => Throw e
          end
      end
    else Ok (inr (audioUrl body)) in
  match resolved with
  | Throw e => Throw e
  | Ok (inl response) => Ok response
  | Ok (inr analysisUrl) =>
      if negb (truthy_string analysisUrl) then
        Ok (Failure 400 "MISSING_AUDIO_SOURCE")
      else
        match Pipeline.analyzeFromUrl env (default "" analysisUrl) with
        | Ok analysis => Ok (Analyzed (filter_analysis analysisType analysis))
        | Throw e => Throw e
        end
  end.

Definition analyzeAudio (body : AnalyzeRequest) : Response :=
  match analyze body with
  | Ok response => response
  | Throw _ => Failure 500 "ANALYSIS_ERROR"
  end.

End endpoint.

End Analyze.

(** ** [middleware/errorHandler.ts] *)

Module ErrorHandler.

(** What the handler reads of the error it is given. *)
Record Error : Type :=
  { name : option string;
    code : option string;
    message : option string;
    stack : option string }.

(** The [error] object of the answer; an absent property is [None]. *)
Record Answer : Type :=
  { statusCode : Z;
    errorCode : string;
    errorMessage : option string;
    answer_stack : option string }.

(** [s.includes (needle)]. *)
Definition includes (needle s : string) : bool :=
  match String.index 0 needle s with
  | Some _ => true
  | None => false
  end.

(** [isProduction] is [process.env.NODE_ENV === 'production']. *)
Definition errorHandler (isProduction : bool) (error : Error) : Answer :=
  let '(statusCode, errorCode, errorMessage) :=
    if bool_decide (name error = Some "ValidationError") then
      (400, "VALIDATION_ERROR", message error)
    else if bool_decide (name error = Some "UnauthorizedError") then
      (401, "UNAUTHORIZED", Some "Authentication failed")
    else if bool_decide (code error = Some "ENOTFOUND")
            || bool_decide (code error = Some "ECONNREFUSED") then
      (503, "SERVICE_UNAVAILABLE", Some "External service unavailable")
    else if match message error with
            | Some m => includes "rate limit" m
            | None => false
            end then
      (429, "RATE_LIMIT_EXCEEDED", message error)
    else if negb isProduction then
      (500, "INTERNAL_ERROR", message error)
    else
      (500, "INTERNAL_ERROR", Some "An internal error occurred") in
  {| statusCode := statusCode;
     errorCode := errorCode;
     errorMessage := errorMessage;
     answer_stack := if isProduction then None else stack error |}.

End ErrorHandler.

(** * Part II: theorems *)

(** ** The Redis wrapper *)

Module RedisFacts.

Lemma live_before now e wend :
  now < wend →
  match Redis.expire_at e with Some d => wend ≤ d | None => True end →
  Redis.live now e = true.
Proof.
  unfold Redis.live. destruct (Redis.expire_at e); [|done].
  intros. apply Z.ltb_lt. lia.
Qed.

Lemma get_connected now key r :
  Redis.client r = true → Redis.get now key r = (Ok (Redis.read now key r), r).
Proof. unfold Redis.get. by intros ->. Qed.

Lemma incr_absent now key r :
  Redis.client r = true → Redis.data r !! key = None →
  Redis.incr now key r =
    (Ok 1, Redis.State true (<[key := Redis.Entry 1 None]> (Redis.data r))).
Proof. unfold Redis.incr. by intros -> ->. Qed.

Lemma incr_live now key r e :
  Redis.client r = true → Redis.data r !! key = Some e → Redis.live now e = true →
  Redis.incr now key r =
    (Ok (Redis.value e + 1),
     Redis.State true
       (<[key := Redis.Entry (Redis.value e + 1) (Redis.expire_at e)]> (Redis.data r))).
Proof. unfold Redis.incr. by intros -> -> ->. Qed.

Lemma expire_live now key seconds r e :
  Redis.client r = true → Redis.data r !! key = Some e → Redis.live now e = true →
  Redis.expire now key seconds r =
    (Ok tt,
     Redis.State true
       (<[key := Redis.Entry (Redis.value e) (Some (now + seconds * 1000))]> (Redis.data r))).
Proof. unfold Redis.expire. by intros -> -> ->. Qed.

(** [INCR] on a connected client: the counter read back is one more, and no
    other key changes. *)
Lemma incr_connected now key r :
  Redis.client r = true →
  ∃ v r', Redis.incr now key r = (Ok v, r') ∧ Redis.client r' = true
    ∧ Redis.read now key r' = Some (default 0 (Redis.read now key r) + 1)
    ∧ ∀ key', key' ≠ key → Redis.data r' !! key' = Redis.data r !! key'.
Proof.
  intros Hc. unfold Redis.incr, Redis.read. rewrite Hc.
  eexists _, _. split; [reflexivity|]. cbn [Redis.client Redis.data]. split; [done|].
  split; [|intros; by rewrite lookup_insert_ne].
  rewrite lookup_insert_eq.
  destruct (Redis.data r !! key) as [e|]; [|done].
  destruct (Redis.live now e) eqn:Hl; [|done].
  unfold Redis.live in *. cbn [Redis.expire_at Redis.value]. by rewrite Hl.
Qed.

(** [EXPIRE] with a positive TTL leaves every value as it is. *)
Lemma expire_connected now key seconds r :
  Redis.client r = true → 0 < seconds →
  ∃ r', Redis.expire now key seconds r = (Ok tt, r') ∧ Redis.client r' = true
    ∧ Redis.read now key r' = Redis.read now key r
    ∧ ∀ key', key' ≠ key → Redis.data r' !! key' = Redis.data r !! key'.
Proof.
  intros Hc Hs. unfold Redis.expire, Redis.read. rewrite Hc.
  destruct (Redis.data r !! key) as [e|] eqn:Hk; [|by eexists; rewrite Hk].
  destruct (Redis.live now e) eqn:Hl; [|by eexists; rewrite Hk, Hl].
  eexists. split; [reflexivity|]. cbn [Redis.client Redis.data]. split; [done|].
  split; [|intros; by rewrite lookup_insert_ne].
  rewrite lookup_insert_eq. unfold Redis.live. cbn [Redis.expire_at Redis.value].
  assert ((now <? now + seconds * 1000) = true) as -> by (apply Z.ltb_lt; lia). done.
Qed.

End RedisFacts.

(** ** The rate limiter *)

Module RateLimitFacts.

Import RateLimit RedisFacts.

Lemma rate_key_inj uid : Inj (=) (=) (rate_key uid).
Proof.
  intros w1 w2 H. unfold rate_key in H.
  repeat (apply (inj (String.append _)) in H).
  by apply (inj pretty) in H.
Qed.

Lemma Math_ceil_div_ge (a : Z) : a ≤ Math_ceil_div a 1000 * 1000.
Proof.
  unfold Math_ceil_div.
  pose proof (Z.div_mod (- a) 1000 ltac:(lia)).
  pose proof (Z.mod_pos_bound (- a) 1000 ltac:(lia)). lia.
Qed.

Lemma counter_at_read r key c wend now :
  now < wend → counter_at r key c wend → default 0 (Redis.read now key r) = c.
Proof.
  intros Hnow [[-> Hk] | (e & Hk & Hv & Hc & He)]; unfold Redis.read; rewrite Hk; [done|].
  by rewrite (live_before now e wend).
Qed.

(** The limits a plan can select from the table: one of the five rows. *)
Lemma select_limits_cases p l :
  select_limits p = Config l → l ∈ [free; starter; pro; scale; enterprise].
Proof.
  unfold select_limits, RATE_LIMITS_get.
  destruct (RATE_LIMITS !! p) as [l'|] eqn:Hp.
  - intros [= <-]. apply elem_of_list_to_map_2 in Hp.
    repeat (apply elem_of_cons in Hp as [[= _ <-] | Hp]; [set_solver|]).
    by apply elem_of_nil in Hp.
  - case_bool_decide; [done|]. intros [= <-]. set_solver.
Qed.

Lemma select_limits_window p l : select_limits p = Config l → windowMs l = 3600000.
Proof.
  intros H%select_limits_cases.
  repeat (apply elem_of_cons in H as [-> | H]; [done|]). by apply elem_of_nil in H.
Qed.

(** A plan name that is neither a row of the table nor a member of
    [Object.prototype] selects the free limits. *)
Lemma select_limits_fallback p :
  p ∉ ["free"; "starter"; "pro"; "scale"; "enterprise"] →
  p ∉ Object_prototype →
  select_limits p = Config free.
Proof.
  intros Hown Hproto. unfold select_limits, RATE_LIMITS_get.
  destruct (RATE_LIMITS !! p) as [l|] eqn:Hp.
  - exfalso. apply Hown. apply elem_of_list_to_map_2 in Hp.
    repeat (apply elem_of_cons in Hp as [[= -> _] | Hp]; [set_solver|]).
    by apply elem_of_nil in Hp.
  - by rewrite bool_decide_eq_false_2.
Qed.

(** What one check does, for a plan whose limits come from the table and any
    connected store. *)
Lemma check_config now u k l r :
  select_limits (plan u) = Config l → Redis.client r = true →
  let key := rate_key (id u) (window_start now l) in
  let requestCount := default 0 (Redis.read now key r) in
  let info := {| limit := requests l;
                 remaining := Z.max 0 (requests l - requestCount - 1);
                 resetTime := window_start now l + windowMs l |} in
  if requests l <=? requestCount then
    rateLimitMiddleware now {| user := Some u; apiKey := Some k |} r =
      (Json 429 "RATE_LIMIT_EXCEEDED" (exceeded_message l (plan u))
            (Some (requests l)) (Some info), r)
  else
    ∃ r', rateLimitMiddleware now {| user := Some u; apiKey := Some k |} r =
            (Next (Some info), r')
      ∧ Redis.read now key r' = Some (requestCount + 1)
      ∧ ∀ key', key' ≠ key → Redis.data r' !! key' = Redis.data r !! key'.
Proof.
  intros Hsel Hc key requestCount info.
  pose proof (select_limits_window _ _ Hsel) as Hw.
  unfold rateLimitMiddleware, try_catch, check; cbn [user apiKey].
  rewrite Hsel. fold key. unfold bind. rewrite get_connected by done.
  fold requestCount. fold info.
  destruct (requests l <=? requestCount) eqn:Hle; [done|].
  destruct (incr_connected now key r Hc) as (v & r1 & -> & Hc1 & Hr1 & Hf1).
  destruct (requestCount =? 0).
  - destruct (expire_connected now key (Math_ceil_div (windowMs l) 1000) r1 Hc1)
      as (r2 & -> & Hc2 & Hr2 & Hf2).
    { rewrite Hw. done. }
    exists r2. split; [done|]. split; [by rewrite Hr2|].
    intros key' Hne. rewrite Hf2 by done. by apply Hf1.
  - exists r1. by repeat split.
Qed.

Section one_subject.
Variables (u : User) (k : ApiKey) (l : Limits).
Hypothesis Hsel : select_limits (plan u) = Config l.
Hypothesis Hw : 0 < windowMs l.

Lemma window_bounds now :
  window_start now l ≤ now < window_start now l + windowMs l.
Proof.
  unfold window_start.
  pose proof (Z.div_mod now (windowMs l) ltac:(lia)).
  pose proof (Z.mod_pos_bound now (windowMs l) Hw). lia.
Qed.

Lemma check_denied now r c :
  Redis.client r = true →
  default 0 (Redis.read now (rate_key (id u) (window_start now l)) r) = c →
  requests l ≤ c →
  rateLimitMiddleware now {| user := Some u; apiKey := Some k |} r =
    (Json 429 "RATE_LIMIT_EXCEEDED" (exceeded_message l (plan u)) (Some (requests l))
       (Some {| limit := requests l; remaining := Z.max 0 (requests l - c - 1);
                resetTime := window_start now l + windowMs l |}), r).
Proof.
  intros Hc Hr Hle. unfold rateLimitMiddleware, try_catch, check; cbn [user apiKey].
  rewrite Hsel. unfold bind. rewrite get_connected by done. rewrite Hr.
  assert ((requests l <=? c) = true) as -> by (apply Z.leb_le; lia). done.
Qed.

Lemma check_allowed now r c :
  Redis.client r = true →
  counter_at r (rate_key (id u) (window_start now l)) c (window_start now l + windowMs l) →
  c < requests l →
  ∃ r', rateLimitMiddleware now {| user := Some u; apiKey := Some k |} r =
          (Next (Some {| limit := requests l; remaining := Z.max 0 (requests l - c - 1);
                         resetTime := window_start now l + windowMs l |}), r')
        ∧ Redis.client r' = true
        ∧ counter_at r' (rate_key (id u) (window_start now l)) (c + 1)
                     (window_start now l + windowMs l)
        ∧ ∀ key', key' ≠ rate_key (id u) (window_start now l) →
                  Redis.data r' !! key' = Redis.data r !! key'.
Proof.
  intros Hc Hinv Hlt.
  pose proof (window_bounds now) as [Hlo Hnow].
  pose proof (counter_at_read _ _ _ _ _ Hnow Hinv) as Hr.
  unfold rateLimitMiddleware, try_catch, check; cbn [user apiKey].
  rewrite Hsel. unfold bind. rewrite get_connected by done. rewrite Hr.
  assert ((requests l <=? c) = false) as -> by (apply Z.leb_gt; lia).
  destruct Hinv as [[-> Hk] | (e & Hk & Hv & Hpos & He)].
  - rewrite incr_absent by done. change (0 =? 0) with true. cbv iota.
    erewrite expire_live; [| done | apply lookup_insert_eq | done].
    eexists; split; [reflexivity|]. cbn [Redis.client Redis.data Redis.value].
    split; [done|]. split.
    + right. eexists. split; [apply lookup_insert_eq|]. cbn [Redis.value Redis.expire_at].
      split; [done|]. split; [lia|].
      pose proof (Math_ceil_div_ge (windowMs l)). lia.
    + intros key' Hne. by rewrite !lookup_insert_ne.
  - pose proof (live_before now e _ Hnow He) as Hlive.
    rewrite (incr_live now _ r e) by done.
    assert ((c =? 0) = false) as -> by (apply Z.eqb_neq; lia).
    eexists; split; [reflexivity|]. cbn [Redis.client Redis.data]. split; [done|]. split.
    + right. eexists. split; [apply lookup_insert_eq|]. cbn [Redis.value Redis.expire_at].
      split; [lia|]. split; [lia|done].
    + intros key' Hne. by rewrite lookup_insert_ne.
Qed.

(** Requests issued inside one window while quota remains are all let
    through, and the counter of that window counts them. *)
Lemma run_within_quota (w : Z) (times : list Z) : ∀ r c,
  Redis.client r = true →
  Forall (λ t, t / windowMs l = w) times →
  counter_at r (rate_key (id u) (w * windowMs l)) c (w * windowMs l + windowMs l) →
  c + Z.of_nat (length times) ≤ requests l →
  ∃ os r', run {| user := Some u; apiKey := Some k |} times r = (os, r')
    ∧ length os = length times
    ∧ Forall (λ o, ∃ i, o = Next (Some i)) os
    ∧ Redis.client r' = true
    ∧ counter_at r' (rate_key (id u) (w * windowMs l)) (c + Z.of_nat (length times))
                 (w * windowMs l + windowMs l)
    ∧ ∀ key', key' ≠ rate_key (id u) (w * windowMs l) →
              Redis.data r' !! key' = Redis.data r !! key'.
Proof.
  induction times as [|t times IH]; intros r c Hc Hall Hinv Hq.
  - exists [], r. simpl. rewrite Z.add_0_r. by repeat split.
  - apply Forall_cons in Hall as [Ht Hall].
    assert (Hws : window_start t l = w * windowMs l).
    { unfold window_start. by rewrite Ht. }
    rewrite <- Hws in Hinv.
    destruct (check_allowed t r c Hc Hinv) as (r1 & Hstep & Hc1 & Hinv1 & Hfr1).
    { simpl in Hq. lia. }
    rewrite Hws in Hinv1, Hfr1.
    destruct (IH r1 (c + 1) Hc1 Hall Hinv1)
      as (os & r2 & Hrun & Hlen & Hos & Hc2 & Hinv2 & Hfr2).
    { simpl in Hq. lia. }
    eexists _, r2. cbn [run]. rewrite Hstep, Hrun. split; [reflexivity|].
    split; [simpl; lia|]. split; [constructor; eauto|]. split; [done|]. split.
    + replace (c + Z.of_nat (length (t :: times)))
        with (c + 1 + Z.of_nat (length times)) by (simpl; lia).
      done.
    + intros key' Hne. rewrite Hfr2 by done. by apply Hfr1.
Qed.

End one_subject.

Lemma run_app req ts1 ts2 r :
  run req (ts1 ++ ts2) r =
    let '(os1, r1) := run req ts1 r in
    let '(os2, r2) := run req ts2 r1 in
    (os1 ++ os2, r2).
Proof.
  revert r. induction ts1 as [|t ts1 IH]; intros r; cbn [run app].
  - by destruct (run req ts2 r).
  - destruct (rateLimitMiddleware t req r) as [o r1]. rewrite IH.
    destruct (run req ts1 r1) as [os1 r2]. by destruct (run req ts2 r2).
Qed.

(** *** One counter, one window *)

(** C1 (as amended).  For every subject whose plan selects its limits from the
    table, a check on a connected store reads one counter, the one of the
    plan's single one-hour window, and lets the request through if and only if
    that counter, counting this request, stays within [requests]; a refusal is
    the 429 answer that names the hourly limit of the plan; no key other than
    that one counter changes.  There is no burst window. *)
Theorem single_window_allow_iff now u k l r :
  select_limits (plan u) = Config l →
  Redis.client r = true →
  let key := rate_key (id u) (window_start now l) in
  let requestCount := default 0 (Redis.read now key r) in
  let res := rateLimitMiddleware now {| user := Some u; apiKey := Some k |} r in
  (allowed (fst res) = true ↔ requestCount + 1 ≤ requests l)
  ∧ (allowed (fst res) = false →
     fst res =
       Json 429 "RATE_LIMIT_EXCEEDED" (exceeded_message l (plan u))
            (Some (requests l))
            (Some {| limit := requests l;
                     remaining := Z.max 0 (requests l - requestCount - 1);
                     resetTime := window_start now l + windowMs l |}))
  ∧ (∀ key', key' ≠ key → Redis.data (snd res) !! key' = Redis.data r !! key').
Proof.
  intros Hsel Hc key requestCount res.
  pose proof (check_config now u k l r Hsel Hc) as H. cbv zeta in H.
  fold key requestCount in H. subst res.
  destruct (requests l <=? requestCount) eqn:Hle.
  - rewrite H. cbn [fst snd allowed]. apply Z.leb_le in Hle.
    split; [split; [done | lia]|]. by split.
  - destruct H as (r' & -> & _ & Hframe). cbn [fst snd allowed].
    apply Z.leb_gt in Hle. split; [split; [lia | done]|]. by split.
Qed.

Lemma single_window_allow_iff_witness :
  let u := {| id := "S"; plan := "free" |} in
  let r := Redis.State true {[ rate_key "S" 0 := Redis.Entry 100 (Some 3600000) ]} in
  let res := rateLimitMiddleware 5 {| user := Some u; apiKey := Some {| key_id := "K" |} |} r in
  (allowed (fst res) = true ↔ 100 + 1 ≤ 100)
  ∧ (allowed (fst res) = false →
     fst res =
       Json 429 "RATE_LIMIT_EXCEEDED" (exceeded_message free "free") (Some 100)
            (Some {| limit := 100; remaining := 0; resetTime := 3600000 |}))
  ∧ (∀ key', key' ≠ rate_key "S" 0 → Redis.data (snd res) !! key' = Redis.data r !! key').
Proof.
  exact (single_window_allow_iff 5 {| id := "S"; plan := "free" |} {| key_id := "K" |} free
           (Redis.State true {[ rate_key "S" 0 := Redis.Entry 100 (Some 3600000) ]})
           eq_refl eq_refl).
Defined.

(** C1, as stated, fails.  One hundred requests of a free-plan subject in a
    single instant are all let through and leave one counter behind, although
    for every burst limit [b] below the sustained limit of 100 the dual-window
    rule of the specification refuses request [b + 1] of them for its burst
    quota. *)
Lemma dual_window_counterexample :
  let req := {| user := Some {| id := "S"; plan := "free" |};
                apiKey := Some {| key_id := "K" |} |} in
  let res := run req (replicate 100 0) (Redis.State true ∅) in
  Forall (λ o, allowed o = true) (fst res)
  ∧ length (fst res) = 100%nat
  ∧ map_to_list (Redis.data (snd res))
    = [ (rate_key "S" 0, Redis.Entry 100 (Some 3600000)) ]
  ∧ Forall (λ b, DualWindowSpec.verdict
                   {| DualWindowSpec.sustainedLimit := 100;
                      DualWindowSpec.sustainedWindow := 3600000;
                      DualWindowSpec.burstLimit := b;
                      DualWindowSpec.burstWindow := 60000 |}
                   (b + 1) (b + 1) = DualWindowSpec.DenyBurst)
           (seqZ 0 100).
Proof.
  cbv zeta. split; [|split; [|split]].
  - vm_compute. repeat constructor.
  - vm_compute. reflexivity.
  - vm_compute. reflexivity.
  - vm_compute. repeat constructor.
Qed.

(** *** Refused requests are not counted *)

(** C3 (as amended).  A check writes to the store only when it lets the
    request through: every answer other than [next()] (the 429 refusal, the
    401) leaves the store exactly as it was, so the counter of a refused
    request is not incremented; a request let through with its rate-limit
    information attached has incremented the counter of its window by one. *)
Theorem check_counts_only_allowed now req r :
  match rateLimitMiddleware now req r with
  | (Json _ _ _ _ _, r') => r' = r
  | (Next (Some _), r') =>
      ∃ u l, user req = Some u ∧ select_limits (plan u) = Config l
        ∧ Redis.read now (rate_key (id u) (window_start now l)) r'
          = Some (default 0 (Redis.read now (rate_key (id u) (window_start now l)) r) + 1)
  | (Next None, _) => True
  end.
Proof.
  destruct req as [[u|] [k|]]; try done.
  destruct (select_limits (plan u)) as [l|] eqn:Hsel.
  - destruct (Redis.client r) eqn:Hc.
    + pose proof (check_config now u k l r Hsel Hc) as H. cbv zeta in H.
      destruct (requests l <=? _).
      * by rewrite H.
      * destruct H as (r' & -> & Hr & _). eauto.
    + unfold rateLimitMiddleware, try_catch, check; cbn [user apiKey].
      rewrite Hsel. unfold bind, Redis.get. by rewrite Hc.
  - unfold rateLimitMiddleware, try_catch, check; cbn [user apiKey].
    rewrite Hsel. unfold bind, throw.
    destruct (Redis.client r) eqn:Hc.
    + rewrite get_connected by done.
      destruct (incr_connected now (rate_key_NaN (id u)) r Hc) as (v & r1 & -> & _).
      by destruct (default 0 _ =? 0).
    + unfold Redis.get. by rewrite Hc.
Qed.

(** C3, as stated, fails.  A free-plan subject whose counter stands at 100 is
    refused, and the counter read back after the refusal is still 100. *)
Lemma denied_check_counterexample :
  let req := {| user := Some {| id := "S"; plan := "free" |};
                apiKey := Some {| key_id := "K" |} |} in
  let r := Redis.State true {[ rate_key "S" 0 := Redis.Entry 100 (Some 3600000) ]} in
  let res := rateLimitMiddleware 5 req r in
  Redis.read 5 (rate_key "S" 0) r = Some 100
  ∧ fst res = Json 429 "RATE_LIMIT_EXCEEDED"
                   "Rate limit exceeded. You are limited to 100 requests per hour on the free plan."
                   (Some 100)
                   (Some {| limit := 100; remaining := 0; resetTime := 3600000 |})
  ∧ Redis.read 5 (rate_key "S" 0) (snd res) = Some 100.
Proof. cbv zeta. by vm_compute. Qed.

(** *** Window rollover *)

(** C4.  A subject on the starter plan, starting from a store that holds no
    counter for the window [w] nor for the window after it: 1000 checks whose
    instants fall in window [w] are all let through, a further check in that
    window is refused with 429, and a check in window [w + 1] is let through
    with 999 remaining and a counter that stands at 1. *)
Theorem starter_window_rollover uid k (r : Redis.t) (ts : list Z) (t1001 tnext w : Z) :
  let req := {| user := Some {| id := uid; plan := "starter" |}; apiKey := Some k |} in
  Redis.client r = true →
  Redis.data r !! rate_key uid (w * 3600000) = None →
  Redis.data r !! rate_key uid ((w + 1) * 3600000) = None →
  length ts = 1000%nat →
  Forall (λ t, t / 3600000 = w) ts →
  t1001 / 3600000 = w →
  tnext / 3600000 = w + 1 →
  ∃ os o1001 onext r',
    run req (ts ++ [t1001; tnext]) r = (os ++ [o1001; onext], r')
    ∧ length os = 1000%nat
    ∧ Forall (λ o, ∃ i, o = Next (Some i)) os
    ∧ o1001 = Json 429 "RATE_LIMIT_EXCEEDED" (exceeded_message starter "starter")
                   (Some 1000)
                   (Some {| limit := 1000; remaining := 0;
                            resetTime := (w + 1) * 3600000 |})
    ∧ onext = Next (Some {| limit := 1000; remaining := 999;
                            resetTime := (w + 2) * 3600000 |})
    ∧ Redis.read tnext (rate_key uid ((w + 1) * 3600000)) r' = Some 1.
Proof.
  intros req Hc Hk Hk' Hlen Hts Ht1001 Htnext.
  set (u := {| id := uid; plan := "starter" |}).
  assert (Hsel : select_limits (plan u) = Config starter) by reflexivity.
  assert (Hw : 0 < windowMs starter) by reflexivity.
  destruct (run_within_quota u k starter Hsel Hw w ts r 0 Hc Hts)
    as (os & r1 & Hrun & Hlenos & Hos & Hc1 & Hinv1 & Hfr1).
  { left. done. }
  { rewrite Hlen. done. }
  rewrite Hlen in Hinv1. change (0 + Z.of_nat 1000) with 1000 in Hinv1.
  change (windowMs starter) with 3600000 in Hinv1, Hfr1.
  change (id u) with uid in Hinv1, Hfr1.
  assert (Hws : window_start t1001 starter = w * 3600000).
  { unfold window_start. cbn [windowMs starter]. by rewrite Ht1001. }
  assert (Hws' : window_start tnext starter = (w + 1) * 3600000).
  { unfold window_start. cbn [windowMs starter]. by rewrite Htnext. }
  pose proof (window_bounds starter Hw t1001) as [_ Hb]. rewrite Hws in Hb.
  change (windowMs starter) with 3600000 in Hb.
  pose proof (check_denied u k starter Hsel t1001 r1 1000 Hc1) as Hden.
  rewrite Hws in Hden. change (id u) with uid in Hden.
  specialize (Hden (counter_at_read _ _ _ _ _ Hb Hinv1) ltac:(done)).
  assert (Hinv' : counter_at r1 (rate_key uid ((w + 1) * 3600000)) 0
                             ((w + 1) * 3600000 + 3600000)).
  { left. split; [done|]. rewrite Hfr1; [done|].
    intros Heq%rate_key_inj. lia. }
  pose proof (check_allowed u k starter Hsel Hw tnext r1 0 Hc1) as Hnext.
  rewrite Hws' in Hnext. change (id u) with uid in Hnext.
  change (windowMs starter) with 3600000 in Hnext.
  destruct (Hnext Hinv' ltac:(done)) as (r2 & Hstep & Hc2 & Hinv2 & _).
  pose proof (window_bounds starter Hw tnext) as [_ Hb']. rewrite Hws' in Hb'.
  change (windowMs starter) with 3600000 in Hb'.
  eexists os, _, _, r2. subst req. fold u. rewrite run_app, Hrun.
  cbn [run]. rewrite Hden, Hstep. split; [reflexivity|]. split; [by rewrite Hlenos|].
  split; [done|]. split.
  { cbn [requests windowMs starter plan u]. do 3 f_equal. lia. }
  split.
  { cbn [requests windowMs starter]. do 3 f_equal. lia. }
  pose proof (counter_at_read _ _ _ _ tnext Hb' Hinv2) as Hr.
  destruct Hinv2 as [[? _] | (e & He & Hv & _ & Hd)]; [lia|].
  unfold Redis.read. rewrite He, (live_before tnext e _ Hb' Hd). by rewrite Hv.
Qed.

Lemma starter_window_rollover_witness :
  ∃ os o1001 onext r',
    run {| user := Some {| id := "S"; plan := "starter" |};
           apiKey := Some {| key_id := "K" |} |}
        (replicate 1000 7200001 ++ [ 10799999; 10800000 ]) (Redis.State true ∅)
    = (os ++ [o1001; onext], r')
    ∧ length os = 1000%nat
    ∧ Forall (λ o, ∃ i, o = Next (Some i)) os
    ∧ o1001 = Json 429 "RATE_LIMIT_EXCEEDED" (exceeded_message starter "starter")
                   (Some 1000)
                   (Some {| limit := 1000; remaining := 0; resetTime := (2 + 1) * 3600000 |})
    ∧ onext = Next (Some {| limit := 1000; remaining := 999;
                            resetTime := (2 + 2) * 3600000 |})
    ∧ Redis.read 10800000 (rate_key "S" ((2 + 1) * 3600000)) r' = Some 1.
Proof.
  apply (starter_window_rollover "S" {| key_id := "K" |} (Redis.State true ∅)
           (replicate 1000 7200001) 10799999 10800000 2).
  - reflexivity.
  - reflexivity.
  - reflexivity.
  - apply length_replicate.
  - apply Forall_replicate. reflexivity.
  - reflexivity.
  - reflexivity.
Defined.

(** *** Plan names outside the table *)

(** C10 fails at the plan name ["constructor"] (and at every other member of
    [Object.prototype]): [RATE_LIMITS["constructor"]] is a truthy inherited
    value, so the free limits are not substituted.  Whatever the store and the
    instant, the middleware ends in [next()] through its [catch] block and
    never answers 429, and the status query reports no limit. *)
Theorem proto_plan_not_limited now uid k r :
  select_limits "constructor" = ProtoMember
  ∧ fst (rateLimitMiddleware now
           {| user := Some {| id := uid; plan := "constructor" |}; apiKey := Some k |} r)
    = Next None
  ∧ fst (getRateLimitStatus now uid "constructor" r)
    = (if Redis.client r then Ok NotANumber else Throw "Redis not connected").
Proof.
  split; [reflexivity|]. split.
  - unfold rateLimitMiddleware, try_catch, check; cbn [user apiKey plan id].
    change (select_limits "constructor") with ProtoMember. cbv iota.
    unfold bind, throw.
    destruct (Redis.client r) eqn:Hc.
    + rewrite get_connected by done.
      destruct (incr_connected now (rate_key_NaN uid) r Hc) as (v & r1 & -> & _).
      by destruct (default 0 _ =? 0).
    + unfold Redis.get. by rewrite Hc.
  - unfold getRateLimitStatus.
    change (select_limits "constructor") with ProtoMember. cbv iota.
    unfold bind, Redis.get. by destruct (Redis.client r).
Qed.

(** For contrast: a plan name that is neither in the table nor inherited is
    limited as the free plan is. *)
Lemma unknown_plan_limited_as_free now uid k r p :
  p ∉ ["free"; "starter"; "pro"; "scale"; "enterprise"] →
  p ∉ Object_prototype →
  Redis.client r = true →
  100 ≤ default 0 (Redis.read now (rate_key uid (window_start now free)) r) →
  ∃ m i, rateLimitMiddleware now
           {| user := Some {| id := uid; plan := p |}; apiKey := Some k |} r
         = (Json 429 "RATE_LIMIT_EXCEEDED" m (Some 100) i, r).
Proof.
  intros Hown Hproto Hc Hcount.
  pose proof (select_limits_fallback p Hown Hproto) as Hsel.
  eexists _, _.
  by apply (check_denied {| id := uid; plan := p |} k free Hsel now r _ Hc eq_refl).
Qed.

(** X1.  Fail-open: with the Redis client disconnected, the check of an
    authenticated request ends in [next()] through the [catch] block, for
    every plan, and leaves the store as it was. *)
Theorem rate_limit_fails_open now u k d :
  rateLimitMiddleware now {| user := Some u; apiKey := Some k |} (Redis.State false d)
  = (Next None, Redis.State false d).
Proof.
  unfold rateLimitMiddleware, try_catch, check; cbn [user apiKey].
  by destruct (select_limits (plan u)).
Qed.

End RateLimitFacts.

(** ** [Promise.all], the search stage and the pipeline *)

Module JSFacts.
Import Aux.

Lemma schedule_complete order n i : (i < n)%nat → i ∈ JS.schedule order n.
Proof.
  intros Hi. unfold JS.schedule. apply elem_of_remove_dups.
  apply list_elem_of_filter. split; [done|].
  apply elem_of_app. right. apply elem_of_seq. lia.
Qed.

Lemma slots_of_ext {A} (vs : list A) s1 s2 :
  (∀ i, (i < length vs)%nat → i ∈ s1 ↔ i ∈ s2) → slots_of vs s1 = slots_of vs s2.
Proof.
  intros H. apply list_eq. intros j. unfold slots_of. rewrite !list_lookup_imap.
  destruct (vs !! j) eqn:Hj; [|done]. cbn.
  erewrite bool_decide_ext; [done|]. apply H. by eapply lookup_lt_Some.
Qed.

Lemma slots_of_insert {A} (vs : list A) settled i v :
  vs !! i = Some v →
  <[i := Some v]> (slots_of vs settled) = slots_of vs (i :: settled).
Proof.
  intros Hi. apply list_eq. intros j. unfold slots_of.
  destruct (decide (i = j)) as [<-|Hne].
  - rewrite list_lookup_insert_eq by (rewrite length_imap; by eapply lookup_lt_Some).
    rewrite list_lookup_imap, Hi. cbn. rewrite bool_decide_eq_true_2; [done|set_solver].
  - rewrite list_lookup_insert_ne by done. rewrite !list_lookup_imap.
    destruct (vs !! j); [|done]. cbn.
    erewrite bool_decide_ext; [done|]. set_solver.
Qed.

Lemma settle_fulfilled {A} (vs : list A) sched : ∀ settled,
  JS.settle sched (Ok <$> vs) (slots_of vs settled) = Ok (slots_of vs (sched ++ settled)).
Proof.
  induction sched as [|i sched IH]; intros settled; cbn [JS.settle app]; [done|].
  rewrite list_lookup_fmap.
  destruct (vs !! i) as [v|] eqn:Hi; cbn [fmap option_fmap option_map].
  - rewrite (slots_of_insert vs settled i v Hi), IH. f_equal.
    apply slots_of_ext. intros j _. set_solver.
  - rewrite IH. f_equal. apply slots_of_ext. intros j Hj.
    apply lookup_ge_None in Hi. set_solver by lia.
Qed.

(** When every promise is fulfilled, [Promise.all] resolves with the values
    in the order of the promises, whatever the order in which they settled. *)
Lemma Promise_all_fulfilled {A} order (vs : list A) :
  JS.Promise_all order (Ok <$> vs) = Ok vs.
Proof.
  unfold JS.Promise_all. rewrite length_fmap.
  assert (replicate (length vs) None = slots_of vs []) as ->.
  { apply list_eq. intros j. unfold slots_of. rewrite list_lookup_imap.
    destruct (vs !! j) eqn:Hj; cbn.
    - rewrite lookup_replicate_2; [|by eapply lookup_lt_Some].
      rewrite bool_decide_eq_false_2; [done|set_solver].
    - apply lookup_replicate_None. apply lookup_ge_None in Hj. lia. }
  rewrite settle_fulfilled. f_equal.
  assert (slots_of vs (JS.schedule order (length vs) ++ []) = Some <$> vs) as ->.
  { apply list_eq. intros j. unfold slots_of. rewrite list_lookup_imap, list_lookup_fmap.
    destruct (vs !! j) eqn:Hj; [|done]. cbn.
    rewrite bool_decide_eq_true_2; [done|]. rewrite app_nil_r.
    apply schedule_complete. by eapply lookup_lt_Some. }
  induction vs as [|v vs IH]; [done|]. cbn. by rewrite IH.
Qed.

(** A rejected promise rejects [Promise.all]. *)
Lemma settle_rejected {A} (outcomes : list (result A)) i e sched : ∀ slots,
  i ∈ sched → outcomes !! i = Some (Throw e) →
  ∃ e', JS.settle sched outcomes slots = Throw e'.
Proof.
  induction sched as [|j sched IH]; intros slots Hin Hi; [by apply elem_of_nil in Hin|].
  cbn [JS.settle]. apply elem_of_cons in Hin as [<-|Hin].
  - rewrite Hi. eauto.
  - destruct (outcomes !! j) as [[v|e']|]; eauto.
Qed.

Lemma Promise_all_rejected {A} order (outcomes : list (result A)) i e :
  outcomes !! i = Some (Throw e) →
  ∃ e', JS.Promise_all order outcomes = Throw e'.
Proof.
  intros Hi. unfold JS.Promise_all.
  destruct (settle_rejected outcomes i e (JS.schedule order (length outcomes))
              (replicate (length outcomes) None)) as [e' ->]; [|done|eauto].
  apply schedule_complete. by eapply lookup_lt_Some.
Qed.

(** X2.  [Promise.all] over promises that are all fulfilled resolves with
    their values in the order of the promises, and so with the same array for
    any two orders in which they settle. *)
Theorem Promise_all_order_irrelevant {A} order1 order2 (vs : list A) :
  JS.Promise_all order1 (Ok <$> vs) = Ok vs
  ∧ JS.Promise_all order1 (Ok <$> vs) = JS.Promise_all order2 (Ok <$> vs).
Proof. by rewrite !Promise_all_fulfilled. Qed.

Lemma findIndex_here {A} (p : A → bool) pre x rest :
  JS.findIndex p (pre ++ x :: rest) = Some (length pre)
  ↔ p x = true ∧ Forall (λ y, p y = false) pre.
Proof.
  induction pre as [|y pre IH]; cbn [JS.findIndex app length].
  - destruct (p x).
    + split; [by intros _; split|done].
    + split; [|by intros [? _]].
      destruct (JS.findIndex p rest); cbn; by intros [= ?].
  - destruct (p y) eqn:Hy.
    + split; [done|]. intros [_ H]. apply Forall_cons in H as [H _]. congruence.
    + rewrite Forall_cons. split.
      * destruct (JS.findIndex p (pre ++ x :: rest)) as [n|]; cbn; [|done].
        intros [= ->]. destruct IH as [IH _]. destruct (IH eq_refl). done.
      * intros [Hx [_ H]]. destruct IH as [_ IH]. by rewrite (IH (conj Hx H)).
Qed.


End JSFacts.

Module SearchFacts.
Import Pipeline Aux JSFacts.

Local Abbreviation yid := YouTubeSearchResult.id.

Lemma first_of_each_id_seen seen1 seen2 l :
  seen1 = seen2 → first_of_each_id seen1 l = first_of_each_id seen2 l.
Proof. by intros ->. Qed.

(** The filter of the controller keeps, of every id, its first record. *)
Lemma unique_by_id_suffix pre suf :
  JS.filter_indexed
    (λ result index,
       bool_decide (JS.findIndex (λ r, bool_decide (yid r = yid result)) (pre ++ suf)
                    = Some index))
    (length pre) suf
  = first_of_each_id (list_to_set (yid <$> pre)) suf.
Proof.
  revert pre. induction suf as [|x suf IH]; intros pre; [done|].
  cbn [JS.filter_indexed first_of_each_id].
  pose proof (findIndex_here (λ r, bool_decide (yid r = yid x)) pre x suf) as Hhere.
  specialize (IH (pre ++ [x])). rewrite <- app_assoc in IH. cbn [app] in IH.
  rewrite length_app in IH. cbn [length] in IH. rewrite Nat.add_1_r in IH.
  rewrite IH. rewrite fmap_app, list_to_set_app_L. cbn [fmap list_fmap list_to_set].
  destruct (bool_decide (yid x ∈ (list_to_set (yid <$> pre) : gset string))) eqn:Hseen.
  - apply bool_decide_eq_true in Hseen.
    rewrite bool_decide_eq_false_2.
    + apply first_of_each_id_seen. set_solver.
    + intros [_ Hall]%Hhere. apply elem_of_list_to_set, list_elem_of_fmap in Hseen
        as (y & Heq & Hy).
      rewrite Forall_forall in Hall. specialize (Hall y Hy).
      apply bool_decide_eq_false in Hall. congruence.
  - apply bool_decide_eq_false in Hseen.
    rewrite bool_decide_eq_true_2.
    + f_equal. apply first_of_each_id_seen. set_solver.
    + apply Hhere. split; [by apply bool_decide_eq_true|].
      apply Forall_forall. intros y Hy. apply bool_decide_eq_false. intros Heq.
      apply Hseen. apply elem_of_list_to_set, list_elem_of_fmap. eauto.
Qed.

Lemma unique_by_id_first allResults :
  unique_by_id allResults = first_of_each_id ∅ allResults.
Proof. exact (unique_by_id_suffix [] allResults). Qed.

Lemma first_of_each_id_spec l : ∀ seen,
  NoDup (yid <$> first_of_each_id seen l)
  ∧ (∀ r, r ∈ first_of_each_id seen l →
          (yid r ∉ seen) ∧ ∃ l1 l2, l = l1 ++ r :: l2 ∧ yid r ∉ (yid <$> l1))
  ∧ (∀ x, x ∈ l → yid x ∉ seen → ∃ r, r ∈ first_of_each_id seen l ∧ yid r = yid x).
Proof.
  induction l as [|x l IH]; intros seen; cbn [first_of_each_id].
  - split; [constructor|]. split; intros ? H; by apply elem_of_nil in H.
  - case_bool_decide as Hx.
    + destruct (IH seen) as (Hnd & Hfirst & Hall). split; [done|]. split.
      * intros r Hr. destruct (Hfirst r Hr) as (Hns & l1 & l2 & -> & Hl1).
        split; [done|]. exists (x :: l1), l2. split; [done|].
        cbn. intros [Heq|?]%elem_of_cons; [|done]. congruence.
      * intros y [->|Hy]%elem_of_cons Hns; [done|]. by apply Hall.
    + destruct (IH ({[yid x]} ∪ seen)) as (Hnd & Hfirst & Hall).
      split; [|split].
      * cbn. constructor; [|done]. intros (r & Heq & Hr)%list_elem_of_fmap.
        destruct (Hfirst r Hr) as [Hns _]. set_solver.
      * intros r [->|Hr]%elem_of_cons.
        -- split; [done|]. exists [], l. split; [done|]. cbn. by intros ?%elem_of_nil.
        -- destruct (Hfirst r Hr) as (Hns & l1 & l2 & -> & Hl1).
           split; [set_solver|]. exists (x :: l1), l2. split; [done|].
           cbn. intros [Heq|?]%elem_of_cons; [|done]. set_solver.
      * intros y [->|Hy]%elem_of_cons Hns.
        -- exists x. split; [by left|done].
        -- destruct (decide (yid y = yid x)) as [Heq|Hne].
           ++ exists x. split; [by left|done].
           ++ destruct (Hall y Hy) as (r & Hr & Hid); [set_solver|].
              exists r. split; [by right|done].
Qed.





Lemma search_stage_rejected env processedQuery maxTracks term e :
  term ∈ take 3 (ProcessedQuery.searchTerms processedQuery) →
  searchMusic env term
    (Math_ceil_div maxTracks
       (Z.of_nat (length (ProcessedQuery.searchTerms processedQuery)))) = Throw e →
  ∃ e', search_stage env processedQuery maxTracks = Throw e'.
Proof.
  intros [i Hi]%list_elem_of_lookup He. unfold search_stage.
  destruct (Promise_all_rejected (completion_order env)
              (searchPromises env processedQuery maxTracks) i e) as [e' ->]; [|eauto].
  unfold searchPromises. by rewrite list_lookup_fmap, Hi; cbn; rewrite He.
Qed.

Lemma slice0_prefix {A} stop (l : list A) : JS.slice0 stop l `prefix_of` l.
Proof. unfold JS.slice0. destruct (stop <? 0); apply prefix_take. Qed.

Lemma slice0_length {A} stop (l : list A) :
  0 ≤ stop → Z.of_nat (length (JS.slice0 stop l)) ≤ stop.
Proof.
  intros H. unfold JS.slice0. destruct (stop <? 0) eqn:Hs; [apply Z.ltb_lt in Hs; lia|].
  rewrite length_take. lia.
Qed.





(** The example of the specification: terms ["a"] and ["b"] both return the id
    ["X"], titled "Foo" by ["a"] and "Bar" by ["b"].  Whether ["a"] or ["b"]
    settles first, the merged list is the one entry titled "Foo". *)
Example search_stage_foo_bar :
  let search := λ (term : string) (_ : Z),
                  if bool_decide (term = "a") then Ok [found "X" "Foo"]
                  else Ok [found "X" "Bar"] in
  let understand := λ _ : string, Ok (query_for ["a"; "b"]) in
  search_stage (example_env understand search [0; 1]%nat) (query_for ["a"; "b"]) 10
  = Ok ([found "X" "Foo"; found "X" "Bar"], [found "X" "Foo"])
  ∧ search_stage (example_env understand search [1; 0]%nat) (query_for ["a"; "b"]) 10
    = Ok ([found "X" "Foo"; found "X" "Bar"], [found "X" "Foo"]).
Proof. cbv zeta. split; vm_compute; reflexivity. Qed.

End SearchFacts.

Module PipelineFacts.
Import Pipeline Aux JSFacts SearchFacts.

Local Abbreviation yid := YouTubeSearchResult.id.


Lemma saveTrackToDatabase_ok now track db :
  ∃ db', Database.saveTrackToDatabase now track db = (Ok tt, db').
Proof.
  unfold Database.saveTrackToDatabase, try_catch, Database.upsert_track.
  destruct (Database.pool db); eauto.
Qed.

Lemma make_track_youtubeId env a q i r t :
  make_track env a q i r = Ok t → Track.youtubeId t = yid r.
Proof.
  unfold make_track. destruct (extractMetadata env _ _); [|done].
  destruct a; [|by intros [= <-]].
  destruct (getDownloadUrl env _ _) as [url|]; [|by intros [= <-]].
  destruct (analyzeFromUrl env url); by intros [= <-].
Qed.


(** X3.  Candidate isolation: the track stage never throws, and the tracks it
    returns are exactly the tracks of the results whose own processing
    succeeded, in order; a result whose processing throws is skipped without
    any effect on the tracks made from the others. *)
Theorem track_stage_isolates_failures env a q uniqueResults : ∀ index tracks db,
  fst (track_stage env a q index uniqueResults tracks db)
  = Ok (tracks ++ successes env a q index uniqueResults).
Proof.
  induction uniqueResults as [|r rest IH]; intros index tracks db;
    cbn [track_stage successes].
  - by rewrite app_nil_r.
  - destruct (make_track env a q index r) as [t|e].
    + unfold bind.
      destruct (saveTrackToDatabase_ok (now env) t db) as [db1 ->].
      by rewrite IH, <- app_assoc.
    + apply IH.
Qed.





(** C5 (as amended).  When a search sub-query of one of the first three
    search terms fails, and so when all of them fail, [processMusic] answers
    500 [PROCESSING_ERROR]: no track list, no processing steps, nothing
    stored. *)
Theorem search_failure_is_500 env body userQuery processedQuery term e db :
  request body = Some userQuery →
  userQuery ≠ "" →
  processRequest env userQuery = Ok processedQuery →
  term ∈ take 3 (ProcessedQuery.searchTerms processedQuery) →
  searchMusic env term
    (Math_ceil_div (default 10 (maxTracks body))
       (Z.of_nat (length (ProcessedQuery.searchTerms processedQuery)))) = Throw e →
  processMusic env body db = (Failure 500 "PROCESSING_ERROR", db).
Proof.
  intros Hreq Hne Hpr Hterm Hfail.
  destruct (search_stage_rejected env processedQuery _ term e Hterm Hfail) as [e' Hst].
  unfold processMusic, try_catch. rewrite Hreq.
  rewrite bool_decide_eq_false_2 by done.
  unfold bind, lift. by rewrite Hpr, Hst.
Qed.

Lemma search_failure_is_500_witness :
  processMusic
    (example_env (λ _, Ok (query_for ["a"; "b"]))
       (λ _ _, Throw "quotaExceeded") [1; 0]%nat)
    {| request := Some "chill lofi house"; maxTracks := Some 10;
       analyzeAudio := Some true; downloadQuality := None |}
    {| Database.pool := true; Database.tracks := ∅ |}
  = (Failure 500 "PROCESSING_ERROR", {| Database.pool := true; Database.tracks := ∅ |}).
Proof.
  apply (search_failure_is_500 _ _ "chill lofi house" (query_for ["a"; "b"]) "b"
           "Failed to search YouTube").
  - reflexivity.
  - discriminate.
  - reflexivity.
  - cbn. set_solver.
  - reflexivity.
Defined.

(** C5, as stated, fails.  With both sub-queries failing the answer is the
    500, not a 200 with an empty track list. *)
Lemma search_failure_counterexample :
  fst (processMusic
         (example_env (λ _, Ok (query_for ["a"; "b"]))
            (λ _ _, Throw "quotaExceeded") [])
         {| request := Some "chill lofi house"; maxTracks := None;
            analyzeAudio := None; downloadQuality := None |}
         {| Database.pool := true; Database.tracks := ∅ |})
  = Failure 500 "PROCESSING_ERROR".
Proof. vm_compute. reflexivity. Qed.

End PipelineFacts.

(** ** The confidence score *)

Module ConfidenceFacts.
Import Pipeline Aux.

Lemma count_nonneg n : (0 <= count n)%Q.
Proof. unfold count. change 0%Q with (inject_Z 0). rewrite <- Zle_Qle. lia. Qed.

Lemma share_nonneg a b : (0 <= count a / count b * 0.2)%Q.
Proof.
  apply Qmult_le_0_compat; [|done].
  apply Qmult_le_0_compat; [apply count_nonneg|].
  apply Qinv_le_0_compat, count_nonneg.
Qed.





(** The scorer on two concrete runs with a filter of 115 to 125 BPM: two
    tracks, one analyzed and outside the filter; three tracks, two analyzed,
    one of them within the filter (the sum 31/30 is cut to 1). *)
Example confidence_score_example :
  let t := λ status tempo,
    {| Track.id := ""; Track.youtubeId := ""; Track.title := "";
       Track.artist := None; Track.durationSeconds := None;
       Track.thumbnailUrl := None; Track.youtubeUrl := None; Track.audioUrl := None;
       Track.bpm := tempo; Track.musicalKey := None; Track.camelotKey := None;
       Track.energyLevel := None; Track.loudness := None;
       Track.tempoConfidence := None; Track.keyConfidence := None;
       Track.waveformPeaks := None; Track.genre := None; Track.mood := None;
       Track.analysisStatus := status; Track.analysisCompletedAt := None;
       Track.createdAt := 0; Track.updatedAt := 0 |} in
  let q :=
    {| ProcessedQuery.intent := ProcessedQuery.search;
       ProcessedQuery.searchTerms := ["lofi house"];
       ProcessedQuery.filters :=
         Some {| ProcessedQuery.bpm :=
                   Some {| ProcessedQuery.min := Some 115%Q;
                           ProcessedQuery.max := Some 125%Q |};
                 ProcessedQuery.key := None; ProcessedQuery.genre := None;
                 ProcessedQuery.mood := None; ProcessedQuery.energy := None;
                 ProcessedQuery.duration := None |};
       ProcessedQuery.maxResults := None; ProcessedQuery.sortBy := None |} in
  (calculateConfidenceScore q
     [ t Track.completed (Some 140%Q); t Track.failed (Some 120%Q) ]
   == 0.5 + 0.2 + (1 # 2) * 0.2)%Q
  ∧ (calculateConfidenceScore q
       [ t Track.completed (Some 120%Q); t Track.completed (Some 140%Q);
         t Track.failed (Some 120%Q) ]
     == 1)%Q.
Proof. cbv zeta. split; vm_compute; reflexivity. Qed.

End ConfidenceFacts.

(** ** Persisting a candidate *)

Module DatabaseFacts.
Import Database Aux.




(** The columns the [ON CONFLICT] clause does not name: an update leaves them
    as stored, whatever the new candidate holds. *)
Lemma upsert_unnamed_columns now old new :
  let final := on_conflict now old new in
  Track.camelotKey final = Track.camelotKey old
  ∧ Track.energyLevel final = Track.energyLevel old
  ∧ Track.loudness final = Track.loudness old
  ∧ Track.tempoConfidence final = Track.tempoConfidence old
  ∧ Track.keyConfidence final = Track.keyConfidence old
  ∧ Track.waveformPeaks final = Track.waveformPeaks old
  ∧ Track.genre final = Track.genre old
  ∧ Track.mood final = Track.mood old
  ∧ Track.analysisCompletedAt final = Track.analysisCompletedAt old
  ∧ Track.id final = Track.id old
  ∧ Track.durationSeconds final = Track.durationSeconds old
  ∧ Track.thumbnailUrl final = Track.thumbnailUrl old
  ∧ Track.youtubeUrl final = Track.youtubeUrl old
  ∧ Track.audioUrl final = Track.audioUrl old
  ∧ Track.createdAt final = Track.createdAt old
  ∧ Track.updatedAt final = now.
Proof. by repeat split. Qed.


End DatabaseFacts.

(** ** The authentication gate *)

Module AuthFacts.
Import Auth.

(** Once the prefix check has passed, the gate never answers
    [INVALID_API_KEY_FORMAT]. *)
Local Ltac in_log :=
  simpl; rewrite ?elem_of_app, ?list_elem_of_singleton; naive_solver.

Lemma lookup_path_code sha256_hex now h w :
  h ≠ "" → String.prefix "mf_" h = true →
  fst (authMiddleware sha256_hex now (Some h) w) ≠ Reject 401 "INVALID_API_KEY_FORMAT"
  ∧ fst (authMiddleware sha256_hex now (Some h) w) ≠ Reject 401 "MISSING_API_KEY"
  ∧ CacheGet ("apikey:" +:+ sha256_hex h)
    ∈ log (snd (authMiddleware sha256_hex now (Some h) w)).
Proof.
  intros Hne Hpre. unfold authMiddleware, try_catch.
  rewrite bool_decide_eq_false_2 by done. rewrite Hpre. cbn [negb].
  unfold bind, getJson, bind, record, select_key, setJson, touch_last_used, bind, record, ret.
  simpl.
  destruct (redis_client w); simpl; [|split; [done|split; [done|in_log]]].
  destruct (cache w !! ("apikey:" +:+ sha256_hex h)) as [[d deadline]|]; simpl.
  - destruct (now <? deadline); simpl; [split; [done|split; [done|in_log]]|].
    destruct (pool w); simpl; [|split; [done|split; [done|in_log]]].
    destruct (active_keys w (sha256_hex h)); simpl; (split; [done|split; [done|in_log]]).
  - destruct (pool w); simpl; [|split; [done|split; [done|in_log]]].
    destruct (active_keys w (sha256_hex h)); simpl; (split; [done|split; [done|in_log]]).
Qed.

(** C9 (as amended).  The gate answers 401 [INVALID_API_KEY_FORMAT] exactly
    for the header values that are present, not empty, and do not start with
    [mf_]; it does so before any cache or database access (the store and its
    access log are untouched).  An absent or empty header is answered
    [MISSING_API_KEY]; a value that starts with [mf_], whatever its length and
    characters, goes on to the lookup. *)
Theorem key_format_gate sha256_hex now header w :
  (fst (authMiddleware sha256_hex now header w) = Reject 401 "INVALID_API_KEY_FORMAT"
   ↔ ∃ h, header = Some h ∧ h ≠ "" ∧ String.prefix "mf_" h = false)
  ∧ (fst (authMiddleware sha256_hex now header w) = Reject 401 "INVALID_API_KEY_FORMAT"
     → snd (authMiddleware sha256_hex now header w) = w)
  ∧ (fst (authMiddleware sha256_hex now header w) = Reject 401 "MISSING_API_KEY"
     ↔ header = None ∨ header = Some "")
  ∧ (∀ h, header = Some h → h ≠ "" → String.prefix "mf_" h = true →
          CacheGet ("apikey:" +:+ sha256_hex h)
          ∈ log (snd (authMiddleware sha256_hex now header w))).
Proof.
  destruct header as [h|].
  - destruct (decide (h = "")) as [->|Hne].
    + split; [|split; [|split]].
      * split; [done|]. by intros (h & [= <-] & ? & _).
      * done.
      * split; [by right|done].
      * by intros h [= <-].
    + destruct (String.prefix "mf_" h) eqn:Hpre.
      * destruct (lookup_path_code sha256_hex now h w Hne Hpre) as (Hcode & Hmiss & Hlog).
        split; [|split; [|split]].
        -- split; [done|]. intros (h' & [= <-] & _ & ?). congruence.
        -- done.
        -- split; [done|]. intros [?|[= ?]]; done.
        -- by intros h' [= <-] _ _.
      * assert (Hres : authMiddleware sha256_hex now (Some h) w
                       = (Reject 401 "INVALID_API_KEY_FORMAT", w)).
        { unfold authMiddleware, try_catch.
          rewrite bool_decide_eq_false_2 by done. by rewrite Hpre. }
        rewrite Hres. cbn [fst snd]. split; [|split; [|split]].
        -- split; [eauto|done].
        -- done.
        -- split; [done|]. intros [?|[= ?]]; done.
        -- intros h' [= <-] _ ?. congruence.
  - split; [|split; [|split]].
    + split; [done|]. by intros (h & ? & _).
    + done.
    + split; [by left|done].
    + done.
Qed.

(** C9, as stated, fails.  The value ["mf_"] is not the prefix followed by 64
    lowercase hexadecimal characters, yet the gate does not answer
    [INVALID_API_KEY_FORMAT]: it looks the key up in the cache and in the
    database and answers [INVALID_API_KEY].  (The identity stands in for the
    digest.) *)
Lemma key_format_counterexample :
  let w := {| redis_client := true; cache := ∅; pool := true;
              active_keys := λ _, []; log := [] |} in
  spec_key_format "mf_" = false
  ∧ fst (authMiddleware (λ k, k) 0 (Some "mf_") w) = Reject 401 "INVALID_API_KEY"
  ∧ log (snd (authMiddleware (λ k, k) 0 (Some "mf_") w))
    = [ CacheGet "apikey:mf_"; DbSelect "mf_" ].
Proof. cbv zeta. by vm_compute. Qed.

End AuthFacts.

(** ** The JSON side of the Redis wrapper *)

Module StoreFacts.

Lemma getJson_connected {V} now key (s : JsonStore.t V) :
  JsonStore.client s = true →
  JsonStore.getJson now key s
  = (Ok (match JsonStore.data s !! key with
         | Some (v, deadline) => if JsonStore.live now deadline then Some v else None
         | None => None
         end), s).
Proof. intros Hc. unfold JsonStore.getJson. by rewrite Hc. Qed.

Lemma setJson_connected {V} now key (v : V) seconds (s : JsonStore.t V) :
  JsonStore.client s = true → 0 < seconds →
  JsonStore.setJson now key v (Some seconds) s
  = (Ok tt, JsonStore.State true
              (<[key := (v, Some (now + seconds * 1000))]> (JsonStore.data s))).
Proof.
  intros Hc Hpos. unfold JsonStore.setJson. rewrite Hc.
  destruct (seconds =? 0) eqn:H0; [apply Z.eqb_eq in H0; lia|].
  destruct (seconds <? 0) eqn:Hneg; [apply Z.ltb_lt in Hneg; lia|]. done.
Qed.

(** X4.  What is written with [setJson] is read back with [getJson] until
    its time is up.  On a connected client, a value stored with a positive
    number of seconds is returned by every read before that many seconds have
    passed and by none from then on; a value stored with 0 seconds, or with
    none, is stored without expiry and returned by every later read; a
    negative number of seconds makes the call throw and stores nothing.  In
    each case the other keys are left as they were. *)
Theorem stored_json_expires {V} now key (value : V) expireInSeconds later s :
  JsonStore.client s = true →
  let res := JsonStore.setJson now key value expireInSeconds s in
  let seconds := default 0 expireInSeconds in
  (∀ other, other ≠ key →
            JsonStore.data (snd res) !! other = JsonStore.data s !! other)
  ∧ (0 < seconds →
     fst res = Ok tt
     ∧ fst (JsonStore.getJson later key (snd res))
       = Ok (if later <? now + seconds * 1000 then Some value else None))
  ∧ (seconds = 0 →
     fst res = Ok tt ∧ fst (JsonStore.getJson later key (snd res)) = Ok (Some value))
  ∧ (seconds < 0 → (∃ e, fst res = Throw e) ∧ snd res = s).
Proof.
  intros Hc res seconds. subst res seconds. unfold JsonStore.setJson. rewrite Hc.
  destruct expireInSeconds as [seconds|]; cbn [default from_option Datatypes.id].
  - destruct (seconds =? 0) eqn:H0; [apply Z.eqb_eq in H0 | apply Z.eqb_neq in H0].
    + cbn [fst snd JsonStore.data]. split.
      { intros other Hne. by rewrite lookup_insert_ne. }
      split; [lia|]. split; [|lia]. intros _. split; [done|].
      rewrite getJson_connected by done. cbn [fst JsonStore.data].
      by rewrite lookup_insert_eq.
    + destruct (seconds <? 0) eqn:Hneg;
        [apply Z.ltb_lt in Hneg | apply Z.ltb_ge in Hneg].
      * cbn [fst snd]. split; [done|]. split; [lia|]. split; [lia|].
        intros _. split; [by eexists | done].
      * cbn [fst snd JsonStore.data]. split.
        { intros other Hne. by rewrite lookup_insert_ne. }
        split; [|split; lia]. intros _. split; [done|].
        rewrite getJson_connected by done. cbn [fst JsonStore.data].
        by rewrite lookup_insert_eq.
  - cbn [fst snd JsonStore.data]. split.
    { intros other Hne. by rewrite lookup_insert_ne. }
    split; [lia|]. split; [|lia]. intros _. split; [done|].
    rewrite getJson_connected by done. cbn [fst JsonStore.data].
    by rewrite lookup_insert_eq.
Qed.

Lemma stored_json_expires_witness :
  let s := JsonStore.State true (∅ : gmap string (string * option Z)) in
  let res := JsonStore.setJson 0 "k" "v" (Some 10) s in
  (∀ other, other ≠ "k" →
            JsonStore.data (snd res) !! other = JsonStore.data s !! other)
  ∧ (0 < 10 →
     fst res = Ok tt
     ∧ fst (JsonStore.getJson 9999 "k" (snd res))
       = Ok (if 9999 <? 0 + 10 * 1000 then Some "v" else None))
  ∧ (10 = 0 →
     fst res = Ok tt ∧ fst (JsonStore.getJson 9999 "k" (snd res)) = Ok (Some "v"))
  ∧ (10 < 0 → (∃ e, fst res = Throw e) ∧ snd res = s).
Proof.
  exact (stored_json_expires 0 "k" "v" (Some 10) 9999
           (JsonStore.State true (∅ : gmap string (string * option Z))) eq_refl).
Defined.

End StoreFacts.

(** ** Quota status, quota reset and the usage log *)

Module QuotaFacts.

Import RateLimit RedisFacts RateLimitFacts.

Lemma prefix_app (a b : string) : String.prefix a (a +:+ b) = true.
Proof.
  induction a as [|c a IH]; simpl; [by destruct b|].
  destruct (ascii_dec c c); [done | congruence].
Qed.

Lemma append_assoc (a b c : string) : (a +:+ b) +:+ c = a +:+ b +:+ c.
Proof.
  induction a as [|x a IH]; [done|].
  change (String x ((a +:+ b) +:+ c) = String x (a +:+ b +:+ c)). by f_equal.
Qed.

Lemma subject_prefix userId w :
  String.prefix ("rate_limit:" +:+ userId +:+ ":") (rate_key userId w) = true.
Proof.
  unfold rate_key.
  replace ("rate_limit:" +:+ userId +:+ ":" +:+ pretty w)
    with (("rate_limit:" +:+ userId +:+ ":") +:+ pretty w); [apply prefix_app|].
  by rewrite !append_assoc.
Qed.

Lemma lookup_foldr_delete {A} (m : gmap string A) (ks : list string) (j : string) :
  foldr delete m ks !! j = if bool_decide (j ∈ ks) then None else m !! j.
Proof.
  induction ks as [|k ks IH]; cbn [foldr].
  - by rewrite bool_decide_eq_false_2 by apply not_elem_of_nil.
  - destruct (decide (j = k)) as [->|Hne].
    + rewrite lookup_delete_eq. by rewrite bool_decide_eq_true_2 by left.
    + rewrite lookup_delete_ne by done. rewrite IH.
      apply (f_equal (λ b : bool, if b then None else m !! j)).
      apply bool_decide_ext. rewrite elem_of_cons. naive_solver.
Qed.

Lemma elem_of_keys glob_match now pattern r key :
  key ∈ RateLimitAdmin.keys glob_match now pattern r
  ↔ ∃ e, Redis.data r !! key = Some e ∧ glob_match pattern key = true
         ∧ Redis.live now e = true.
Proof.
  unfold RateLimitAdmin.keys. rewrite list_elem_of_fmap. split.
  - intros ([k e] & -> & Hin). apply list_elem_of_filter in Hin as [[Hg Hl] Hin].
    apply elem_of_map_to_list in Hin. by exists e.
  - intros (e & Hlk & Hg & Hl). exists (key, e). split; [done|].
    apply list_elem_of_filter. split; [done|]. by apply elem_of_map_to_list.
Qed.

Lemma requests_ge_100 p l : select_limits p = Config l → 100 ≤ requests l.
Proof.
  intros H%select_limits_cases.
  repeat (apply elem_of_cons in H as [-> | H]; [by cbn|]).
  by apply elem_of_nil in H.
Qed.

(** X5.  [getRateLimitStatus] is a pure read that predicts the next check.
    For a subject whose plan takes its limits from the table and a connected
    store, it changes nothing and reports the plan's limit, the end of the
    current window and a [remaining] that is never negative; the check made at
    the same instant is refused exactly when the reported [remaining] is 0,
    and when it is let through it attaches the same limit and reset time and
    one less than the reported [remaining]. *)
Theorem status_predicts_check now u k l r :
  select_limits (plan u) = Config l →
  Redis.client r = true →
  let req := {| user := Some u; apiKey := Some k |} in
  ∃ info,
    getRateLimitStatus now (id u) (plan u) r = (Ok (Info info), r)
    ∧ limit info = requests l
    ∧ resetTime info = window_start now l + windowMs l
    ∧ 0 ≤ remaining info
    ∧ (remaining info = 0 ↔ allowed (fst (rateLimitMiddleware now req r)) = false)
    ∧ (0 < remaining info →
       fst (rateLimitMiddleware now req r)
       = Next (Some {| limit := limit info;
                       remaining := remaining info - 1;
                       resetTime := resetTime info |})).
Proof.
  intros Hsel Hc req.
  pose proof (requests_ge_100 _ _ Hsel) as Hreq.
  pose proof (check_config now u k l r Hsel Hc) as H. cbv zeta in H.
  set (key := rate_key (id u) (window_start now l)) in *.
  eexists. split.
  { unfold getRateLimitStatus. rewrite Hsel. unfold bind.
    rewrite get_connected by done. fold key. reflexivity. }
  cbn [limit remaining resetTime].
  split; [done|]. split; [done|].
  set (c := default 0 (Redis.read now key r)) in *.
  destruct (requests l <=? c) eqn:Hle.
  - apply Z.leb_le in Hle. subst req. rewrite H. cbn [fst allowed].
    split; [lia|]. split; [split; [done | lia]|]. lia.
  - apply Z.leb_gt in Hle. destruct H as (r' & H & _). subst req. rewrite H.
    cbn [fst allowed]. split; [lia|].
    split; [split; [lia | done]|].
    intros _. do 2 f_equal. f_equal. lia.
Qed.

Lemma status_predicts_check_witness :
  let u := {| id := "S"; plan := "starter" |} in
  let r := Redis.State true {[ rate_key "S" 0 := Redis.Entry 999 (Some 3600000) ]} in
  let req := {| user := Some u; apiKey := Some {| key_id := "K" |} |} in
  ∃ info,
    getRateLimitStatus 5 "S" "starter" r = (Ok (Info info), r)
    ∧ limit info = 1000
    ∧ resetTime info = 3600000
    ∧ 0 ≤ remaining info
    ∧ (remaining info = 0 ↔ allowed (fst (rateLimitMiddleware 5 req r)) = false)
    ∧ (0 < remaining info →
       fst (rateLimitMiddleware 5 req r)
       = Next (Some {| limit := limit info;
                       remaining := remaining info - 1;
                       resetTime := resetTime info |})).
Proof.
  exact (status_predicts_check 5 {| id := "S"; plan := "starter" |} {| key_id := "K" |}
           starter
           (Redis.State true {[ rate_key "S" 0 := Redis.Entry 999 (Some 3600000) ]})
           eq_refl eq_refl).
Defined.

(** X6.  [resetRateLimit] gives a subject a fresh quota and touches nobody
    else.  On a connected store, for a user id on whose pattern the server's
    matcher selects the keys that start with [rate_limit:<id>:] (an id without
    glob characters, such as the UUIDs of [users.id]), the reset succeeds;
    afterwards no counter of the subject is readable in any window at any
    later instant, so the subject's next check on a table plan is let through
    with the whole quota but one remaining; every key outside the subject's
    prefix is as before, and no key is created or changed. *)
Theorem reset_gives_fresh_quota glob_match now userId r :
  Redis.client r = true →
  (∀ key, glob_match ("rate_limit:" +:+ userId +:+ ":*") key
          = String.prefix ("rate_limit:" +:+ userId +:+ ":") key) →
  ∃ r',
    RateLimitAdmin.resetRateLimit glob_match now userId r = (Ok tt, r')
    ∧ Redis.client r' = true
    ∧ (∀ later w, now ≤ later → Redis.read later (rate_key userId w) r' = None)
    ∧ (∀ later u k l, now ≤ later → id u = userId →
         select_limits (plan u) = Config l →
         fst (rateLimitMiddleware later {| user := Some u; apiKey := Some k |} r')
         = Next (Some {| limit := requests l;
                         remaining := requests l - 1;
                         resetTime := window_start later l + windowMs l |}))
    ∧ (∀ key, String.prefix ("rate_limit:" +:+ userId +:+ ":") key = false →
              Redis.data r' !! key = Redis.data r !! key)
    ∧ (∀ key, Redis.data r' !! key = None ∨ Redis.data r' !! key = Redis.data r !! key).
Proof.
  intros Hc Hglob.
  set (pattern := "rate_limit:" +:+ userId +:+ ":*").
  set (found := RateLimitAdmin.keys glob_match now pattern r).
  assert (Hlookup : ∃ r',
    RateLimitAdmin.resetRateLimit glob_match now userId r = (Ok tt, r')
    ∧ Redis.client r' = true
    ∧ ∀ key, Redis.data r' !! key
             = if bool_decide (key ∈ found) then None else Redis.data r !! key).
  { unfold RateLimitAdmin.resetRateLimit. rewrite Hc. fold pattern found.
    destruct (0 <? length found)%nat eqn:Hlen.
    - eexists. split; [done|]. split; [done|]. intros key. cbn [Redis.data].
      apply lookup_foldr_delete.
    - exists r. split; [done|]. split; [done|]. intros key.
      apply Nat.ltb_ge in Hlen. destruct found; [|simpl in Hlen; lia].
      by rewrite bool_decide_eq_false_2 by apply not_elem_of_nil. }
  destruct Hlookup as (r' & Hrun & Hc' & Hlk). exists r'.
  assert (Hread : ∀ later w, now ≤ later → Redis.read later (rate_key userId w) r' = None).
  { intros later w Hlater. unfold Redis.read. rewrite Hlk.
    destruct (bool_decide (rate_key userId w ∈ found)) eqn:Hin; [done|].
    apply bool_decide_eq_false in Hin.
    destruct (Redis.data r !! rate_key userId w) as [e|] eqn:He; [|done].
    destruct (Redis.live later e) eqn:Hlive; [|done].
    exfalso. apply Hin. apply elem_of_keys. exists e. split; [done|].
    split; [rewrite Hglob; apply subject_prefix|].
    unfold Redis.live in *. destruct (Redis.expire_at e); [|done].
    apply Z.ltb_lt in Hlive. apply Z.ltb_lt. lia. }
  split; [done|]. split; [done|]. split; [done|]. split.
  { intros later u k l Hlater Hid Hsel.
    pose proof (requests_ge_100 _ _ Hsel) as Hreq.
    pose proof (check_config later u k l r' Hsel Hc') as H. cbv zeta in H.
    rewrite Hid, Hread in H by done. cbn [default] in H.
    destruct (requests l <=? 0) eqn:Hle; [apply Z.leb_le in Hle; lia|].
    destruct H as (r'' & -> & _). cbn [fst]. do 2 f_equal. f_equal. lia. }
  split.
  - intros key Hpre. rewrite Hlk. rewrite bool_decide_eq_false_2; [done|].
    intros (e & _ & Hg & _)%elem_of_keys. rewrite Hglob in Hg. congruence.
  - intros key. rewrite Hlk. destruct (bool_decide (key ∈ found)); auto.
Qed.

Lemma reset_gives_fresh_quota_witness :
  let r := Redis.State true {[ rate_key "S" 0 := Redis.Entry 100 (Some 3600000) ]} in
  ∃ r',
    RateLimitAdmin.resetRateLimit RateLimitAdmin.literal_then_star 5 "S" r = (Ok tt, r')
    ∧ Redis.client r' = true
    ∧ (∀ later w, 5 ≤ later → Redis.read later (rate_key "S" w) r' = None)
    ∧ (∀ later u k l, 5 ≤ later → id u = "S" →
         select_limits (plan u) = Config l →
         fst (rateLimitMiddleware later {| user := Some u; apiKey := Some k |} r')
         = Next (Some {| limit := requests l;
                         remaining := requests l - 1;
                         resetTime := window_start later l + windowMs l |}))
    ∧ (∀ key, String.prefix "rate_limit:S:" key = false →
              Redis.data r' !! key = Redis.data r !! key)
    ∧ (∀ key, Redis.data r' !! key = None ∨ Redis.data r' !! key = Redis.data r !! key).
Proof.
  exact (reset_gives_fresh_quota RateLimitAdmin.literal_then_star 5 "S"
           (Redis.State true {[ rate_key "S" 0 := Redis.Entry 100 (Some 3600000) ]})
           eq_refl (λ _, eq_refl)).
Defined.

End QuotaFacts.

Module UsageFacts.

Import Usage.

Lemma take_app_take {A} n (a b : list A) : take n (a ++ take n b) = take n (a ++ b).
Proof. rewrite !take_app, take_take. do 2 f_equal. lia. Qed.

Lemma last_cons {A} (l : list A) : ∀ x d, List.last (x :: l) d = List.last l x.
Proof.
  induction l as [|y l IH]; intros x d; [done|].
  change (List.last (x :: y :: l) d) with (List.last (y :: l) d).
  by rewrite !IH.
Qed.

Lemma keep_100 (l : list t) :
  (if (100 <? length l)%nat then take 100 l else l) = take 100 l.
Proof.
  destruct (100 <? length l)%nat eqn:H; [done|].
  apply Nat.ltb_ge in H. by rewrite take_ge.
Qed.

(** One call for an authenticated subject whose list is readable as [old]
    ([[]] when there is none). *)
Lemma logApiUsage_connected now x u k w old :
  RateLimit.user (req x) = Some u → RateLimit.apiKey (req x) = Some k →
  JsonStore.client (recent w) = true →
  default [] (match JsonStore.data (recent w) !! usageKey (RateLimit.id u) with
              | Some (v, deadline) =>
                  if JsonStore.live now deadline then Some v else None
              | None => None
              end) = old →
  logApiUsage now x w =
    {| recent :=
         JsonStore.State true
           (<[usageKey (RateLimit.id u) :=
                (take 100 (usage_of now u k x :: old), Some (now + 3600 * 1000))]>
              (JsonStore.data (recent w)));
       pool := pool w;
       api_usage := if pool w then api_usage w ++ [usage_of now u k x]
                    else api_usage w |}.
Proof.
  intros Hu Hk Hc Hold. unfold logApiUsage. rewrite Hu, Hk. cbv zeta.
  assert (Hrec : recent (insert_api_usage (usage_of now u k x) w) = recent w).
  { unfold insert_api_usage. by destruct (pool w). }
  unfold with_recent, try_catch, cache_recent, bind, JsonStore.getJson,
    JsonStore.setJson.
  rewrite Hrec, Hc. cbn [user_id usage_of]. rewrite Hold, keep_100.
  rewrite !Hc. cbn [snd].
  unfold insert_api_usage. by destruct (pool w) eqn:Hp; cbn [pool api_usage]; rewrite ?Hp.
Qed.

Lemma log_all_chained u k xs : ∀ w last old,
  Forall (λ tx, req tx.2 = {| RateLimit.user := Some u; RateLimit.apiKey := Some k |}) xs →
  within_ttl last xs.*1 →
  (length old ≤ 100)%nat →
  JsonStore.client (recent w) = true →
  JsonStore.data (recent w) !! usageKey (RateLimit.id u)
    = Some (old, Some (last + 3600 * 1000)) →
  let usages := (λ tx, usage_of tx.1 u k tx.2) <$> xs in
  let w' := log_all xs w in
  JsonStore.client (recent w') = true
  ∧ JsonStore.data (recent w') !! usageKey (RateLimit.id u)
    = Some (take 100 (reverse usages ++ old),
            Some (List.last xs.*1 last + 3600 * 1000))
  ∧ pool w' = pool w
  ∧ api_usage w' = (if pool w then api_usage w ++ usages else api_usage w)
  ∧ ∀ key, key ≠ usageKey (RateLimit.id u) →
           JsonStore.data (recent w') !! key = JsonStore.data (recent w) !! key.
Proof.
  induction xs as [|[now x] xs IH]; intros w last old Hreq Hchain Hlen Hc Hlk; cbv zeta.
  - cbn. rewrite Hlk, take_ge by done. split; [done|]. split; [done|]. split; [done|].
    split; [by destruct (pool w); rewrite ?app_nil_r|done].
  - apply Forall_cons in Hreq as [Hx Hreq]. cbn in Hx, Hchain.
    destruct Hchain as [Hnow Hchain].
    cbn [log_all].
    rewrite (logApiUsage_connected now x u k w old); cycle 1.
    { by rewrite Hx. } { by rewrite Hx. } { done. }
    { rewrite Hlk. unfold JsonStore.live.
      by rewrite (proj2 (Z.ltb_lt _ _) Hnow). }
    set (w1 := Build_World _ _ _).
    specialize (IH w1 now (take 100 (usage_of now u k x :: old)) Hreq Hchain).
    cbv zeta in IH. destruct IH as (Hc' & Hlk' & Hp' & Hu' & Hframe).
    { rewrite length_take. lia. }
    { done. }
    { subst w1. cbn [recent JsonStore.data]. by rewrite lookup_insert_eq. }
    split; [done|]. split.
    { rewrite Hlk'. f_equal. f_equal.
      - cbn [fmap list_fmap fst snd]. rewrite reverse_cons, <- app_assoc. cbn [app].
        by rewrite take_app_take.
      - cbn [fmap list_fmap fst]. by rewrite last_cons. }
    split; [done|]. split.
    { rewrite Hu'. subst w1. cbn [pool api_usage fmap list_fmap fst snd].
      destruct (pool w); [|done]. by rewrite <- app_assoc. }
    intros key Hne. rewrite Hframe by done. subst w1. cbn [recent JsonStore.data].
    by rewrite lookup_insert_ne.
Qed.

(** X7.  The recent-usage list is the newest-first record of the subject's
    last 100 requests.  When a subject whose list is not yet in the cache has
    its exchanges logged one after another on a connected Redis, each before
    the list written by the one before it expires (3600 s), the cached list is
    the rows of those exchanges in reverse order cut to the first 100, it
    lives for 3600 s after the last of them, the lists of other subjects are
    untouched, and the [api_usage] table has gained the same rows in request
    order when the database is connected and nothing otherwise. *)
Theorem recent_usage_newest_first u k first rest w :
  Forall (λ tx, req tx.2 = {| RateLimit.user := Some u; RateLimit.apiKey := Some k |})
         (first :: rest) →
  within_ttl first.1 rest.*1 →
  JsonStore.client (recent w) = true →
  JsonStore.data (recent w) !! usageKey (RateLimit.id u) = None →
  let usages := (λ tx, usage_of tx.1 u k tx.2) <$> first :: rest in
  let w' := log_all (first :: rest) w in
  JsonStore.data (recent w') !! usageKey (RateLimit.id u)
  = Some (take 100 (reverse usages),
          Some (List.last rest.*1 first.1 + 3600 * 1000))
  ∧ (length (take 100 (reverse usages)) ≤ 100)%nat
  ∧ head (take 100 (reverse usages))
    = Some (usage_of (List.last (first :: rest) first).1 u k
                     (List.last (first :: rest) first).2)
  ∧ api_usage w' = (if pool w then api_usage w ++ usages else api_usage w)
  ∧ ∀ key, key ≠ usageKey (RateLimit.id u) →
           JsonStore.data (recent w') !! key = JsonStore.data (recent w) !! key.
Proof.
  destruct first as [now x]. intros Hreq Hchain Hc Hnone usages w'.
  apply Forall_cons in Hreq as [Hx Hreq]. cbn in Hx, Hchain.
  subst w'. cbn [log_all].
  rewrite (logApiUsage_connected now x u k w []); cycle 1.
  { by rewrite Hx. } { by rewrite Hx. } { done. } { by rewrite Hnone. }
  set (w1 := Build_World _ _ _).
  destruct (log_all_chained u k rest w1 now (take 100 [usage_of now u k x])
              Hreq Hchain) as (Hc' & Hlk' & Hp' & Hu' & Hframe).
  { cbn. lia. }
  { done. }
  { subst w1. cbn [recent JsonStore.data]. by rewrite lookup_insert_eq. }
  assert (Hlist :
    take 100 (reverse ((λ tx, usage_of tx.1 u k tx.2) <$> rest)
              ++ take 100 [usage_of now u k x])
    = take 100 (reverse usages)).
  { subst usages. cbn [fmap list_fmap fst snd]. rewrite reverse_cons.
    by rewrite take_app_take. }
  split; [by rewrite Hlk', Hlist|].
  split; [rewrite length_take; lia|].
  split.
  { subst usages. clear.
    assert (H : ∀ (l : list (Z * Exchange)) d,
              head (take 100 (reverse ((λ tx, usage_of tx.1 u k tx.2) <$> d :: l)))
              = Some (usage_of (List.last (d :: l) d).1 u k (List.last (d :: l) d).2)).
    { intros l. induction l as [|y l IH] using rev_ind; intros d; [done|].
      rewrite app_comm_cons, fmap_app, reverse_app. cbn [fmap list_fmap reverse].
      rewrite last_last. done. }
    apply H. }
  split.
  { rewrite Hu'. subst w1 usages. cbn [pool api_usage fmap list_fmap fst snd].
    destruct (pool w); [|done]. by rewrite <- app_assoc. }
  intros key Hne. rewrite Hframe by done. subst w1. cbn [recent JsonStore.data].
  by rewrite lookup_insert_ne.
Qed.

Lemma recent_usage_newest_first_witness :
  let u := {| RateLimit.id := "S"; RateLimit.plan := "free" |} in
  let k := {| RateLimit.key_id := "K" |} in
  let x := {| req := {| RateLimit.user := Some u; RateLimit.apiKey := Some k |};
              path := "/process"; req_method := "POST"; statusCode := 200;
              locals_responseTime := None |} in
  let w := {| recent := JsonStore.State true ∅; pool := true; api_usage := [] |} in
  let usages := (λ tx : Z * Exchange, usage_of tx.1 u k tx.2) <$> [(1, x); (2, x)] in
  let w' := log_all [(1, x); (2, x)] w in
  JsonStore.data (recent w') !! usageKey "S"
  = Some (take 100 (reverse usages), Some (2 + 3600 * 1000))
  ∧ (length (take 100 (reverse usages)) ≤ 100)%nat
  ∧ head (take 100 (reverse usages)) = Some (usage_of 2 u k x)
  ∧ api_usage w' = usages
  ∧ ∀ key, key ≠ usageKey "S" →
           JsonStore.data (recent w') !! key = JsonStore.data (recent w) !! key.
Proof.
  intros u k x w.
  refine (recent_usage_newest_first u k (1, x) [(2, x)] w _ _ eq_refl eq_refl).
  - repeat constructor.
  - cbn. lia.
Defined.

End UsageFacts.

(** ** API keys: generation, the gate's cache, registration and login *)

Module ApiKeyFacts.

Import ApiKeys.

Lemma hex_digit_lowercase n : (n < 16)%N → Auth.lowercase_hex (hex_digit n) = true.
Proof.
  intros Hn. replace n with (N.of_nat (N.to_nat n)) by lia.
  assert (Hk : (N.to_nat n < 16)%nat) by lia.
  generalize dependent (N.to_nat n). intros k Hk.
  do 16 (destruct k as [|k]; [reflexivity|]). lia.
Qed.

Lemma hex_digit_inj n m :
  (n < 16)%N → (m < 16)%N → hex_digit n = hex_digit m → n = m.
Proof.
  assert (Hval : ∀ j, (j < 16)%nat →
            (if (nat_of_ascii (hex_digit (N.of_nat j)) <? 58)%nat
             then nat_of_ascii (hex_digit (N.of_nat j)) - 48
             else nat_of_ascii (hex_digit (N.of_nat j)) - 87)%nat = j).
  { intros j Hj. do 16 (destruct j as [|j]; [reflexivity|]). lia. }
  intros Hn Hm Heq.
  pose proof (Hval (N.to_nat n) ltac:(lia)) as H1.
  pose proof (Hval (N.to_nat m) ltac:(lia)) as H2.
  rewrite !N2Nat.id in H1, H2. rewrite Heq in H1. lia.
Qed.

Lemma to_N_lt_256 b : (Byte.to_N b < 256)%N.
Proof. by destruct b. Qed.

Lemma to_N_inj b1 b2 : Byte.to_N b1 = Byte.to_N b2 → b1 = b2.
Proof.
  intros H. apply (f_equal Byte.of_N) in H. rewrite !Byte.of_to_N in H. congruence.
Qed.

Lemma hex_of_byte_inj b1 b2 : hex_of_byte b1 = hex_of_byte b2 → b1 = b2.
Proof.
  unfold hex_of_byte. intros [= Hhi Hlo].
  pose proof (to_N_lt_256 b1). pose proof (to_N_lt_256 b2).
  apply hex_digit_inj in Hhi; [|apply N.Div0.div_lt_upper_bound; lia..].
  apply hex_digit_inj in Hlo; [|apply N.mod_lt; lia..].
  apply to_N_inj.
  rewrite (N.div_mod (Byte.to_N b1) 16), (N.div_mod (Byte.to_N b2) 16) by lia. lia.
Qed.

Lemma hex_bytes_inj (bs1 : list Byte.byte) : ∀ bs2,
  bs1 ≫= hex_of_byte = bs2 ≫= hex_of_byte → bs1 = bs2.
Proof.
  induction bs1 as [|b1 bs1 IH]; intros [|b2 bs2]; cbn; try done.
  intros [= Hhi Hlo Hrest]. f_equal; [|by apply IH].
  apply hex_of_byte_inj. unfold hex_of_byte. congruence.
Qed.

Lemma hex_bytes_length (bs : list Byte.byte) :
  length (bs ≫= hex_of_byte) = (2 * length bs)%nat.
Proof. induction bs as [|b bs IH]; cbn; [done|]. rewrite IH. lia. Qed.

Lemma hex_bytes_lowercase (bs : list Byte.byte) :
  forallb Auth.lowercase_hex (bs ≫= hex_of_byte) = true.
Proof.
  induction bs as [|b bs IH]; [done|].
  cbn [mbind list_bind hex_of_byte app forallb]. fold (bs ≫= hex_of_byte).
  pose proof (to_N_lt_256 b).
  rewrite !hex_digit_lowercase, IH; [done|..].
  - apply N.mod_lt. lia.
  - apply N.Div0.div_lt_upper_bound. lia.
Qed.

Lemma string_length_of_list (l : list ascii) :
  String.length (string_of_list_ascii l) = length l.
Proof. induction l as [|c l IH]; [done|]. cbn. by rewrite IH. Qed.

Lemma generated_prefix randomBytes :
  String.prefix "mf_" (generateApiKey randomBytes) = true.
Proof. unfold generateApiKey. by destruct (toString_hex randomBytes). Qed.

(** X8.  Every generated key has the documented shape and is accepted by the
    gate's format checks: from 32 random bytes, [generateApiKey] returns the
    67 characters made of [mf_] and 64 lowercase hexadecimal digits, a string
    the gate never answers with [MISSING_API_KEY] or
    [INVALID_API_KEY_FORMAT]; and different bytes give different keys. *)
Theorem generated_key_format (randomBytes : list Byte.byte) :
  length randomBytes = 32%nat →
  String.length (generateApiKey randomBytes) = 67%nat
  ∧ Auth.spec_key_format (generateApiKey randomBytes) = true
  ∧ (∀ sha256_hex now w,
       fst (Auth.authMiddleware sha256_hex now (Some (generateApiKey randomBytes)) w)
         ≠ Auth.Reject 401 "MISSING_API_KEY"
       ∧ fst (Auth.authMiddleware sha256_hex now (Some (generateApiKey randomBytes)) w)
         ≠ Auth.Reject 401 "INVALID_API_KEY_FORMAT")
  ∧ (∀ other, generateApiKey other = generateApiKey randomBytes → other = randomBytes).
Proof.
  intros Hlen. unfold generateApiKey, toString_hex.
  assert (Hshape : ∀ s, "mf_" +:+ s = String "m" (String "f" (String "_" s))) by done.
  rewrite Hshape.
  split; [|split; [|split]].
  - cbn [String.length]. rewrite string_length_of_list, hex_bytes_length, Hlen. done.
  - unfold Auth.spec_key_format.
    cbn [String.length list_ascii_of_string drop].
    rewrite string_length_of_list, hex_bytes_length, Hlen.
    rewrite list_ascii_of_string_of_list_ascii, drop_0, hex_bytes_lowercase.
    by destruct (string_of_list_ascii (randomBytes ≫= hex_of_byte)).
  - intros sha256_hex now w.
    destruct (AuthFacts.lookup_path_code sha256_hex now
                (String "m" (String "f" (String "_"
                   (string_of_list_ascii (randomBytes ≫= hex_of_byte))))) w)
      as (H1 & H2 & _); [done| |done].
    by destruct (string_of_list_ascii (randomBytes ≫= hex_of_byte)).
  - intros other. rewrite Hshape. intros [= H].
    apply (f_equal list_ascii_of_string) in H.
    rewrite !list_ascii_of_string_of_list_ascii in H. by apply hex_bytes_inj.
Qed.

Lemma generated_key_format_witness :
  let randomBytes := replicate 32 Byte.xa7 in
  String.length (generateApiKey randomBytes) = 67%nat
  ∧ Auth.spec_key_format (generateApiKey randomBytes) = true
  ∧ (∀ sha256_hex now w,
       fst (Auth.authMiddleware sha256_hex now (Some (generateApiKey randomBytes)) w)
         ≠ Auth.Reject 401 "MISSING_API_KEY"
       ∧ fst (Auth.authMiddleware sha256_hex now (Some (generateApiKey randomBytes)) w)
         ≠ Auth.Reject 401 "INVALID_API_KEY_FORMAT")
  ∧ (∀ other, generateApiKey other = generateApiKey randomBytes → other = randomBytes).
Proof. exact (generated_key_format (replicate 32 Byte.xa7) eq_refl). Defined.

End ApiKeyFacts.

Module GateFacts.

Import Auth.

(** The gate on a header that passes the format checks, Redis connected. *)
Lemma gate_lookup sha256_hex now k w :
  String.prefix "mf_" k = true →
  redis_client w = true →
  let cacheKey := "apikey:" +:+ sha256_hex k in
  let logged es := {| redis_client := redis_client w; cache := cache w;
                      pool := pool w; active_keys := active_keys w;
                      log := log w ++ es |} in
  let cached := match cache w !! cacheKey with
                | Some (d, deadline) => if now <? deadline then Some d else None
                | None => None
                end in
  authMiddleware sha256_hex now (Some k) w =
    match cached with
    | Some d => (Accept d, logged [CacheGet cacheKey; DbTouchLastUsed (id d)])
    | None =>
        if pool w then
          match active_keys w (sha256_hex k) with
          | [] => (Reject 401 "INVALID_API_KEY",
                   logged [CacheGet cacheKey; DbSelect (sha256_hex k)])
          | d :: _ =>
              (Accept d,
               {| redis_client := redis_client w;
                  cache := <[cacheKey := (d, now + 300 * 1000)]> (cache w);
                  pool := pool w; active_keys := active_keys w;
                  log := log w ++ [CacheGet cacheKey; DbSelect (sha256_hex k);
                                   CacheSet cacheKey 300; DbTouchLastUsed (id d)] |})
          end
        else (Reject 500 "AUTH_ERROR",
              logged [CacheGet cacheKey; DbSelect (sha256_hex k)])
    end.
Proof.
  intros Hpre Hc cacheKey logged cached. subst logged cached.
  assert (Hne : k ≠ "") by (intros ->; done).
  destruct w as [rc ch pl keys lg]. cbn [redis_client] in Hc. subst rc.
  unfold authMiddleware, try_catch.
  rewrite bool_decide_eq_false_2 by done. rewrite Hpre. cbn [negb].
  fold cacheKey.
  unfold bind, getJson, bind, record, select_key, setJson, touch_last_used, bind,
    record, ret.
  cbn [redis_client cache pool active_keys log].
  destruct (ch !! cacheKey) as [[d deadline]|];
    [destruct (now <? deadline)|];
    cbn [redis_client cache pool active_keys log]; rewrite <- ?app_assoc; try done.
  all: destruct pl; cbn [redis_client cache pool active_keys log];
    rewrite <- ?app_assoc; try done.
  all: destruct (keys (sha256_hex k)) as [|d0 rest];
    cbn [redis_client cache pool active_keys log]; by rewrite <- ?app_assoc.
Qed.

(** X9.  The gate accepts nothing it has no record for.  Whatever the header
    and the stores, when the gate accepts, the header starts with [mf_], Redis
    is connected, and the identity attached to the request is either the
    unexpired cache entry of the key's hash or, when there is none, the first
    row the database returns for that hash among the active keys of active
    users; in particular an outage of Redis, or of the database on a cache
    miss, never lets a request through (the gate answers 500). *)
Theorem accept_needs_a_record sha256_hex now header w :
  match fst (authMiddleware sha256_hex now header w) with
  | Accept d =>
      ∃ k, header = Some k ∧ String.prefix "mf_" k = true
           ∧ redis_client w = true
           ∧ ((∃ deadline, cache w !! ("apikey:" +:+ sha256_hex k) = Some (d, deadline)
                           ∧ now < deadline)
              ∨ ((∀ d' deadline, cache w !! ("apikey:" +:+ sha256_hex k)
                                 = Some (d', deadline) → deadline ≤ now)
                 ∧ pool w = true
                 ∧ head (active_keys w (sha256_hex k)) = Some d))
  | Reject status code =>
      (redis_client w = false → header ≠ None → header ≠ Some "" →
       (∀ k, header = Some k → String.prefix "mf_" k = true) →
       status = 500 ∧ code = "AUTH_ERROR")
  end.
Proof.
  destruct header as [k|]; [|cbn; intros; done].
  destruct (decide (k = "")) as [->|Hne]; [cbn; intros; done|].
  destruct (String.prefix "mf_" k) eqn:Hpre; cycle 1.
  { unfold authMiddleware, try_catch. rewrite bool_decide_eq_false_2 by done.
    rewrite Hpre. cbn. intros _ _ _ H. specialize (H k eq_refl). congruence. }
  destruct (redis_client w) eqn:Hc; cycle 1.
  { unfold authMiddleware, try_catch. rewrite bool_decide_eq_false_2 by done.
    rewrite Hpre. cbn [negb].
    unfold bind, getJson, bind, record. cbn [redis_client]. rewrite Hc. cbn. done. }
  pose proof (gate_lookup sha256_hex now k w Hpre Hc) as H. cbv zeta in H. rewrite H.
  destruct (cache w !! ("apikey:" +:+ sha256_hex k)) as [[d deadline]|] eqn:Hlk.
  - destruct (now <? deadline) eqn:Hlive.
    + cbn [fst]. exists k. split; [done|]. split; [done|]. split; [done|].
      left. exists deadline. split; [done|]. by apply Z.ltb_lt.
    + apply Z.ltb_ge in Hlive. destruct (pool w); [|cbn; intros; done].
      destruct (active_keys w (sha256_hex k)) as [|d0 rest] eqn:Hkeys;
        [cbn; intros; done|].
      cbn [fst]. exists k. split; [done|]. split; [done|]. split; [done|].
      right. split; [|by rewrite Hkeys]. rewrite Hlk. intros d' deadline' [= <- <-]. done.
  - destruct (pool w); [|cbn; intros; done].
    destruct (active_keys w (sha256_hex k)) as [|d0 rest] eqn:Hkeys;
      [cbn; intros; done|].
    cbn [fst]. exists k. split; [done|]. split; [done|]. split; [done|].
    right. split; [|by rewrite Hkeys]. rewrite Hlk. intros d' deadline' [=].
Qed.

(** X10.  A key stays valid for up to five minutes after it is revoked.  When
    a key that passes the format checks is authenticated from the database
    (nothing cached, Redis and database connected), the gate caches the row
    for 300 s.  If the key then loses its active rows, a request with it
    before the 300 s are over is still accepted with the same identity, from
    the cache alone and without a [SELECT], even when the database is down;
    a request from then on asks the database again and is refused with 401
    [INVALID_API_KEY]. *)
Theorem cached_key_outlives_revocation sha256_hex t0 t1 t2 k d others w pool' keys' :
  String.prefix "mf_" k = true →
  redis_client w = true →
  pool w = true →
  cache w !! ("apikey:" +:+ sha256_hex k) = None →
  active_keys w (sha256_hex k) = d :: others →
  keys' (sha256_hex k) = [] →
  t1 < t0 + 300 * 1000 →
  t0 + 300 * 1000 ≤ t2 →
  let w1 := snd (authMiddleware sha256_hex t0 (Some k) w) in
  let revoked p := {| redis_client := true; cache := cache w1; pool := p;
                      active_keys := keys'; log := [] |} in
  fst (authMiddleware sha256_hex t0 (Some k) w) = Accept d
  ∧ fst (authMiddleware sha256_hex t1 (Some k) (revoked pool')) = Accept d
  ∧ log (snd (authMiddleware sha256_hex t1 (Some k) (revoked pool')))
    = [CacheGet ("apikey:" +:+ sha256_hex k); DbTouchLastUsed (id d)]
  ∧ fst (authMiddleware sha256_hex t2 (Some k) (revoked true))
    = Reject 401 "INVALID_API_KEY".
Proof.
  intros Hpre Hc Hp Hnone Hkeys Hk' Hlt Hge w1 revoked.
  pose proof (gate_lookup sha256_hex t0 k w Hpre Hc) as H0. cbv zeta in H0.
  rewrite Hnone, Hp, Hkeys in H0.
  assert (Hcache : ∀ p, cache (revoked p) !! ("apikey:" +:+ sha256_hex k)
                        = Some (d, t0 + 300 * 1000)).
  { intros p. subst revoked w1. rewrite H0. cbn [snd cache]. by rewrite lookup_insert_eq. }
  pose proof (gate_lookup sha256_hex t1 k (revoked pool') Hpre eq_refl) as H1.
  pose proof (gate_lookup sha256_hex t2 k (revoked true) Hpre eq_refl) as H2.
  cbv zeta in H1, H2. rewrite Hcache in H1, H2.
  rewrite (proj2 (Z.ltb_lt _ _) Hlt) in H1. rewrite (proj2 (Z.ltb_ge _ _) Hge) in H2.
  change (pool (revoked true)) with true in H2.
  change (active_keys (revoked true)) with keys' in H2. rewrite Hk' in H2.
  split; [by rewrite H0|]. split; [by rewrite H1|]. split; [by rewrite H1|].
  by rewrite H2.
Qed.

Lemma cached_key_outlives_revocation_witness :
  let sha256_hex := λ s : string, "h(" +:+ s +:+ ")" in
  let d := {| id := "key-1"; user_id := "user-1"; name := "Default API Key";
              user_email := "a@example.org"; user_plan := "free" |} in
  let w := {| redis_client := true; cache := ∅; pool := true;
              active_keys := λ _, [d]; log := [] |} in
  let w1 := snd (authMiddleware sha256_hex 0 (Some "mf_00") w) in
  let revoked p := {| redis_client := true; cache := cache w1; pool := p;
                      active_keys := λ _, []; log := [] |} in
  fst (authMiddleware sha256_hex 0 (Some "mf_00") w) = Accept d
  ∧ fst (authMiddleware sha256_hex 299999 (Some "mf_00") (revoked false)) = Accept d
  ∧ log (snd (authMiddleware sha256_hex 299999 (Some "mf_00") (revoked false)))
    = [CacheGet ("apikey:" +:+ sha256_hex "mf_00"); DbTouchLastUsed "key-1"]
  ∧ fst (authMiddleware sha256_hex 300000 (Some "mf_00") (revoked true))
    = Reject 401 "INVALID_API_KEY".
Proof.
  intros sha256_hex d w.
  refine (cached_key_outlives_revocation sha256_hex 0 299999 300000 "mf_00" d [] w
            false (λ _, []) eq_refl eq_refl eq_refl eq_refl eq_refl eq_refl _ _); lia.
Defined.

End GateFacts.

(** ** Registration and login *)

Module AccountFacts.

Import Accounts.

Lemma truthy_string_Some s : truthy_string s = true → ∃ v, s = Some v ∧ v ≠ "".
Proof.
  destruct s as [v|]; [|done]. cbn. intros H. exists v. split; [done|].
  intros ->. done.
Qed.

Lemma head_filter_None {A} (p : A → bool) (l : list A) :
  head (List.filter p l) = None ↔ ∀ x, x ∈ l → p x = false.
Proof.
  induction l as [|y l IH]; cbn.
  - split; [|done]. intros _ x Hx. by apply elem_of_nil in Hx.
  - destruct (p y) eqn:Hy; cbn.
    + split; [done|]. intros H. specialize (H y ltac:(left)). congruence.
    + rewrite IH. split.
      * intros H x [->|Hx]%elem_of_cons; auto.
      * intros H x Hx. apply H. by right.
Qed.

Lemma List_filter_none {A} (p : A → bool) (l : list A) :
  (∀ x, x ∈ l → p x = false) → List.filter p l = [].
Proof.
  induction l as [|y l IH]; intros Hno; [done|]. cbn.
  rewrite (Hno y) by left. apply IH. intros x Hx. apply Hno. by right.
Qed.

Lemma head_filter_Some {A} (p : A → bool) (l : list A) x :
  head (List.filter p l) = Some x → x ∈ l ∧ p x = true.
Proof.
  induction l as [|y l IH]; cbn; [done|].
  destruct (p y) eqn:Hy; cbn.
  - intros [= <-]. split; [left|done].
  - intros [Hin Hp]%IH. split; [by right|done].
Qed.

Lemma register_outcome sha256_hex bcrypt_hash draws body tb :
  match register sha256_hex bcrypt_hash draws body tb with
  | (Created user apiKey, tb') =>
      truthy_string (body_email body) = true
      ∧ truthy_string (body_password body) = true
      ∧ truthy_string (body_name body) = true
      ∧ (8 ≤ String.length (default "" (body_password body)))%nat
      ∧ (default "" (body_email body) ∉ UserRow.email <$> users tb)
      ∧ (user_uuid draws ∉ UserRow.id <$> users tb)
      ∧ (key_uuid draws ∉ ApiKeyRow.id <$> api_keys tb)
      ∧ apiKey = ApiKeys.generateApiKey (randomBytes draws)
      ∧ user = public (new_user bcrypt_hash draws body)
      ∧ tb' = {| pool := true;
                 users := users tb ++ [new_user bcrypt_hash draws body];
                 api_keys := api_keys tb ++ [new_key sha256_hex draws] |}
  | (RegisterError status code, tb') =>
      tb' = tb
      ∧ (status, code) ∈ [ (400, "MISSING_FIELDS"); (400, "WEAK_PASSWORD");
                           (400, "EMAIL_EXISTS"); (500, "REGISTRATION_ERROR") ]
  end.
Proof.
  unfold register, try_catch.
  destruct (truthy_string (body_email body)) eqn:He; cbn [negb orb];
    [|split; [done | set_solver]].
  destruct (truthy_string (body_password body)) eqn:Hp; cbn [negb orb];
    [|split; [done | set_solver]].
  destruct (truthy_string (body_name body)) eqn:Hn; cbn [negb orb];
    [|split; [done | set_solver]].
  destruct (String.length (default "" (body_password body)) <? 8)%nat eqn:Hlen;
    [split; [done | set_solver]|].
  apply Nat.ltb_ge in Hlen.
  unfold bind at 1. unfold queryOne_user.
  destruct tb as [pl us ks]. cbn [pool users api_keys].
  destruct pl; [|split; [done | set_solver]].
  destruct (head (List.filter
                    (λ u, bool_decide (UserRow.email u = default "" (body_email body)))
                    us)) as [existing|] eqn:Hex;
    [split; [done | set_solver]|].
  assert (Hfresh : default "" (body_email body) ∉ UserRow.email <$> us).
  { intros (u & Hu & Hin)%list_elem_of_fmap.
    pose proof (proj1 (head_filter_None _ _) Hex u Hin) as Hno.
    cbn beta in Hno. by apply bool_decide_eq_false in Hno. }
  unfold bind, transaction, insert_user, insert_api_key, ret, hashApiKey.
  cbn [pool users api_keys UserRow.id UserRow.email].
  destruct (bool_decide (user_uuid draws ∈ UserRow.id <$> us)) eqn:Hid;
    [split; [done | set_solver]|].
  apply bool_decide_eq_false in Hid.
  rewrite (bool_decide_eq_false_2 _ Hfresh).
  cbn [pool users api_keys ApiKeyRow.id ApiKeyRow.user_id UserRow.id].
  destruct (bool_decide (key_uuid draws ∈ ApiKeyRow.id <$> ks)) eqn:Hkid;
    [split; [done | set_solver]|].
  apply bool_decide_eq_false in Hkid.
  rewrite bool_decide_eq_true_2; cycle 1.
  { rewrite fmap_app. apply elem_of_app. right. cbn. left. }
  cbn [negb fst snd].
  repeat (split; [done|]). done.
Qed.

(** X11.  Registration is all or nothing.  Whatever the request, the draws
    and the tables, the route either answers 201, having added exactly one
    user row (the given email and name, the password stored only as its
    bcrypt hash, plan [free], active) and exactly one API key row (owned by
    that user, holding the SHA-256 of the returned key, active), the returned
    key being the generated one; or it answers one of the four errors and
    the tables are exactly as before.  A 201 requires a password of at least
    8 characters and an email not yet in [users]. *)
Theorem register_all_or_nothing sha256_hex bcrypt_hash draws body tb :
  let res := register sha256_hex bcrypt_hash draws body tb in
  match fst res with
  | Created user apiKey =>
      (8 ≤ String.length (default "" (body_password body)))%nat
      ∧ (default "" (body_email body) ∉ UserRow.email <$> users tb)
      ∧ apiKey = ApiKeys.generateApiKey (randomBytes draws)
      ∧ plan user = "free" ∧ isActive user = true
      ∧ email user = default "" (body_email body)
      ∧ ∃ u k,
          users (snd res) = users tb ++ [u]
          ∧ api_keys (snd res) = api_keys tb ++ [k]
          ∧ user = public u
          ∧ UserRow.password_hash u
            = Some (bcrypt_hash (default "" (body_password body)))
          ∧ ApiKeyRow.user_id k = UserRow.id u
          ∧ ApiKeyRow.key_hash k = sha256_hex apiKey
          ∧ ApiKeyRow.is_active k = true
  | RegisterError status code =>
      snd res = tb
      ∧ (status, code) ∈ [ (400, "MISSING_FIELDS"); (400, "WEAK_PASSWORD");
                           (400, "EMAIL_EXISTS"); (500, "REGISTRATION_ERROR") ]
  end.
Proof.
  intros res. subst res.
  pose proof (register_outcome sha256_hex bcrypt_hash draws body tb) as H.
  destruct (register sha256_hex bcrypt_hash draws body tb) as [[user apiKey|status code] tb'];
    cbn [fst snd]; [|done].
  destruct H as (_ & _ & _ & Hlen & Hfresh & _ & _ & -> & -> & ->).
  repeat (split; [done|]).
  exists (new_user bcrypt_hash draws body), (new_key sha256_hex draws).
  by repeat split.
Qed.

Lemma filter_none {A} (P : A → Prop) `{∀ x, Decision (P x)} (l : list A) :
  (∀ x, x ∈ l → ¬ P x) → filter P l = [].
Proof.
  induction l as [|y l IH]; intros Hno; [done|].
  rewrite filter_cons_False by (apply Hno; left).
  apply IH. intros x Hx. apply Hno. by right.
Qed.

Lemma select_new_key sha256_hex bcrypt_hash draws body tb :
  user_uuid draws ∉ (UserRow.id <$> users tb) →
  (∀ row, row ∈ api_keys tb →
          ApiKeyRow.key_hash row
          ≠ sha256_hex (ApiKeys.generateApiKey (randomBytes draws))) →
  select_active_keys
    {| pool := true;
       users := users tb ++ [new_user bcrypt_hash draws body];
       api_keys := api_keys tb ++ [new_key sha256_hex draws] |}
    (sha256_hex (ApiKeys.generateApiKey (randomBytes draws)))
  = [ {| Auth.id := key_uuid draws;
         Auth.user_id := user_uuid draws;
         Auth.name := "Default API Key";
         Auth.user_email := default "" (body_email body);
         Auth.user_plan := "free" |} ].
Proof.
  intros Hid Hhash. unfold select_active_keys. cbn [api_keys users].
  rewrite filter_app, (filter_none _ (api_keys tb)); cycle 1.
  { intros row Hrow [Hh _]. by apply (Hhash row). }
  rewrite filter_cons_True, filter_nil by done. cbn [app].
  rewrite bind_cons. cbn [mbind list_bind app]. rewrite app_nil_r.
  cbn [new_key ApiKeyRow.user_id ApiKeyRow.id ApiKeyRow.name].
  rewrite filter_app, (filter_none _ (users tb)); cycle 1.
  { intros u Hu [Hu' _]. apply Hid. rewrite <- Hu'. by apply list_elem_of_fmap_2. }
  rewrite filter_cons_True, filter_nil by done. done.
Qed.

(** X12.  The key handed out by a successful registration authenticates its
    owner.  When the route answers 201 and no older key has the same SHA-256
    (and nothing is cached under it), the gate, working on the tables the
    registration left behind with Redis connected, accepts a request that
    carries the returned key and attaches the new user's id, email and plan
    [free] and the id of the new key; the rate limiter gives that plan the
    free quota of 100 requests an hour. *)
Theorem registered_key_authenticates sha256_hex bcrypt_hash draws body tb
    user apiKey tb' now cache log :
  register sha256_hex bcrypt_hash draws body tb = (Created user apiKey, tb') →
  (∀ row, row ∈ api_keys tb → ApiKeyRow.key_hash row ≠ sha256_hex apiKey) →
  cache !! ("apikey:" +:+ sha256_hex apiKey) = None →
  ∃ d,
    fst (Auth.authMiddleware sha256_hex now (Some apiKey) (gate_world tb' true cache log))
    = Auth.Accept d
    ∧ Auth.id d = key_uuid draws
    ∧ Auth.user_id d = id user
    ∧ Auth.user_email d = email user
    ∧ Auth.user_plan d = plan user
    ∧ RateLimit.select_limits (Auth.user_plan d) = RateLimit.Config RateLimit.free.
Proof.
  intros Hreg Hhash Hcache.
  pose proof (register_outcome sha256_hex bcrypt_hash draws body tb) as H.
  rewrite Hreg in H. destruct H as (_ & _ & _ & _ & _ & Hid & _ & -> & -> & ->).
  pose proof (GateFacts.gate_lookup sha256_hex now
                (ApiKeys.generateApiKey (randomBytes draws))
                (gate_world
                   {| pool := true;
                      users := users tb ++ [new_user bcrypt_hash draws body];
                      api_keys := api_keys tb ++ [new_key sha256_hex draws] |}
                   true cache log)) as Hgate.
  cbv zeta in Hgate. cbn [gate_world Auth.cache Auth.pool Auth.active_keys pool] in Hgate.
  rewrite Hcache, (select_new_key _ _ _ _ _ Hid Hhash) in Hgate.
  rewrite Hgate; [|apply ApiKeyFacts.generated_prefix|done].
  eexists. split; [done|]. by repeat split.
Qed.

Lemma registered_key_authenticates_witness :
  let sha256_hex := λ s : string, "h(" +:+ s +:+ ")" in
  let bcrypt_hash := λ s : string, "b(" +:+ s +:+ ")" in
  let draws := {| user_uuid := "user-1"; key_uuid := "key-1";
                  randomBytes := replicate 32 Byte.xa7 |} in
  let body := {| body_email := Some "a@example.org";
                 body_password := Some "correct horse";
                 body_name := Some "A"; body_company := None |} in
  let tb := {| pool := true; users := []; api_keys := [] |} in
  let res := register sha256_hex bcrypt_hash draws body tb in
  ∃ d,
    fst (Auth.authMiddleware sha256_hex 0
           (Some (ApiKeys.generateApiKey (replicate 32 Byte.xa7)))
           (gate_world (snd res) true ∅ []))
    = Auth.Accept d
    ∧ Auth.id d = "key-1"
    ∧ Auth.user_id d = "user-1"
    ∧ Auth.user_email d = "a@example.org"
    ∧ Auth.user_plan d = "free"
    ∧ RateLimit.select_limits (Auth.user_plan d) = RateLimit.Config RateLimit.free.
Proof.
  intros sha256_hex bcrypt_hash draws body tb res.
  refine (registered_key_authenticates sha256_hex bcrypt_hash draws body tb
            _ _ (snd res) 0 ∅ [] eq_refl _ eq_refl).
  intros row Hrow. by apply elem_of_nil in Hrow.
Defined.

(** X13.  A registered user can log in.  After a 201 from the registration
    route, and provided [bcrypt.compare] recognises the password under the
    hash [bcrypt.hash] made of it and [JWT_SECRET] is configured, logging in
    with the same email and password on the tables the registration left
    behind answers 200 with the token signed for the new user's id and email
    and with the same user object the registration returned; the tables are
    not changed by the login. *)
Theorem login_after_register sha256_hex bcrypt_hash bcrypt_compare jwt_sign
    draws body tb user apiKey tb' secret :
  register sha256_hex bcrypt_hash draws body tb = (Created user apiKey, tb') →
  bcrypt_compare (default "" (body_password body))
                 (bcrypt_hash (default "" (body_password body))) = true →
  secret ≠ "" →
  login bcrypt_compare jwt_sign (Some secret)
        {| login_email := body_email body; login_password := body_password body |} tb'
  = (LoggedIn (jwt_sign (id user) (email user) secret) user, tb').
Proof.
  intros Hreg Hcmp Hsecret.
  pose proof (register_outcome sha256_hex bcrypt_hash draws body tb) as H.
  rewrite Hreg in H.
  destruct H as (He & Hp & _ & _ & Hfresh & _ & _ & -> & -> & ->).
  unfold login, try_catch. cbn [login_email login_password].
  rewrite He, Hp. cbn [negb orb].
  unfold bind, queryOne_user. cbn [pool users].
  rewrite List.filter_app.
  assert (Hold : List.filter
            (λ u, bool_decide (UserRow.email u = default "" (body_email body))
                  && UserRow.is_active u) (users tb) = []).
  { apply List_filter_none. intros u Hu. rewrite bool_decide_eq_false_2; [done|].
    intros Hmail. apply Hfresh. rewrite <- Hmail. by apply list_elem_of_fmap_2. }
  rewrite Hold. cbn [app List.filter new_user UserRow.email UserRow.is_active].
  rewrite bool_decide_eq_true_2 by done. cbn [andb head].
  change (UserRow.password_hash (new_user bcrypt_hash draws body))
    with (Some (bcrypt_hash (default "" (body_password body)))).
  cbn match. rewrite Hcmp. cbn [negb truthy_string].
  rewrite bool_decide_eq_false_2 by done. cbn [negb]. done.
Qed.

Lemma login_after_register_witness :
  let sha256_hex := λ s : string, "h(" +:+ s +:+ ")" in
  let bcrypt_hash := λ s : string, "b(" +:+ s +:+ ")" in
  let bcrypt_compare := λ p h : string, bool_decide (h = "b(" +:+ p +:+ ")") in
  let jwt_sign := λ userId email secret : string, userId +:+ "." +:+ email in
  let draws := {| user_uuid := "user-1"; key_uuid := "key-1";
                  randomBytes := replicate 32 Byte.xa7 |} in
  let body := {| body_email := Some "a@example.org";
                 body_password := Some "correct horse";
                 body_name := Some "A"; body_company := None |} in
  let res := register sha256_hex bcrypt_hash draws body
                      {| pool := true; users := []; api_keys := [] |} in
  login bcrypt_compare jwt_sign (Some "s3cret")
        {| login_email := Some "a@example.org";
           login_password := Some "correct horse" |} (snd res)
  = (LoggedIn "user-1.a@example.org"
              {| id := "user-1"; email := "a@example.org"; name := Some "A";
                 company := None; plan := "free"; isActive := true |},
     snd res).
Proof.
  intros sha256_hex bcrypt_hash bcrypt_compare jwt_sign draws body res.
  exact (login_after_register sha256_hex bcrypt_hash bcrypt_compare jwt_sign draws body
           {| pool := true; users := []; api_keys := [] |} _ _ (snd res) "s3cret"
           eq_refl eq_refl ltac:(discriminate)).
Defined.

(** X14.  Login answers 200 only to a matching password, and tells nothing
    else apart.  Whatever the request and the tables, the route never changes
    the tables; a 200 means that [users] holds an active row with the given
    email whose stored hash [bcrypt.compare] accepts for the given password,
    and the user object is that row's; every other answer is one of 400
    [MISSING_CREDENTIALS], 401 [INVALID_CREDENTIALS] and 500 [LOGIN_ERROR],
    and on connected tables with both fields given, an unknown (or inactive)
    email and a wrong password get the same 401 [INVALID_CREDENTIALS]. *)
Theorem login_is_sound bcrypt_compare jwt_sign JWT_SECRET body tb :
  let res := login bcrypt_compare jwt_sign JWT_SECRET body tb in
  snd res = tb
  ∧ match fst res with
    | LoggedIn token user =>
        ∃ u stored password,
          u ∈ users tb
          ∧ login_email body = Some (UserRow.email u)
          ∧ login_password body = Some password
          ∧ UserRow.is_active u = true
          ∧ UserRow.password_hash u = Some stored
          ∧ bcrypt_compare password stored = true
          ∧ user = public u
    | LoginError status code =>
        (status, code) ∈ [ (400, "MISSING_CREDENTIALS"); (401, "INVALID_CREDENTIALS");
                           (500, "LOGIN_ERROR") ]
        ∧ (pool tb = true →
           truthy_string (login_email body) = true →
           truthy_string (login_password body) = true →
           (∀ u, u ∈ users tb → UserRow.email u = default "" (login_email body) →
                 UserRow.is_active u = true →
                 ∃ stored, UserRow.password_hash u = Some stored
                           ∧ bcrypt_compare (default "" (login_password body)) stored
                             = false) →
           status = 401 ∧ code = "INVALID_CREDENTIALS")
    end.
Proof.
  intros res. subst res. unfold login, try_catch.
  destruct (truthy_string (login_email body)) eqn:He; cbn [negb orb];
    [|split; [done|]; split; [set_solver | done]].
  destruct (truthy_string (login_password body)) eqn:Hp; cbn [negb orb];
    [|split; [done|]; split; [set_solver | done]].
  apply truthy_string_Some in He as (e & He & _).
  apply truthy_string_Some in Hp as (p & Hp & _).
  rewrite He, Hp. cbn [default from_option Datatypes.id].
  unfold bind, queryOne_user, ret, throw.
  destruct (pool tb) eqn:Hpool; [|split; [done|]; split; [set_solver | done]].
  destruct (head (List.filter (λ u, bool_decide (UserRow.email u = e)
                                    && UserRow.is_active u) (users tb)))
    as [u|] eqn:Hfound;
    [|cbn [fst snd]; split; [done|]; split; [set_solver | by intros]].
  apply head_filter_Some in Hfound as [Hin Hmatch].
  apply andb_prop in Hmatch as [Hmail%bool_decide_eq_true Hact].
  destruct (UserRow.password_hash u) as [stored|] eqn:Hstored.
  - destruct (bcrypt_compare p stored) eqn:Hcmp; cbn [negb].
    + destruct (truthy_string JWT_SECRET) eqn:Hs; cbn [negb fst snd].
      * split; [done|]. exists u, stored, p. subst e. by repeat split.
      * split; [done|]. split; [set_solver|].
        intros _ _ _ Hall. destruct (Hall u Hin Hmail Hact) as (stored' & Hs' & Hc').
        congruence.
    + cbn [fst snd]. split; [done|]. split; [set_solver | by intros].
  - cbn [fst snd]. split; [done|]. split; [set_solver|].
    intros _ _ _ Hall. destruct (Hall u Hin Hmail Hact) as (stored' & Hs' & _).
    congruence.
Qed.

End AccountFacts.

(** ** More on the confidence score *)

Module ScoreFacts.

Import Pipeline Aux ConfidenceFacts.

(** [x / 10] as [x * (1 # 10)], for [lra]. *)
Local Ltac tenths :=
  unfold Qdiv in *; change (/ 10)%Q with (1 # 10)%Q in *; lra.

Lemma count_ge n m : (m ≤ n)%nat → (count m <= count n)%Q.
Proof. intros H. unfold count. rewrite <- Zle_Qle. lia. Qed.

Lemma count_self n : (0 < n)%nat → (count n / count n == 1)%Q.
Proof.
  intros H. apply Qmult_inv_r. intros Hz.
  pose proof (count_ge n 1 ltac:(lia)) as H1.
  change (count 1) with 1%Q in H1. rewrite Hz in H1. by apply H1.
Qed.

(** The base and the size bonus are a floor of the score. *)
Lemma score_floor processedQuery tracks :
  tracks ≠ [] →
  (0.5 + Qmin (count (length tracks) / 10) 0.3
   <= calculateConfidenceScore processedQuery tracks <= 1)%Q.
Proof.
  intros Hne. unfold calculateConfidenceScore.
  destruct (length tracks =? 0)%nat eqn:Hlen.
  { apply Nat.eqb_eq in Hlen. by destruct tracks. }
  set (n := length tracks).
  set (analyzed := List.filter is_analyzed tracks).
  pose proof (share_nonneg (length analyzed) n) as Ha.
  destruct (Q.min_spec (count n / 10) 0.3) as [[Hy1 Hy2]|[Hy1 Hy2]].
  all: assert (Hfin : ∀ s, (0.5 + Qmin (count n / 10) 0.3 <= s)%Q →
                      (0.5 + Qmin (count n / 10) 0.3 <= Qmin s 1.0 <= 1)%Q)
         by (intros s Hs; destruct (Q.min_spec s 1.0) as [[? Hm]|[? Hm]];
             rewrite Hm; split; lra).
  all: apply Hfin.
  all: destruct (ProcessedQuery.filters processedQuery ≫= ProcessedQuery.bpm)
         as [range|];
       [pose proof (share_nonneg
                      (length (List.filter (bpm_matches range) analyzed))
                      (length analyzed))|];
       repeat match goal with |- context [if ?b then _ else _] => destruct b end;
       lra.
Qed.

(** X15.  The confidence score has a floor.  It is 0 exactly for an empty
    track list; for any query it is at least 0.6 as soon as there is one
    track and at least 0.8 with three or more, whatever became of their
    analysis; and with three or more tracks that are all analyzed it is 1. *)
Theorem confidence_floor processedQuery tracks :
  ((calculateConfidenceScore processedQuery tracks == 0)%Q ↔ tracks = [])
  ∧ (tracks ≠ [] → (0.6 <= calculateConfidenceScore processedQuery tracks <= 1)%Q)
  ∧ ((3 ≤ length tracks)%nat →
     (0.8 <= calculateConfidenceScore processedQuery tracks)%Q)
  ∧ ((3 ≤ length tracks)%nat →
     Forall (λ t, Track.analysisStatus t = Track.completed) tracks →
     (calculateConfidenceScore processedQuery tracks == 1)%Q).
Proof.
  assert (Hone : tracks ≠ [] →
            (0.6 <= calculateConfidenceScore processedQuery tracks <= 1)%Q).
  { intros Hne. pose proof (score_floor processedQuery tracks Hne) as [Hlo Hhi].
    split; [|done].
    pose proof (count_ge (length tracks) 1) as H1. change (count 1) with 1%Q in H1.
    assert (Hn : (1 <= count (length tracks))%Q).
    { apply H1. destruct tracks; [done | cbn; lia]. }
    destruct (Q.min_spec (count (length tracks) / 10) 0.3) as [[? Hm]|[? Hm]];
      rewrite Hm in Hlo; tenths. }
  assert (Hthree : (3 ≤ length tracks)%nat →
            (0.8 <= calculateConfidenceScore processedQuery tracks)%Q).
  { intros H3. assert (Hne : tracks ≠ []) by (intros ->; cbn in H3; lia).
    pose proof (score_floor processedQuery tracks Hne) as [Hlo Hhi].
    pose proof (count_ge (length tracks) 3 H3) as Hn. change (count 3) with 3%Q in Hn.
    destruct (Q.min_spec (count (length tracks) / 10) 0.3) as [[? Hm]|[? Hm]];
      rewrite Hm in Hlo; tenths. }
  split; [|split; [done|split; [done|]]].
  - split.
    + intros Hz. destruct tracks as [|t tracks]; [done|]. exfalso.
      destruct (Hone ltac:(done)) as [Hlo _]. rewrite Hz in Hlo. by apply Hlo.
    + by intros ->.
  - intros H3 Hall. assert (Hne : tracks ≠ []) by (intros ->; cbn in H3; lia).
    pose proof (score_floor processedQuery tracks Hne) as [_ Hhi].
    apply Qle_antisym; [done|].
    unfold calculateConfidenceScore in *.
    destruct (length tracks =? 0)%nat eqn:Hlen.
    { apply Nat.eqb_eq in Hlen. lia. }
    assert (Hfilter : List.filter is_analyzed tracks = tracks).
    { clear -Hall. induction Hall as [|t l Ht _ IH]; [done|]. cbn.
      unfold is_analyzed at 1. rewrite bool_decide_eq_true_2 by done. by rewrite IH. }
    rewrite Hfilter in *.
    assert (Hpos : (0 <? length tracks)%nat = true) by (apply Nat.ltb_lt; lia).
    rewrite Hpos in *.
    pose proof (count_self (length tracks) ltac:(lia)) as Hself.
    pose proof (count_ge (length tracks) 3 H3) as Hn. change (count 3) with 3%Q in Hn.
    assert (Hbonus : (Qmin (count (length tracks) / 10) 0.3 == 0.3)%Q).
    { destruct (Q.min_spec (count (length tracks) / 10) 0.3) as [[? Hm]|[? Hm]];
        [tenths | done]. }
    assert (Hfin : ∀ s, (1 <= s)%Q → (1 <= Qmin s 1.0)%Q).
    { intros s Hs. destruct (Q.min_spec s 1.0) as [[? Hm]|[? Hm]]; rewrite Hm; lra. }
    apply Hfin.
    destruct (ProcessedQuery.filters processedQuery ≫= ProcessedQuery.bpm)
      as [range|].
    + pose proof (share_nonneg (length (List.filter (bpm_matches range) tracks))
                    (length tracks)).
      destruct (0 <? length (List.filter (bpm_matches range) tracks))%nat;
        rewrite Hbonus, Hself; lra.
    + rewrite Hbonus, Hself. lra.
Qed.

End ScoreFacts.

(** ** The answers of [processMusic] *)

Module ResponseFacts.

Import Pipeline Aux JSFacts SearchFacts PipelineFacts.

Local Abbreviation yid := YouTubeSearchResult.id.

Local Abbreviation save_all now :=
  (foldl (λ db t, snd (Database.saveTrackToDatabase now t db))).

(** The track stage in one equation: the tracks of the results whose
    processing succeeds, each saved in turn. *)
Lemma track_stage_run env a q uniqueResults : ∀ index tracks db,
  track_stage env a q index uniqueResults tracks db
  = (Ok (tracks ++ successes env a q index uniqueResults),
     save_all (now env) db (successes env a q index uniqueResults)).
Proof.
  induction uniqueResults as [|r rest IH]; intros index tracks db;
    cbn [track_stage successes].
  - by rewrite app_nil_r.
  - destruct (make_track env a q index r) as [t|e].
    + unfold bind.
      destruct (saveTrackToDatabase_ok (now env) t db) as [db1 Hsave].
      rewrite Hsave, IH, <- app_assoc. cbn [foldl]. by rewrite Hsave.
    + apply IH.
Qed.

Lemma successes_ids env a q uniqueResults : ∀ index,
  (Track.youtubeId <$> successes env a q index uniqueResults)
    `sublist_of` (yid <$> uniqueResults).
Proof.
  induction uniqueResults as [|r rest IH]; intros index; cbn [successes]; [done|].
  destruct (make_track env a q index r) as [t|e] eqn:Hm.
  - cbn [fmap list_fmap]. rewrite (make_track_youtubeId _ _ _ _ _ _ Hm).
    apply sublist_skip, IH.
  - cbn [fmap list_fmap]. apply sublist_cons, IH.
Qed.

(** [processMusic] by cases on its stages. *)
Lemma processMusic_cases env body db :
  processMusic env body db =
    match request body with
    | None => (Failure 400 "INVALID_REQUEST", db)
    | Some userQuery =>
        if bool_decide (userQuery = "") then (Failure 400 "INVALID_REQUEST", db)
        else
          match processRequest env userQuery with
          | Throw _ => (Failure 500 "PROCESSING_ERROR", db)
          | Ok processedQuery =>
              match search_stage env processedQuery (default 10 (maxTracks body)) with
              | Throw _ => (Failure 500 "PROCESSING_ERROR", db)
              | Ok found =>
                  let tracks :=
                    successes env (default true (analyzeAudio body))
                      (default standard (downloadQuality body)) 0 (snd found) in
                  (Success {| tracks := tracks;
                              totalFound := length tracks;
                              processingSteps :=
                                [step "llm_processing"; step "youtube_search";
                                 step "track_processing"];
                              confidence :=
                                calculateConfidenceScore processedQuery tracks |},
                   save_all (now env) db tracks)
              end
          end
    end.
Proof.
  unfold processMusic, try_catch.
  destruct (request body) as [userQuery|]; [|done].
  destruct (bool_decide (userQuery = "")); [done|].
  unfold bind, lift, ret.
  destruct (processRequest env userQuery) as [processedQuery|e]; [|done].
  destruct (search_stage env processedQuery (default 10 (maxTracks body)))
    as [found|e]; [|done].
  rewrite track_stage_run. done.
Qed.

Lemma search_stage_unique env processedQuery maxTracks found :
  search_stage env processedQuery maxTracks = Ok found →
  NoDup (yid <$> snd found)
  ∧ (0 ≤ maxTracks → Z.of_nat (length (snd found)) ≤ maxTracks).
Proof.
  unfold search_stage.
  destruct (JS.Promise_all _ _) as [searchResults|e]; [|done].
  intros [= <-]. cbn [snd]. split; [|apply slice0_length].
  pose proof (slice0_prefix maxTracks (unique_by_id (concat searchResults))) as Hpre.
  destruct (first_of_each_id_spec (concat searchResults) ∅) as (Hnodup & _).
  rewrite <- unique_by_id_first in Hnodup.
  eapply sublist_NoDup; [exact Hnodup|].
  apply fmap_sublist. destruct Hpre as [k Hk]. rewrite Hk at 2.
  by apply sublist_inserts_r.
Qed.

(** X16.  What every answer of [processMusic] looks like.  A 200 carries at
    most [maxTracks] tracks (for a [maxTracks] that is not negative; 10 when
    it is absent), no two of them for the same YouTube id; [totalFound] is
    the number of tracks in the answer; the processing steps are always the
    same three, each marked completed; the confidence lies between 0 and 1.
    Any other answer is 400 [INVALID_REQUEST], which is given exactly for a
    missing or empty request text, or 500 [PROCESSING_ERROR]. *)
Theorem response_shape env body db :
  match fst (processMusic env body db) with
  | Success data =>
      (∃ userQuery, request body = Some userQuery ∧ userQuery ≠ "")
      ∧ totalFound data = length (tracks data)
      ∧ NoDup (Track.youtubeId <$> tracks data)
      ∧ (0 ≤ default 10 (maxTracks body) →
         Z.of_nat (length (tracks data)) ≤ default 10 (maxTracks body))
      ∧ processingSteps data
        = [ {| ProcessingStep.step := "llm_processing";
               ProcessingStep.status := ProcessingStep.completed |};
            {| ProcessingStep.step := "youtube_search";
               ProcessingStep.status := ProcessingStep.completed |};
            {| ProcessingStep.step := "track_processing";
               ProcessingStep.status := ProcessingStep.completed |} ]
      ∧ (0 <= confidence data <= 1)%Q
  | Failure status code =>
      (status = 400 ∧ code = "INVALID_REQUEST"
       ∧ (request body = None ∨ request body = Some ""))
      ∨ (status = 500 ∧ code = "PROCESSING_ERROR"
         ∧ ∃ userQuery, request body = Some userQuery ∧ userQuery ≠ "")
  end.
Proof.
  rewrite processMusic_cases.
  destruct (request body) as [userQuery|]; [|cbn; left; auto].
  case_bool_decide as Hq; [subst; cbn; left; auto|].
  destruct (processRequest env userQuery) as [processedQuery|e];
    [|cbn; right; eauto 6].
  destruct (search_stage env processedQuery (default 10 (maxTracks body)))
    as [found|e] eqn:Hsearch; [|cbn; right; eauto 6].
  cbv zeta. cbn [fst tracks totalFound processingSteps confidence].
  destruct (search_stage_unique _ _ _ _ Hsearch) as [Hnodup Hlen].
  pose proof (successes_ids env (default true (analyzeAudio body))
                (default standard (downloadQuality body)) (snd found) 0) as Hsub.
  split; [eauto|]. split; [done|].
  split; [by eapply sublist_NoDup; [exact Hnodup|]|].
  split.
  { intros H0. specialize (Hlen H0). apply sublist_length in Hsub.
    rewrite !length_fmap in Hsub. lia. }
  split; [done|].
  destruct (successes env (default true (analyzeAudio body))
              (default standard (downloadQuality body)) 0 (snd found))
    as [|t ts] eqn:Hs; [done|].
  destruct (ScoreFacts.score_floor processedQuery (t :: ts) ltac:(done)) as [Hlo Hhi].
  split; [|done].
  destruct (Q.min_spec (count (length (t :: ts)) / 10) 0.3) as [[? Hm]|[? Hm]];
    rewrite Hm in Hlo; [|lra].
  pose proof (ConfidenceFacts.count_nonneg (length (t :: ts))).
  unfold Qdiv in *. change (/ 10)%Q with (1 # 10)%Q in *. lra.
Qed.




Lemma successes_made env a q uniqueResults : ∀ index t,
  t ∈ successes env a q index uniqueResults →
  ∃ i r, r ∈ uniqueResults ∧ make_track env a q i r = Ok t.
Proof.
  induction uniqueResults as [|r rest IH]; intros index t; cbn [successes].
  - by intros ?%elem_of_nil.
  - destruct (make_track env a q index r) as [t0|e] eqn:Hm.
    + intros [->|Hin]%elem_of_cons.
      * exists index, r. split; [left|done].
      * destruct (IH _ _ Hin) as (i & r' & Hr' & Hmade).
        exists i, r'. split; [by right|done].
    + intros Hin. destruct (IH _ _ Hin) as (i & r' & Hr' & Hmade).
      exists i, r'. split; [by right|done].
Qed.

(** X18.  What the analysis flag means for the tracks of a 200.  With
    [analyzeAudio] false no track is analysed: each is [pending], without
    audio URL and without completion date.  Otherwise (true, or absent) no
    track is left [pending]: a track is [completed], with the download URL as
    its audio URL, the completion date set and the confidences of the
    analysis, exactly when both the download URL and the analysis of that URL
    were obtained; when either fails the track is still part of the answer,
    marked [failed], with no confidences and no waveform, and with the audio
    URL only if the download URL had been obtained. *)
Theorem analysis_flag env body db :
  match fst (processMusic env body db) with
  | Success data =>
      let downloadQuality := default standard (downloadQuality body) in
      Forall
        (λ t,
           if default true (analyzeAudio body) then
             match getDownloadUrl env (Track.youtubeId t) downloadQuality with
             | Ok url =>
                 match analyzeFromUrl env url with
                 | Ok analysis =>
                     Track.analysisStatus t = Track.completed
                     ∧ Track.audioUrl t = Some url
                     ∧ Track.analysisCompletedAt t = Some (now env)
                     ∧ Track.tempoConfidence t
                       = AudioAnalysisResult.tempoConfidence analysis
                     ∧ Track.keyConfidence t
                       = AudioAnalysisResult.keyConfidence analysis
                 | Throw _ =>
                     Track.analysisStatus t = Track.failed
                     ∧ Track.audioUrl t = Some url
                     ∧ Track.analysisCompletedAt t = None
                     ∧ Track.tempoConfidence t = None
                     ∧ Track.waveformPeaks t = None
                 end
             | Throw _ =>
                 Track.analysisStatus t = Track.failed
                 ∧ Track.audioUrl t = None
                 ∧ Track.analysisCompletedAt t = None
                 ∧ Track.tempoConfidence t = None
                 ∧ Track.waveformPeaks t = None
             end
           else
             Track.analysisStatus t = Track.pending
             ∧ Track.audioUrl t = None
             ∧ Track.analysisCompletedAt t = None
             ∧ Track.tempoConfidence t = None
             ∧ Track.waveformPeaks t = None)
        (tracks data)
  | Failure _ _ => True
  end.
Proof.
  rewrite processMusic_cases.
  destruct (request body) as [userQuery|]; [|done].
  case_bool_decide; [done|].
  destruct (processRequest env userQuery) as [processedQuery|e]; [|done].
  destruct (search_stage env processedQuery (default 10 (maxTracks body)))
    as [found|e]; [|done].
  cbv zeta. cbn [fst tracks].
  apply Forall_forall. intros t Ht.
  apply successes_made in Ht as (i & r & _ & Hmade).
  pose proof (make_track_youtubeId _ _ _ _ _ _ Hmade) as Hid. rewrite Hid.
  unfold make_track in Hmade.
  destruct (extractMetadata env _ _) as [llmMetadata|]; [|done].
  destruct (default true (analyzeAudio body)).
  - destruct (getDownloadUrl env (yid r) _) as [url|].
    + destruct (analyzeFromUrl env url) as [analysis|];
        injection Hmade as <-; by repeat split.
    + injection Hmade as <-. by repeat split.
  - injection Hmade as <-. by repeat split.
Qed.

End ResponseFacts.

(** ** The audio analysis service *)

Module AudioFacts.

Import AudioAnalysis.

Lemma Math_round_bounds x lo hi :
  (inject_Z lo <= x)%Q → (x <= inject_Z hi)%Q → lo ≤ Math_round x ≤ hi.
Proof.
  intros Hlo Hhi. unfold Math_round.
  pose proof (Qfloor_le (x + (1 # 2))) as Hle.
  pose proof (Qlt_floor (x + (1 # 2))) as Hlt.
  rewrite inject_Z_plus in Hlt. change (inject_Z 1) with 1%Q in Hlt.
  split.
  - assert (H : (inject_Z lo < inject_Z (Qfloor (x + (1 # 2))) + 1)%Q) by lra.
    rewrite <- (inject_Z_plus _ 1), <- Zlt_Qlt in H. lia.
  - assert (H : (inject_Z (Qfloor (x + (1 # 2))) < inject_Z hi + 1)%Q) by lra.
    rewrite <- (inject_Z_plus _ 1), <- Zlt_Qlt in H. lia.
Qed.

Lemma gt_true a b : gt a b = true ↔ (b < a)%Q.
Proof.
  unfold gt. rewrite negb_true_iff. split.
  - intros H. apply Qnot_le_lt. intros Hle. apply Qle_bool_iff in Hle. congruence.
  - intros H. destruct (Qle_bool a b) eqn:Hle; [|done].
    apply Qle_bool_iff in Hle. lra.
Qed.

Lemma gt_false a b : gt a b = false ↔ (a <= b)%Q.
Proof.
  unfold gt. rewrite negb_false_iff. apply Qle_bool_iff.
Qed.

(** X19.  The tempo estimate stays within fixed bands.  For a recording of at
    least 60 s and an energy between 0 and 1, [estimateBPMFromDuration]
    returns a tempo between 80 and 132: between 120 and 132 for an energy
    above 0.7, between 116 and 128 for an energy above 0.4 and up to 0.7, and
    between 80 and 96 otherwise.  The estimate is not monotone in the energy:
    it is 128 at energy 0.7 and 120 just above. *)
Theorem tempo_estimate_bands duration energy :
  (60 <= duration)%Q →
  (0 <= energy <= 1)%Q →
  ∃ bpm,
    estimateBPMFromDuration duration energy = Some bpm
    ∧ 80 ≤ bpm ≤ 132
    ∧ ((0.7 < energy)%Q → 120 ≤ bpm ≤ 132)
    ∧ ((0.4 < energy)%Q → (energy <= 0.7)%Q → 116 ≤ bpm ≤ 128)
    ∧ ((energy <= 0.4)%Q → 80 ≤ bpm ≤ 96)
    ∧ estimateBPMFromDuration duration 0.7 = Some 128
    ∧ estimateBPMFromDuration duration 0.71 = Some 120.
Proof.
  intros Hd [He0 He1]. unfold estimateBPMFromDuration.
  rewrite (proj2 (Qle_bool_iff 60 duration) Hd).
  assert (Hhigh : (0.7 < energy)%Q →
            120 ≤ Math_round (120 + (energy - 0.7) * 40) ≤ 132).
  { intros H. apply Math_round_bounds; unfold inject_Z; lra. }
  assert (Hmid : (0.4 < energy)%Q → (energy <= 0.7)%Q →
            116 ≤ Math_round (100 + energy * 40) ≤ 128).
  { intros H H'. apply Math_round_bounds; unfold inject_Z; lra. }
  assert (Hlow : (energy <= 0.4)%Q → 80 ≤ Math_round (80 + energy * 40) ≤ 96).
  { intros H. apply Math_round_bounds; unfold inject_Z; lra. }
  destruct (gt energy 0.7) eqn:H7.
  - apply gt_true in H7. eexists. split; [done|].
    split; [specialize (Hhigh H7); lia|].
    split; [done|]. split; [intros; lra|]. split; [intros; lra|]. done.
  - apply gt_false in H7. destruct (gt energy 0.4) eqn:H4.
    + apply gt_true in H4. eexists. split; [done|].
      split; [specialize (Hmid H4 H7); lia|].
      split; [intros; lra|]. split; [done|]. split; [intros; lra|]. done.
    + apply gt_false in H4. eexists. split; [done|].
      split; [specialize (Hlow H4); lia|].
      split; [intros; lra|]. split; [intros; lra|]. done.
Qed.

Lemma tempo_estimate_bands_witness :
  ∃ bpm,
    estimateBPMFromDuration 215 0.55 = Some bpm
    ∧ 80 ≤ bpm ≤ 132
    ∧ ((0.7 < 0.55)%Q → 120 ≤ bpm ≤ 132)
    ∧ ((0.4 < 0.55)%Q → (0.55 <= 0.7)%Q → 116 ≤ bpm ≤ 128)
    ∧ ((0.55 <= 0.4)%Q → 80 ≤ bpm ≤ 96)
    ∧ estimateBPMFromDuration 215 0.7 = Some 128
    ∧ estimateBPMFromDuration 215 0.71 = Some 120.
Proof.
  apply (tempo_estimate_bands 215 0.55); [done|]. split; done.
Defined.

(** X20.  [calculateEnergyLevel] never leaves the range from 0.2 to 1.  For
    any tempo and loudness, given or not, the result lies between 0.2 and 1
    (the final clamp to 0 is never needed); it is 0.5 when neither is given,
    and with a tempo only it is one of 0.4, 0.6, 0.7 and 0.8. *)
Theorem energy_level_range options :
  (0.2 <= calculateEnergyLevel options <= 1)%Q
  ∧ (truthy_number (bpm options) = false → loudness options = None →
     (calculateEnergyLevel options == 0.5)%Q)
  ∧ (truthy_number (bpm options) = true → loudness options = None →
     (calculateEnergyLevel options == 0.4)%Q ∨ (calculateEnergyLevel options == 0.6)%Q
     ∨ (calculateEnergyLevel options == 0.7)%Q ∨ (calculateEnergyLevel options == 0.8)%Q).
Proof.
  unfold calculateEnergyLevel.
  assert (Hclamp : ∀ e, (0.2 <= e <= 1)%Q → (Qmax 0 (Qmin 1 e) == e)%Q).
  { intros e [H1 H2].
    destruct (Q.min_spec 1 e) as [[? Hm]|[? Hm]];
      destruct (Q.max_spec 0 (Qmin 1 e)) as [[? Hx]|[? Hx]]; rewrite Hx, ?Hm; lra. }
  assert (Hnorm : ∀ l, (0 <= Qmax 0 (Qmin 1 ((l + 30) / 20)) <= 1)%Q).
  { intros l. destruct (Q.min_spec 1 ((l + 30) / 20)) as [[? Hm]|[? Hm]];
      destruct (Q.max_spec 0 (Qmin 1 ((l + 30) / 20))) as [[? Hx]|[? Hx]];
      rewrite Hx, ?Hm; lra. }
  split; [|split].
  - set (base := if truthy_number (bpm options) then _ else _).
    assert (Hbase : (0.4 <= base <= 0.8)%Q).
    { subst base. destruct (truthy_number (bpm options)); [|lra].
      repeat match goal with |- context [if ?b then _ else _] => destruct b end; lra. }
    destruct (loudness options) as [l|].
    + specialize (Hnorm l).
      rewrite Hclamp; nra.
    + rewrite Hclamp; lra.
  - intros -> ->. by rewrite Hclamp by lra.
  - intros -> ->.
    repeat match goal with |- context [if ?b then _ else _] => destruct b end;
      rewrite Hclamp by lra; [do 3 right | do 2 right; left | right; left | left]; lra.
Qed.

(** X21.  The Camelot table follows the circle of fifths.  For each of the
    twelve pitch classes, as the table spells them, [convertToCamelot] gives
    the major key the wheel position reached from 8 (C major) by one step per
    fifth, with the letter B, and gives the minor key the position of its
    relative major (three semitones up), with the letter A; the 24 codes are
    pairwise different.  A key text that is empty, absent, or neither in the
    table nor a member of [Object.prototype] has no code; for the inherited
    names the lookup does not return a code but the inherited member. *)
Theorem camelot_wheel :
  (∀ p name, pitch_names !! p = Some name →
     convertToCamelot (Some (name +:+ " major"))
     = Some (Code (pretty (wheel_position p) +:+ "B"))
     ∧ convertToCamelot (Some (name +:+ " minor"))
       = Some (Code (pretty (wheel_position (p + 3)) +:+ "A")))
  ∧ NoDup (map_to_list camelotMap).*2
  ∧ (∀ key, convertToCamelot key = None
            ↔ key = None ∨ key = Some ""
              ∨ ∃ k, key = Some k ∧ camelotMap !! k = None
                     ∧ k ∉ RateLimit.Object_prototype)
  ∧ (∀ k, k ∈ RateLimit.Object_prototype →
          convertToCamelot (Some k) = Some (Inherited k)).
Proof.
  split; [|split; [|split]].
  - intros p name Hp.
    do 12 (destruct p as [|p]; [injection Hp as <-; split; vm_compute; reflexivity|]).
    done.
  - vm_compute. repeat constructor; set_solver.
  - intros [k|]; [|cbn; split; auto].
    unfold convertToCamelot. cbn [truthy_string default from_option Datatypes.id].
    destruct (decide (k = "")) as [->|Hne].
    { cbn. split; auto. }
    rewrite bool_decide_eq_false_2 by done. cbn [negb].
    destruct (camelotMap !! k) as [code|] eqn:Hk.
    + assert (Hcode : code ≠ "").
      { apply elem_of_list_to_map_2 in Hk.
        repeat (apply elem_of_cons in Hk as [[= _ ->] | Hk]; [done|]).
        by apply elem_of_nil in Hk. }
      rewrite bool_decide_eq_false_2 by done. split; [done|].
      intros [H|[H|(k' & [= <-] & H & _)]]; congruence.
    + case_bool_decide as Hp.
      * split; [done|]. intros [H|[H|(k' & [= <-] & _ & H)]]; congruence.
      * split; [|done]. intros _. right. right. by exists k.
  - intros k Hk. unfold convertToCamelot.
    repeat (apply elem_of_cons in Hk as [-> | Hk]; [vm_compute; reflexivity|]).
    by apply elem_of_nil in Hk.
Qed.

(** X22.  An analysis always completes once the cache is reachable, and its
    result is served from the cache for a day.  On a connected Redis without
    a live entry for the URL, [analyzeFromUrl] resolves whatever becomes of
    its three analyses, also when all of them reject; the tempo confidence is
    0.8 when the result has a tempo and 0 otherwise, the key confidence 0.7
    when it has a key and 0 otherwise; a tempo found by AudD is kept in
    preference to the estimate of the basic analysis; and a second call for
    the same URL before 86400 s have passed returns the same result from the
    cache, with no analysis run and the store unchanged. *)
Theorem analysis_completes_and_is_cached base64 analyzers others t0 t1 audioUrl s :
  JsonStore.client s = true →
  (∀ v deadline, JsonStore.data s !! cacheKey base64 audioUrl = Some (v, deadline) →
                 JsonStore.live t0 deadline = false) →
  t1 < t0 + 86400 * 1000 →
  let audd := analyzeWithAudD analyzers audioUrl in
  let result := combine audd (basicAudioAnalysis analyzers audioUrl)
                        (generateWaveform analyzers audioUrl) in
  ∃ s1,
    analyzeFromUrl base64 analyzers t0 audioUrl s = (Ok result, s1)
    ∧ analyzeFromUrl base64 others t1 audioUrl s1 = (Ok result, s1)
    ∧ AudioAnalysisResult.tempoConfidence result
      = Some (if truthy_number (AudioAnalysisResult.bpm result) then 0.8%Q else 0%Q)
    ∧ AudioAnalysisResult.keyConfidence result
      = Some (if truthy_string (AudioAnalysisResult.musicalKey result)
              then 0.7%Q else 0%Q)
    ∧ (∀ value, audd = Ok value →
         truthy_number (AudioAnalysisResult.bpm value) = true →
         AudioAnalysisResult.bpm result = AudioAnalysisResult.bpm value)
    ∧ ((∃ e, audd = Throw e) →
       (∃ e, basicAudioAnalysis analyzers audioUrl = Throw e) →
       (∃ e, generateWaveform analyzers audioUrl = Throw e) →
       result = {| AudioAnalysisResult.bpm := None;
                   AudioAnalysisResult.musicalKey := None;
                   AudioAnalysisResult.camelotKey := None;
                   AudioAnalysisResult.energyLevel := None;
                   AudioAnalysisResult.loudness := None;
                   AudioAnalysisResult.tempoConfidence := Some 0%Q;
                   AudioAnalysisResult.keyConfidence := Some 0%Q;
                   AudioAnalysisResult.waveformPeaks := None;
                   AudioAnalysisResult.genre := None;
                   AudioAnalysisResult.mood := None |}).
Proof.
  intros Hc Hmiss Ht1 audd result.
  set (key := cacheKey base64 audioUrl).
  assert (Hfirst : analyzeFromUrl base64 analyzers t0 audioUrl s
                   = (Ok result,
                      JsonStore.State true
                        (<[key := (result, Some (t0 + 86400 * 1000))]>
                           (JsonStore.data s)))).
  { unfold analyzeFromUrl, bind. rewrite StoreFacts.getJson_connected by done. fold key.
    assert (Hnone : match JsonStore.data s !! key with
                    | Some (v, deadline) =>
                        if JsonStore.live t0 deadline then Some v else None
                    | None => None
                    end = None).
    { destruct (JsonStore.data s !! key) as [[v deadline]|] eqn:Hk; [|done].
      by rewrite (Hmiss v deadline Hk). }
    rewrite Hnone. unfold rethrow_as, bind. fold audd result.
    by rewrite StoreFacts.setJson_connected. }
  eexists. split; [exact Hfirst|]. split.
  { unfold analyzeFromUrl, bind. rewrite StoreFacts.getJson_connected by done. fold key.
    cbn [JsonStore.data]. rewrite lookup_insert_eq. unfold JsonStore.live.
    by rewrite (proj2 (Z.ltb_lt _ _) Ht1). }
  split; [by subst result|]. split; [by subst result|]. split.
  - intros value Haudd Hbpm. subst result. rewrite Haudd. unfold combine.
    cbn [AudioAnalysisResult.bpm]. rewrite Hbpm. cbn [negb andb].
    by destruct (basicAudioAnalysis analyzers audioUrl).
  - intros [e1 H1] [e2 H2] [e3 H3]. subst result. by rewrite H1, H2, H3.
Qed.

Lemma analysis_completes_and_is_cached_witness :
  let failing := {| analyzeWithAudD := λ _, Throw "timeout";
                    basicAudioAnalysis := λ _, Throw "ffmpeg";
                    generateWaveform := λ _, Throw "ffmpeg" |} in
  let s := JsonStore.State true ∅ in
  let result := combine (Throw "timeout") (Throw "ffmpeg") (Throw "ffmpeg") in
  ∃ s1,
    analyzeFromUrl (λ u, u) failing 0 "https://example.org/a.mp3" s = (Ok result, s1)
    ∧ analyzeFromUrl (λ u, u) failing 86399999 "https://example.org/a.mp3" s1
      = (Ok result, s1)
    ∧ AudioAnalysisResult.tempoConfidence result = Some 0%Q
    ∧ AudioAnalysisResult.keyConfidence result = Some 0%Q
    ∧ (∀ value, @Throw AudioAnalysisResult.t "timeout" = Ok value →
         truthy_number (AudioAnalysisResult.bpm value) = true →
         AudioAnalysisResult.bpm result = AudioAnalysisResult.bpm value)
    ∧ ((∃ e, @Throw AudioAnalysisResult.t "timeout" = Throw e) →
       (∃ e, @Throw AudioAnalysisResult.t "ffmpeg" = Throw e) →
       (∃ e, @Throw (list Q) "ffmpeg" = Throw e) →
       result = {| AudioAnalysisResult.bpm := None;
                   AudioAnalysisResult.musicalKey := None;
                   AudioAnalysisResult.camelotKey := None;
                   AudioAnalysisResult.energyLevel := None;
                   AudioAnalysisResult.loudness := None;
                   AudioAnalysisResult.tempoConfidence := Some 0%Q;
                   AudioAnalysisResult.keyConfidence := Some 0%Q;
                   AudioAnalysisResult.waveformPeaks := None;
                   AudioAnalysisResult.genre := None;
                   AudioAnalysisResult.mood := None |}).
Proof.
  intros failing s.
  refine (analysis_completes_and_is_cached (λ u, u) failing failing 0 86399999
            "https://example.org/a.mp3" s eq_refl _ _).
  - intros v deadline H. vm_compute in H. discriminate.
  - lia.
Defined.

End AudioFacts.

(** ** The YouTube service: video ids and download formats *)

Module YouTubeFacts.

Import YouTube.

Lemma substring_length_le s : ∀ n m,
  (String.length (String.substring n m s) ≤ String.length s - n)%nat.
Proof.
  induction s as [|c s IH]; intros [|n] [|m]; cbn; try lia.
  - specialize (IH 0%nat m). lia.
  - apply IH.
  - apply IH.
Qed.

Lemma substring_all s : String.substring 0 (String.length s) s = s.
Proof. induction s as [|c s IH]; cbn; [done|]. by rewrite IH. Qed.

Lemma substring_app_l a : ∀ b,
  String.substring 0 (String.length a) (a +:+ b) = a.
Proof.
  induction a as [|c a IH]; intros b; cbn.
  - by destruct b.
  - change (String c a +:+ b) with (String c (a +:+ b)). cbn. by rewrite IH.
Qed.

Lemma string_length_app a b :
  String.length (a +:+ b) = (String.length a + String.length b)%nat.
Proof.
  induction a as [|c a IH]; [done|].
  change (String c a +:+ b) with (String c (a +:+ b)). cbn. by rewrite IH.
Qed.

Lemma skip_app a b : skip (String.length a) (a +:+ b) = b.
Proof.
  unfold skip. rewrite string_length_app.
  replace (String.length a + String.length b - String.length a)%nat
    with (String.length b) by lia.
  induction a as [|c a IH]; cbn; [apply substring_all|].
  change (String c a +:+ b) with (String c (a +:+ b)). cbn. apply IH.
Qed.

(** A group is returned only after the class check. *)
Lemma alternative_valid literal s group :
  alternative literal s = Some group →
  String.length group = 11%nat
  ∧ forallb id_char (list_ascii_of_string group) = true.
Proof.
  unfold alternative. destruct (String.prefix literal s); [|done].
  destruct (_ =? 11)%nat eqn:Hlen; [|done].
  destruct (forallb id_char _) eqn:Hall; [|done].
  intros [= <-]. split; [by apply Nat.eqb_eq|done].
Qed.

Lemma alternative_hit literal id rest :
  String.length id = 11%nat →
  forallb id_char (list_ascii_of_string id) = true →
  alternative literal (literal +:+ id +:+ rest) = Some id.
Proof.
  intros Hlen Hall. unfold alternative.
  assert (Hgroup : String.substring 0 11 (id +:+ rest) = id).
  { rewrite <- Hlen. apply substring_app_l. }
  rewrite QuotaFacts.prefix_app, skip_app, Hgroup, Hlen, Hall. done.
Qed.

Lemma alternative_short literal s :
  (String.length s < String.length literal + 11)%nat →
  alternative literal s = None.
Proof.
  intros Hshort. unfold alternative. destruct (String.prefix literal s); [|done].
  pose proof (substring_length_le (skip (String.length literal) s) 0 11) as H1.
  pose proof (substring_length_le s (String.length literal)
                (String.length s - String.length literal)) as H2.
  fold (skip (String.length literal) s) in H2.
  destruct (_ =? 11)%nat eqn:Hlen; [|done].
  apply Nat.eqb_eq in Hlen. lia.
Qed.

Lemma alternative_other_start a literal c s :
  a ≠ c → alternative (String a literal) (String c s) = None.
Proof.
  intros Hne. unfold alternative. cbn [String.prefix].
  by destruct (ascii_dec a c).
Qed.

Lemma search_other_start c s : c ≠ "y"%char → search (String c s) = search s.
Proof.
  intros Hne. cbn [search]. unfold match_here.
  by rewrite !alternative_other_start.
Qed.

Lemma search_short s : (String.length s < 20)%nat → search s = None.
Proof.
  induction s as [|c s IH]; intros Hlen.
  - cbn [search]. unfold match_here. by rewrite !alternative_short by (cbn; lia).
  - cbn [search]. unfold match_here.
    rewrite !alternative_short by (cbn in *; lia).
    apply IH. cbn in Hlen. lia.
Qed.

Lemma search_valid s : ∀ group,
  search s = Some group →
  String.length group = 11%nat
  ∧ forallb id_char (list_ascii_of_string group) = true.
Proof.
  assert (Hhere : ∀ t group, match_here t = Some group →
            String.length group = 11%nat
            ∧ forallb id_char (list_ascii_of_string group) = true).
  { intros t group. unfold match_here.
    destruct (alternative "youtube.com/watch?v=" t) eqn:H1;
      [intros [= <-]; by eapply alternative_valid|].
    destruct (alternative "youtu.be/" t) eqn:H2;
      [intros [= <-]; by eapply alternative_valid|].
    apply alternative_valid. }
  induction s as [|c s IH]; intros group; cbn [search].
  - destruct (match_here "") eqn:H; [|done]. intros [= <-]. by eapply Hhere.
  - destruct (match_here (String c s)) eqn:H; [intros [= <-]; by eapply Hhere|].
    apply IH.
Qed.

(** X23.  Video ids survive the trip through a URL.  Whatever
    [validateAndExtractId] returns is 11 characters of the id alphabet; and
    for every such id the function returns the id itself when given the bare
    id, the watch URL [https://www.youtube.com/watch?v=<id>] or the short URL
    [https://youtu.be/<id>].  In particular the [youtubeUrl] that the
    pipeline puts on a track leads back to the track's [youtubeId]. *)
Theorem video_id_round_trip id :
  String.length id = 11%nat →
  forallb id_char (list_ascii_of_string id) = true →
  validateAndExtractId id = Some id
  ∧ validateAndExtractId ("https://www.youtube.com/watch?v=" +:+ id) = Some id
  ∧ validateAndExtractId ("https://youtu.be/" +:+ id) = Some id
  ∧ (∀ env index ytResult,
       YouTubeSearchResult.id ytResult = id →
       Track.youtubeUrl (Pipeline.basic_track env index ytResult)
         ≫= validateAndExtractId
       = Some (Track.youtubeId (Pipeline.basic_track env index ytResult)))
  ∧ (∀ url found, validateAndExtractId url = Some found →
       String.length found = 11%nat
       ∧ forallb id_char (list_ascii_of_string found) = true).
Proof.
  intros Hlen Hall.
  assert (Hwatch : validateAndExtractId ("https://www.youtube.com/watch?v=" +:+ id)
                   = Some id).
  { unfold validateAndExtractId.
    change ("https://www.youtube.com/watch?v=" +:+ id)
      with (String "h" (String "t" (String "t" (String "p" (String "s" (String ":"
             (String "/" (String "/" (String "w" (String "w" (String "w" (String "."
                ("youtube.com/watch?v=" +:+ id))))))))))))).
    rewrite !search_other_start by done.
    assert (Hhere : match_here ("youtube.com/watch?v=" +:+ id) = Some id).
    { unfold match_here.
      replace ("youtube.com/watch?v=" +:+ id)
        with ("youtube.com/watch?v=" +:+ id +:+ "") at 1; cycle 1.
      { f_equal. clear. induction id as [|c s IH]; [done|].
        change (String c s +:+ "") with (String c (s +:+ "")). by rewrite IH. }
      by rewrite alternative_hit. }
    destruct id as [|c s]; [done|].
    change ("youtube.com/watch?v=" +:+ String c s)
      with (String "y" ("outube.com/watch?v=" +:+ String c s)) in *.
    cbn [search]. by rewrite Hhere. }
  split; [|split; [done|split; [|split]]].
  - unfold validateAndExtractId. rewrite search_short by lia.
    by rewrite Hlen, Hall.
  - unfold validateAndExtractId.
    change ("https://youtu.be/" +:+ id)
      with (String "h" (String "t" (String "t" (String "p" (String "s" (String ":"
             (String "/" (String "/" ("youtu.be/" +:+ id))))))))).
    rewrite !search_other_start by done.
    assert (Hhere : match_here ("youtu.be/" +:+ id) = Some id).
    { unfold match_here.
      assert (Hfirst : alternative "youtube.com/watch?v=" ("youtu.be/" +:+ id) = None).
      { unfold alternative.
        change ("youtu.be/" +:+ id)
          with (String "y" (String "o" (String "u" (String "t" (String "u"
                 (String "." ("be/" +:+ id))))))).
        reflexivity. }
      rewrite Hfirst.
      replace ("youtu.be/" +:+ id) with ("youtu.be/" +:+ id +:+ ""); cycle 1.
      { f_equal. clear. induction id as [|c s IH]; [done|].
        change (String c s +:+ "") with (String c (s +:+ "")). by rewrite IH. }
      by rewrite alternative_hit. }
    destruct id as [|c s]; [done|].
    change ("youtu.be/" +:+ String c s)
      with (String "y" ("outu.be/" +:+ String c s)) in *.
    cbn [search]. by rewrite Hhere.
  - intros env index ytResult Hid.
    cbn [Pipeline.basic_track Track.youtubeUrl Track.youtubeId mbind option_bind].
    by rewrite Hid.
  - intros url found. unfold validateAndExtractId.
    destruct (search url) as [group|] eqn:Hs.
    + intros [= <-]. by eapply search_valid.
    + destruct (String.length url =? 11)%nat eqn:Hl; [|done].
      destruct (forallb id_char (list_ascii_of_string url)) eqn:Ha; [|done].
      intros [= <-]. split; [by apply Nat.eqb_eq|done].
Qed.

Lemma video_id_round_trip_witness :
  validateAndExtractId "dQw4w9WgXcQ" = Some "dQw4w9WgXcQ"
  ∧ validateAndExtractId "https://www.youtube.com/watch?v=dQw4w9WgXcQ"
    = Some "dQw4w9WgXcQ"
  ∧ validateAndExtractId "https://youtu.be/dQw4w9WgXcQ" = Some "dQw4w9WgXcQ"
  ∧ (∀ env index ytResult,
       YouTubeSearchResult.id ytResult = "dQw4w9WgXcQ" →
       Track.youtubeUrl (Pipeline.basic_track env index ytResult)
         ≫= validateAndExtractId
       = Some (Track.youtubeId (Pipeline.basic_track env index ytResult)))
  ∧ (∀ url found, validateAndExtractId url = Some found →
       String.length found = 11%nat
       ∧ forallb id_char (list_ascii_of_string found) = true).
Proof. exact (video_id_round_trip "dQw4w9WgXcQ" eq_refl eq_refl). Defined.

Lemma highest_fold rest : ∀ first,
  let selected := foldl (λ best format,
                           if bitrate best <? bitrate format then format else best)
                        first rest in
  selected ∈ first :: rest
  ∧ ∀ format, format ∈ first :: rest → bitrate format ≤ bitrate selected.
Proof.
  induction rest as [|f rest IH]; intros first; cbn [foldl].
  - split; [left|]. intros format ->%list_elem_of_singleton. lia.
  - destruct (IH (if bitrate first <? bitrate f then f else first)) as [Hin Hmax].
    split.
    + apply elem_of_cons in Hin as [Heq|Hin]; [|by do 2 right].
      rewrite Heq. destruct (bitrate first <? bitrate f); [right; left | left].
    + intros format Hformat.
      assert (Hstep : bitrate first
                      ≤ bitrate (if bitrate first <? bitrate f then f else first)
                      ∧ bitrate f
                        ≤ bitrate (if bitrate first <? bitrate f then f else first)).
      { destruct (bitrate first <? bitrate f) eqn:Hlt;
          [apply Z.ltb_lt in Hlt | apply Z.ltb_ge in Hlt]; lia. }
      pose proof (Hmax _ ltac:(left)) as Hbest.
      apply elem_of_cons in Hformat as [->|Hformat]; [lia|].
      apply elem_of_cons in Hformat as [->|Hformat]; [lia|].
      apply Hmax. by right.
Qed.

(** X24.  Which format [getDownloadUrl] picks.  On a connected and empty
    cache, when the format list of the video was obtained: for an empty list
    the call throws [Failed to get download URL] for either quality and
    caches nothing; otherwise quality [high] picks a format of the largest
    bitrate (a missing bitrate counting as 0) and the same answer is served
    from the cache afterwards, and quality [standard] picks a format of at
    least 128 kbit/s when the list has one and the first format of the list
    when it has none; the answer is made from the picked format. *)
Theorem download_format_choice audio_formats now videoId formats s :
  JsonStore.client s = true →
  JsonStore.data s = ∅ →
  audio_formats videoId = Ok formats →
  match formats with
  | [] =>
      ∀ quality,
        getDownloadUrl audio_formats now videoId quality s
        = (Throw "Failed to get download URL", s)
  | first :: _ =>
      (∃ selected s1,
         getDownloadUrl audio_formats now videoId Pipeline.high s
         = (Ok (info_of selected), s1)
         ∧ selected ∈ formats
         ∧ (∀ format, format ∈ formats → bitrate format ≤ bitrate selected)
         ∧ getDownloadUrl audio_formats (now + 1) videoId Pipeline.high s1
           = (Ok (info_of selected), s1))
      ∧ (∃ selected s1,
           getDownloadUrl audio_formats now videoId Pipeline.standard s
           = (Ok (info_of selected), s1)
           ∧ selected ∈ formats
           ∧ ((128 ≤ bitrate selected)
              ∨ (selected = first ∧ ∀ format, format ∈ formats → bitrate format < 128)))
  end.
Proof.
  intros Hc Hempty Hformats.
  assert (Hmiss : ∀ key, JsonStore.getJson now key s = (Ok None, s)).
  { intros key. rewrite StoreFacts.getJson_connected by done.
    by rewrite Hempty, lookup_empty. }
  destruct formats as [|first rest].
  - intros quality. unfold getDownloadUrl, bind. rewrite Hmiss.
    unfold AudioAnalysis.rethrow_as, bind, Pipeline.lift. rewrite Hformats.
    by destruct quality.
  - split.
    + destruct (highest_fold rest first) as [Hin Hmax]. cbv zeta in Hin, Hmax.
      eexists _, _. split; [|split; [exact Hin|split; [exact Hmax|]]].
      * unfold getDownloadUrl, bind. rewrite Hmiss.
        unfold AudioAnalysis.rethrow_as, bind, Pipeline.lift. rewrite Hformats.
        cbn [highest]. rewrite StoreFacts.setJson_connected by done. reflexivity.
      * unfold getDownloadUrl, bind.
        rewrite StoreFacts.getJson_connected by done.
        cbn [JsonStore.data]. rewrite lookup_insert_eq. unfold JsonStore.live.
        rewrite (proj2 (Z.ltb_lt (now + 1) (now + 1800 * 1000))) by lia. done.
    + assert (Hsel : ∃ selected,
                standard_or_first (first :: rest) = Some selected
                ∧ selected ∈ first :: rest
                ∧ ((128 ≤ bitrate selected)
                   ∨ (selected = first
                      ∧ ∀ format, format ∈ first :: rest → bitrate format < 128))).
      { unfold standard_or_first.
        destruct (List.find _ (first :: rest)) as [format|] eqn:Hfind.
        - apply List.find_some in Hfind as [Hin Hp]. exists format.
          split; [done|]. split; [by apply list_elem_of_In|]. left.
          unfold bitrate. destruct (audioBitrate format) as [b|]; [|done].
          apply andb_prop in Hp as [_ Hb]. cbn. by apply Z.leb_le.
        - exists first. split; [done|]. split; [left|]. right. split; [done|].
          intros format Hin%list_elem_of_In.
          pose proof (List.find_none _ _ Hfind format Hin) as Hp. cbn beta in Hp.
          unfold bitrate. destruct (audioBitrate format) as [b|]; [|done]. cbn.
          destruct (b =? 0) eqn:H0; [apply Z.eqb_eq in H0; lia|].
          cbn in Hp. apply Z.leb_gt in Hp. lia. }
      destruct Hsel as (selected & Hsel & Hin & Hwhich).
      exists selected. eexists. split; [|split; done].
      unfold getDownloadUrl, bind. rewrite Hmiss.
      unfold AudioAnalysis.rethrow_as, bind, Pipeline.lift. rewrite Hformats, Hsel.
      unfold ret. rewrite StoreFacts.setJson_connected by done. reflexivity.
Qed.

Lemma download_format_choice_witness :
  let low := {| url := "https://cdn.example/low"; container := Some "webm";
                audioBitrate := Some 64 |} in
  let mid := {| url := "https://cdn.example/mid"; container := Some "mp4";
                audioBitrate := Some 128 |} in
  let top := {| url := "https://cdn.example/top"; container := None;
                audioBitrate := Some 160 |} in
  let formats := [low; mid; top] in
  let s := JsonStore.State true ∅ in
  (∃ selected s1,
     getDownloadUrl (λ _, Ok formats) 0 "dQw4w9WgXcQ" Pipeline.high s
     = (Ok (info_of selected), s1)
     ∧ selected ∈ formats
     ∧ (∀ format, format ∈ formats → bitrate format ≤ bitrate selected)
     ∧ getDownloadUrl (λ _, Ok formats) (0 + 1) "dQw4w9WgXcQ" Pipeline.high s1
       = (Ok (info_of selected), s1))
  ∧ (∃ selected s1,
       getDownloadUrl (λ _, Ok formats) 0 "dQw4w9WgXcQ" Pipeline.standard s
       = (Ok (info_of selected), s1)
       ∧ selected ∈ formats
       ∧ ((128 ≤ bitrate selected)
          ∨ (selected = low ∧ ∀ format, format ∈ formats → bitrate format < 128))).
Proof.
  intros low mid top formats s.
  exact (download_format_choice (λ _, Ok formats) 0 "dQw4w9WgXcQ" formats s
           eq_refl eq_refl eq_refl).
Defined.

End YouTubeFacts.

(** ** The analysis endpoint and the error handler *)

Module AnalyzeFacts.

Import Analyze.

(** X25.  What the analysis endpoint answers.  A 200 is always the analysis
    of one audio URL that is not empty: the given [audioUrl] when there is
    one, in which case [youtubeUrl] is not looked at, and otherwise the
    download URL of the video that [youtubeUrl] names; the answer holds a
    tempo, a key, an energy or a waveform only if that analysis type was
    requested (by default all four are), and a Camelot code only together
    with a key.  Every other answer is 400 [INVALID_YOUTUBE_URL], 400
    [MISSING_AUDIO_SOURCE] or 500 [ANALYSIS_ERROR]; with an [audioUrl] given
    the first two cannot occur. *)
Theorem analysis_endpoint env body :
  let types := default ["bpm"; "key"; "energy"; "waveform"] (analysisType body) in
  match analyzeAudio env body with
  | Analyzed data =>
      (∃ url analysis,
         url ≠ ""
         ∧ Pipeline.analyzeFromUrl env url = Ok analysis
         ∧ data = filter_analysis types analysis
         ∧ (truthy_string (audioUrl body) = true → audioUrl body = Some url)
         ∧ (truthy_string (audioUrl body) = false →
            ∃ videoId,
              YouTube.validateAndExtractId (default "" (youtubeUrl body)) = Some videoId
              ∧ Pipeline.getDownloadUrl env videoId Pipeline.standard = Ok url))
      ∧ (is_Some (bpm data) → "bpm" ∈ types)
      ∧ (is_Some (musicalKey data) → "key" ∈ types)
      ∧ (is_Some (camelotKey data) → is_Some (musicalKey data))
      ∧ (is_Some (energyLevel data) → "energy" ∈ types)
      ∧ (is_Some (waveformPeaks data) → "waveform" ∈ types)
  | Failure status code =>
      ((status, code) ∈ [ (400, "INVALID_YOUTUBE_URL"); (400, "MISSING_AUDIO_SOURCE");
                          (500, "ANALYSIS_ERROR") ])
      ∧ (truthy_string (audioUrl body) = true → status = 500)
  end.
Proof.
  intros types.
  assert (Hfiltered : ∀ analysis,
    let data := filter_analysis types analysis in
    (is_Some (bpm data) → "bpm" ∈ types)
    ∧ (is_Some (musicalKey data) → "key" ∈ types)
    ∧ (is_Some (camelotKey data) → is_Some (musicalKey data))
    ∧ (is_Some (energyLevel data) → "energy" ∈ types)
    ∧ (is_Some (waveformPeaks data) → "waveform" ∈ types)).
  { intros analysis. cbv zeta. unfold filter_analysis, includes.
    cbn [bpm musicalKey camelotKey energyLevel waveformPeaks].
    repeat split.
    - case_bool_decide; [done|]. by intros [? [=]].
    - case_bool_decide; [done|]. by intros [? [=]].
    - case_bool_decide; cbn [andb]; [|by intros [? [=]]].
      destruct (truthy_string (AudioAnalysisResult.musicalKey analysis)) eqn:Hk;
        [|by intros [? [=]]].
      intros _. apply AccountFacts.truthy_string_Some in Hk as (v & -> & _). by eexists.
    - case_bool_decide; [done|]. by intros [? [=]].
    - case_bool_decide; [done|]. by intros [? [=]]. }
  unfold analyzeAudio, analyze. fold types.
  destruct (truthy_string (audioUrl body)) eqn:Haudio.
  - rewrite andb_false_r. rewrite Haudio. cbn [negb].
    apply AccountFacts.truthy_string_Some in Haudio as (url & Hurl & Hne). rewrite Hurl.
    cbn [default from_option Datatypes.id].
    destruct (Pipeline.analyzeFromUrl env url) as [analysis|e] eqn:Han.
    + split; [|apply Hfiltered]. exists url, analysis. by repeat split.
    + split; [set_solver | done].
  - rewrite andb_true_r.
    destruct (truthy_string (youtubeUrl body)) eqn:Hyt.
    + destruct (YouTube.validateAndExtractId (default "" (youtubeUrl body)))
        as [videoId|] eqn:Hid; [|split; [set_solver | done]].
      destruct (Pipeline.getDownloadUrl env videoId Pipeline.standard)
        as [url|e] eqn:Hdl; [|split; [set_solver | done]].
      destruct (truthy_string (Some url)) eqn:Hurl; cbn [negb];
        [|split; [set_solver | done]].
      apply AccountFacts.truthy_string_Some in Hurl as (url' & [= <-] & Hne).
      cbn [default from_option Datatypes.id].
      destruct (Pipeline.analyzeFromUrl env url) as [analysis|e] eqn:Han;
        [|split; [set_solver | done]].
      split; [|apply Hfiltered]. exists url, analysis.
      split; [done|]. split; [done|]. split; [done|]. split; [done|].
      intros _. by exists videoId.
    + rewrite Haudio. cbn [negb]. split; [set_solver | done].
Qed.

End AnalyzeFacts.

Module ErrorHandlerFacts.

Import ErrorHandler.

(** X26.  What the error handler discloses.  In production the answer never
    carries the stack, and it carries the error's own message only for a
    [ValidationError] or a message that contains [rate limit]; for every
    other error the message is one of three fixed texts.  Outside production
    the stack is passed on as it is.  The status and the code do not depend
    on the environment; they are decided by the first matching rule among
    the error's name ([ValidationError], [UnauthorizedError]), its code
    ([ENOTFOUND], [ECONNREFUSED]) and its message, and are 500
    [INTERNAL_ERROR] when none matches. *)
Theorem error_disclosure error :
  let prod := errorHandler true error in
  let dev := errorHandler false error in
  answer_stack prod = None
  ∧ answer_stack dev = stack error
  ∧ statusCode prod = statusCode dev
  ∧ errorCode prod = errorCode dev
  ∧ ((statusCode prod, errorCode prod)
      ∈ [ (400, "VALIDATION_ERROR"); (401, "UNAUTHORIZED");
          (503, "SERVICE_UNAVAILABLE"); (429, "RATE_LIMIT_EXCEEDED");
          (500, "INTERNAL_ERROR") ])
  ∧ (errorCode prod ≠ "VALIDATION_ERROR" → errorCode prod ≠ "RATE_LIMIT_EXCEEDED" →
     errorMessage prod
       ∈ [ Some "Authentication failed"; Some "External service unavailable";
           Some "An internal error occurred" ])
  ∧ (name error = Some "ValidationError" →
     statusCode prod = 400 ∧ errorMessage prod = message error)
  ∧ (errorCode prod = "RATE_LIMIT_EXCEEDED" →
     ∃ m, message error = Some m ∧ includes "rate limit" m = true
          ∧ errorMessage prod = Some m)
  ∧ (errorCode dev = "INTERNAL_ERROR" → errorMessage dev = message error).
Proof.
  cbv zeta. unfold errorHandler.
  destruct (bool_decide (name error = Some "ValidationError")) eqn:Hv.
  { apply bool_decide_eq_true in Hv. cbn.
    repeat split; try done; try set_solver. }
  apply bool_decide_eq_false in Hv.
  destruct (bool_decide (name error = Some "UnauthorizedError")) eqn:Hu.
  { cbn. repeat split; try done; try set_solver. }
  destruct (bool_decide (code error = Some "ENOTFOUND")
            || bool_decide (code error = Some "ECONNREFUSED")) eqn:Hc.
  { cbn. repeat split; try done; try set_solver. }
  destruct (message error) as [m|] eqn:Hm.
  - destruct (includes "rate limit" m) eqn:Hr.
    + cbn. repeat split; try done; try set_solver; try (intros _; by exists m).
    + cbn. repeat split; try done; try set_solver.
  - cbn. repeat split; try done; try set_solver.
Qed.

End ErrorHandlerFacts.
